(** * aiLocalize: a shallow embedding of the localisation hook

    The development follows [hooks/aiLocalize.ts] of the repository in its
    two versions: the structure-preserving hook (schema walker, rich-text
    flattening and reinjection, locale scoring) at the top level, and the
    plain-text hook that the collections import in [Module Legacy].

    JavaScript values are modelled by their JSON content; effects (record
    store, language-model client, console) by a trace of events; exceptions
    by the [result] type. *)

From Stdlib Require Import List String Ascii ZArith NArith Lia Bool Arith FinFun.
From Stdlib Require Import DecimalString QArith.
Import ListNotations.
Close Scope Q_scope.
Open Scope string_scope.
Open Scope list_scope.

Set Implicit Arguments.

(** ** JavaScript strings

    A string is a sequence of code units; the model keeps the code units
    below 256 (one [ascii] each). *)

Definition nl : ascii := "010"%char.

Definition is_nl (c : ascii) : bool := Ascii.eqb c nl.

(** The code units that [String.prototype.trim] strips (WhiteSpace and
    LineTerminator), among those below 256: TAB, LF, VT, FF, CR, SP, NBSP. *)
Definition is_ws (c : ascii) : bool :=
  let n := nat_of_ascii c in
  ((9 <=? n)%nat && (n <=? 13)%nat) || (n =? 32)%nat || (n =? 160)%nat.

Fixpoint trimStart (s : string) : string :=
  match s with
  | EmptyString => EmptyString
  | String c r => if is_ws c then trimStart r else s
  end.

Fixpoint trimEnd (s : string) : string :=
  match s with
  | EmptyString => EmptyString
  | String c r =>
      match trimEnd r with
      | EmptyString => if is_ws c then EmptyString else String c EmptyString
      | r' => String c r'
      end
  end.

Definition trim (s : string) : string := trimEnd (trimStart s).

(** [Array.prototype.join] on an array of strings. *)
Definition join (sep : string) (l : list string) : string := String.concat sep l.

(** Number of newlines at the head of [s]. *)
Fixpoint count_nl (s : string) : nat :=
  match s with
  | String c r => if is_nl c then S (count_nl r) else 0
  | EmptyString => 0
  end.

(** [s.replace(/\n{3,}/g, '\n\n')]: the scanner tries the pattern at every
    position from the left; where three or more newlines start, the greedy
    quantifier takes the whole run ([inside] is true while the rest of a
    matched run is consumed) and the replacement is written once; elsewhere
    the code unit is copied. *)
Fixpoint replace_nl3 (inside : bool) (s : string) : string :=
  match s with
  | EmptyString => EmptyString
  | String c r =>
      if is_nl c then
        if inside then replace_nl3 true r
        else if (2 <=? count_nl r)%nat
             then String nl (String nl (replace_nl3 true r))
             else String c (replace_nl3 false r)
      else String c (replace_nl3 false r)
  end.

Definition collapseNewlines (s : string) : string := replace_nl3 false s.

(** [s.split('.')]: never the empty list. *)
Fixpoint split_dot_aux (cur : string) (s : string) : list string :=
  match s with
  | EmptyString => [cur]
  | String c r =>
      if Ascii.eqb c "."%char then cur :: split_dot_aux EmptyString r
      else split_dot_aux (cur ++ String c EmptyString)%string r
  end.

Definition split_dot (s : string) : list string := split_dot_aux EmptyString s.

(** Array indices: a property key is an array index when it is the canonical
    decimal numeral of an integer in 0 .. 2^32 - 2. *)
Definition digit_of (c : ascii) : option N :=
  let n := N_of_ascii c in
  if ((48 <=? n) && (n <=? 57))%N then Some (n - 48)%N else None.

Fixpoint digits_value (acc : N) (s : string) : option N :=
  match s with
  | EmptyString => Some acc
  | String c r =>
      match digit_of c with
      | Some d => digits_value (acc * 10 + d)%N r
      | None => None
      end
  end.

Definition array_index (k : string) : option N :=
  match k with
  | EmptyString => None
  | String c r =>
      if Ascii.eqb c "0"%char && negb (String.eqb r EmptyString) then None
      else match digits_value 0%N k with
           | Some n => if (n <=? 4294967294)%N then Some n else None
           | None => None
           end
  end.

(** ** Results of fallible code *)

Inductive exn : Type :=
| TypeError (what : string)
| Failure (msg : string).

Inductive result (A : Type) : Type :=
| Ok (a : A)
| Throw (e : exn).

Arguments Ok {A} a.
Arguments Throw {A} e.

Definition rbind {A B} (r : result A) (k : A -> result B) : result B :=
  match r with
  | Ok a => k a
  | Throw e => Throw e
  end.

Declare Scope result_scope.
Delimit Scope result_scope with result.
Notation "x <- r ;; k" := (rbind r (fun x => k))
  (at level 100, r at next level, right associativity) : result_scope.

(** [l.map(f)] when [f] may throw: elements are visited from the left. *)
Fixpoint mapR {A B} (f : A -> result B) (l : list A) : result (list B) :=
  match l with
  | [] => Ok []
  | x :: r =>
      (y <- f x ;; ys <- mapR f r ;; Ok (y :: ys))%result
  end.

(** ** JavaScript values

    Documents, schemas' data and model answers are JSON data: [undefined]
    is not a value of its own, it is the absence of one ([None] in an
    [option json]).  A number is kept by its integer value.  An object is
    the list of its own properties in insertion order. *)

Unset Elimination Schemes.
Inductive json : Type :=
| JNull
| JBool (b : bool)
| JNum (z : Z)
| JStr (s : string)
| JArr (items : list json)
| JObj (props : list (string * json)).
Set Elimination Schemes.

(** Structural induction that reaches array items and property values. *)
Section JsonInd.
Variable P : json -> Prop.
Hypothesis Hnull : P JNull.
Hypothesis Hbool : forall b, P (JBool b).
Hypothesis Hnum : forall z, P (JNum z).
Hypothesis Hstr : forall s, P (JStr s).
Hypothesis Harr : forall l, Forall P l -> P (JArr l).
Hypothesis Hobj : forall kv, Forall (fun p => P (snd p)) kv -> P (JObj kv).

Fixpoint json_induction (v : json) : P v :=
  match v with
  | JNull => Hnull
  | JBool b => Hbool b
  | JNum z => Hnum z
  | JStr s => Hstr s
  | JArr l =>
      Harr ((fix all (l : list json) : Forall P l :=
               match l with
               | [] => Forall_nil P
               | x :: r => Forall_cons x (json_induction x) (all r)
               end) l)
  | JObj kv =>
      Hobj ((fix all (kv : list (string * json))
               : Forall (fun p => P (snd p)) kv :=
               match kv with
               | [] => Forall_nil _
               | p :: r => Forall_cons p (json_induction (snd p)) (all r)
               end) kv)
  end.
End JsonInd.

(** Own properties: first binding of the key. [lookup_with f] applies [f] to
    the value found (so that a recursive function can be passed to it). *)
Fixpoint lookup_with {A B} (f : A -> B) (k : string) (kv : list (string * A))
  : option B :=
  match kv with
  | [] => None
  | (k', v) :: r => if String.eqb k' k then Some (f v) else lookup_with f k r
  end.

Definition lookup {A} (k : string) (kv : list (string * A)) : option A :=
  lookup_with (fun v => v) k kv.

(** [o[k] = v] on an object: the binding is replaced where it stands, or
    added at the end. *)
Fixpoint assign {A} (k : string) (v : A) (kv : list (string * A))
  : list (string * A) :=
  match kv with
  | [] => [(k, v)]
  | (k', v') :: r =>
      if String.eqb k' k then (k, v) :: r else (k', v') :: assign k v r
  end.

(** Truthiness of a value ([None] is [undefined]). *)
Definition truthy (v : option json) : bool :=
  match v with
  | None | Some JNull | Some (JBool false) => false
  | Some (JNum z) => negb (Z.eqb z 0)
  | Some (JStr s) => negb (String.eqb s EmptyString)
  | Some _ => true
  end.

(** [v == null]. *)
Definition nullish (v : option json) : bool :=
  match v with
  | None | Some JNull => true
  | Some _ => false
  end.

(** [typeof v === 'object' && v !== null]. *)
Definition isObject (v : option json) : bool :=
  match v with
  | Some (JArr _) | Some (JObj _) => true
  | _ => false
  end.

Definition isArray (v : option json) : bool :=
  match v with
  | Some (JArr _) => true
  | _ => false
  end.

Definition isString (v : option json) : bool :=
  match v with
  | Some (JStr _) => true
  | _ => false
  end.

Fixpoint chars (s : string) : list json :=
  match s with
  | EmptyString => []
  | String c r => JStr (String c EmptyString) :: chars r
  end.

(** [v[k]] for a value that is neither [null] nor [undefined]: own
    properties of objects, the items and the length of arrays and strings.
    A member inherited from a prototype is a function (or, for [__proto__],
    the prototype): it is not a [json] value, and [prop] is the value of the
    read only where [ownRead] holds; the keys that the hooks look up are
    field names, locale codes and the fixed names of the data model. *)
Definition prop (v : json) (k : string) : option json :=
  match v with
  | JObj kv => lookup k kv
  | JArr l =>
      if String.eqb k "length" then Some (JNum (Z.of_nat (List.length l)))
      else match array_index k with
           | Some i => nth_error l (N.to_nat i)
           | None => None
           end
  | JStr s =>
      if String.eqb k "length" then Some (JNum (Z.of_nat (String.length s)))
      else match array_index k with
           | Some i => nth_error (chars s) (N.to_nat i)
           | None => None
           end
  | _ => None
  end.

(** [v?.[k]]. *)
Definition optProp (v : option json) (k : string) : option json :=
  match v with
  | None | Some JNull => None
  | Some x => prop x k
  end.

(** [v[k]] where [v] may be [null] or [undefined]: a TypeError then. *)
Definition member (v : option json) (k : string) : result (option json) :=
  match v with
  | None | Some JNull => Throw (TypeError "cannot read properties of null")
  | Some x => Ok (prop x k)
  end.

(** ** Numbers as strings

    [JNum z] is the Number whose value is the integer [z] (numbers with a
    fractional part have no [json] value); below 2^53 every integer is a
    Number, above an integer stands for the double nearest to it, as
    [JSON.parse] reads it.  [Number.prototype.toString] prints the shortest
    decimal that reads back as the same double: all the digits of an integer
    below 2^53, zeros after the significant digits up to 21 digits, the
    exponent form from 10^21 on. *)

Definition decimal (z : Z) : string := NilZero.string_of_int (Z.to_int z).

(** The double nearest to an integer, ties to the even mantissa; 2^1024
    stands for the overflow to [Infinity]. *)
Definition roundToDouble (z : Z) : Z :=
  let a := Z.abs z in
  if (a <? 2 ^ 53)%Z then z
  else
    let e := (Z.log2 a - 52)%Z in
    let q := Z.shiftr a e in
    let r := (a - Z.shiftl q e)%Z in
    let half := Z.shiftl 1 (e - 1) in
    let q' := if (half <? r)%Z || ((r =? half)%Z && Z.odd q) then (q + 1)%Z else q in
    (Z.sgn z * Z.shiftl q' e)%Z.

(** The decimal with the fewest significant digits that reads back as the
    double [x] (the nearest one when there are two), [len] being the number
    of digits of [x] and [k] the number of significant digits tried. *)
Fixpoint shortestFrom (fuel : nat) (k len x : Z) : Z :=
  match fuel with
  | O => x
  | S fuel' =>
      let p := (10 ^ (len - k))%Z in
      let v1 := (x / p * p)%Z in
      let v2 := (v1 + p)%Z in
      let ok1 := (roundToDouble v1 =? x)%Z in
      let ok2 := (roundToDouble v2 =? x)%Z in
      if ok1 && ok2 then
        if (x - v1 <? v2 - x)%Z then v1
        else if (v2 - x <? x - v1)%Z then v2
        else if Z.even (x / p) then v1 else v2
      else if ok1 then v1
      else if ok2 then v2
      else shortestFrom fuel' (k + 1)%Z len x
  end.

Fixpoint dropZerosRev (l : list ascii) : list ascii :=
  match l with
  | c :: r => if Ascii.eqb c "0"%char then dropZerosRev r else l
  | [] => []
  end.

(** The digits of a decimal without its trailing zeros. *)
Definition significant (s : string) : string :=
  string_of_list_ascii (rev (dropZerosRev (rev (list_ascii_of_string s)))).

Definition exponentForm (digits : string) : string :=
  match significant digits with
  | String c rest =>
      (String c (match rest with
                 | EmptyString => EmptyString
                 | _ => "." ++ rest
                 end)
       ++ "e+" ++ decimal (Z.of_nat (String.length digits) - 1))%string
  | EmptyString => digits
  end.

(** [String(n)], [n.toString()] and [`${n}`] for a number. *)
Definition Z_to_string (z : Z) : string :=
  let x := roundToDouble z in
  let a := Z.abs x in
  if (a <? 2 ^ 53)%Z then decimal x
  else if (2 ^ 1024 <=? a)%Z then (if (x <? 0)%Z then "-Infinity" else "Infinity")
  else
    let len := Z.of_nat (String.length (decimal a)) in
    let digits := decimal (shortestFrom (Z.to_nat len) 1 len a) in
    let body := if (String.length digits <=? 21)%nat then digits
                else exponentForm digits in
    if (x <? 0)%Z then ("-" ++ body)%string else body.

(** [String(v)] and [`${v}`] on a JSON value whose conversion is the default
    one (see [defaultString]). *)

Fixpoint toString (v : json) : string :=
  match v with
  | JNull => "null"
  | JBool true => "true"
  | JBool false => "false"
  | JNum z => Z_to_string z
  | JStr s => s
  | JArr l =>
      join "," (map (fun x => match x with JNull => EmptyString | _ => toString x end) l)
  | JObj _ => "[object Object]"
  end.

(** The names that every object inherits from [Object.prototype]. *)
Definition objectPrototype : list string :=
  [ "constructor"; "hasOwnProperty"; "isPrototypeOf"; "propertyIsEnumerable";
    "toLocaleString"; "toString"; "valueOf"; "__proto__";
    "__defineGetter__"; "__defineSetter__"; "__lookupGetter__"; "__lookupSetter__" ].

(** The read [v[k]] finds an own property, or nothing at all: [k] is an own
    key of the object or no name of [Object.prototype], the length or an
    index of an array or of a string.  Numbers and booleans have inherited
    members only, and are left out. *)
Definition ownRead (v : json) (k : string) : bool :=
  match v with
  | JObj kv =>
      match lookup k kv with
      | Some _ => true
      | None => negb (existsb (String.eqb k) objectPrototype)
      end
  | JArr _ | JStr _ =>
      String.eqb k "length"
      || match array_index k with Some _ => true | None => false end
  | _ => false
  end.

(** The reads along a path are own reads, as far as the path is followed. *)
Fixpoint ownPath (v : option json) (parts : list string) : bool :=
  match parts with
  | [] => true
  | k :: rest =>
      match v with
      | None | Some JNull => true
      | Some x => ownRead x k && ownPath (prop x k) rest
      end
  end.

(** [v.toString()] where [v] is neither [null] nor [undefined], and the
    conversion [String(v)]: a property [toString] of the object's own hides
    the inherited method, and a JSON value cannot be called; the items of
    an array are converted in turn. *)
Fixpoint toStringCall (v : json) : result string :=
  match v with
  | JObj kv =>
      match lookup "toString" kv with
      | Some _ => Throw (TypeError "toString is not a function")
      | None => Ok "[object Object]"
      end
  | JArr l =>
      (parts <- mapR (fun x => match x with
                               | JNull => Ok EmptyString
                               | _ => toStringCall x
                               end) l ;;
       Ok (join "," parts))%result
  | _ => Ok (toString v)
  end.

(** The conversion of [v] to a string is the default one. *)
Definition defaultString (v : option json) : bool :=
  match v with
  | Some x => match toStringCall x with Ok _ => true | Throw _ => false end
  | None => true
  end.

(** [v === 'lit']. *)
Definition strEq (v : option json) (lit : string) : bool :=
  match v with
  | Some (JStr s) => String.eqb s lit
  | _ => false
  end.

(** ** Rich-text helpers *)

Definition looksLikeSlate (val : option json) : bool :=
  match val with
  | Some (JArr l) =>
      forallb (fun n => isObject (Some n) && negb (nullish (Some n))
                        && truthy (prop n "type")) l
  | _ => false
  end.

Definition looksLikeLexical (val : option json) : bool :=
  match val with
  | Some v =>
      truthy val && isObject val && truthy (prop v "root")
      && strEq (optProp (prop v "root") "type") "root"
  | None => false
  end.

(** The children of a node when they are an array, handed to [f]. *)
Definition childrenArray {B} (f : list json -> B) (kv : list (string * json))
  : option B :=
  match lookup_with (fun c => match c with
                              | JArr l => Some (f l)
                              | _ => None
                              end) "children" kv with
  | Some r => r
  | None => None
  end.

(** [collect] of [slateToPlain]. *)
Fixpoint collect (node : json) : string :=
  match node with
  | JObj kv =>
      match lookup "text" kv with
      | Some (JStr t) => t
      | _ =>
          match childrenArray (fun l => join EmptyString (map collect l)) kv with
          | Some s => s
          | None => EmptyString
          end
      end
  | _ => EmptyString
  end.

Definition slateToPlain (val : option json) : string :=
  match val with
  | Some (JArr l) =>
      trim (collapseNewlines (join (String nl EmptyString) (map collect l)))
  | _ => EmptyString
  end.

(** The callback of [walk] in [lexicalToPlain]; [n.type] on [null] throws. *)
Fixpoint walkNode (n : json) : result string :=
  match n with
  | JNull => Throw (TypeError "n is null")
  | JObj kv =>
      match strEq (lookup "type" kv) "text", lookup "text" kv with
      | true, Some (JStr t) => Ok t
      | _, _ =>
          match childrenArray
                  (fun l => (parts <- mapR walkNode l ;;
                             Ok (join EmptyString parts))%result) kv with
          | Some r => r
          | None =>
              if strEq (lookup "type" kv) "linebreak"
              then Ok (String nl EmptyString)
              else Ok EmptyString
          end
      end
  | _ => Ok EmptyString
  end.

Definition walk (nodes : list json) : result string :=
  (parts <- mapR walkNode nodes ;; Ok (join EmptyString parts))%result.

Definition lexicalToPlain (val : option json) : result string :=
  let children := optProp (optProp val "root") "children" in
  if negb (truthy children) then Ok EmptyString
  else match children with
       | Some (JArr nodes) =>
           (s <- walk nodes ;; Ok (trim (collapseNewlines s)))%result
       | _ => Throw (TypeError "nodes.map is not a function")
       end.

(** ** Reinjection of translated text

    [JSON.parse(JSON.stringify(v))] gives a fresh copy with the same JSON
    content; on [json] it is the identity.  The nodes pushed to [textNodes]
    are references into that copy: a reference is the path of the node, the
    positions to follow through the [children] arrays. *)

Definition deepClone (v : json) : json := v.

Definition path : Type := list nat.

Fixpoint update_nth {A} (i : nat) (f : A -> A) (l : list A) : list A :=
  match l, i with
  | [], _ => []
  | x :: r, O => f x :: r
  | x :: r, S j => x :: update_nth j f r
  end.

Fixpoint update_first {A} (k : string) (f : A -> A) (kv : list (string * A))
  : list (string * A) :=
  match kv with
  | [] => []
  | (k', v) :: r =>
      if String.eqb k' k then (k', f v) :: r else (k', v) :: update_first k f r
  end.

(** [node.text = t] through a reference. *)
Definition setText (t : string) (n : json) : json :=
  match n with
  | JObj kv => JObj (assign "text" (JStr t) kv)
  | _ => n
  end.

(** The node whose [children] array is changed in place by [f]. *)
Definition onChildren (f : list json -> list json) (n : json) : json :=
  match n with
  | JObj kv =>
      JObj (update_first "children"
              (fun c => match c with JArr l => JArr (f l) | _ => c end) kv)
  | _ => n
  end.

Fixpoint setTextAt (t : string) (p : path) (nodes : list json) : list json :=
  match p with
  | [] => nodes
  | i :: q =>
      update_nth i (fun n => match q with
                             | [] => setText t n
                             | _ :: _ => onChildren (setTextAt t q) n
                             end) nodes
  end.

(** [textNodes[0].text = translatedText] and [textNodes[i].text = ''] for the
    others. *)
Definition replaceText (t : string) (textNodes : list path) (nodes : list json)
  : list json :=
  match textNodes with
  | [] => nodes
  | first :: others =>
      fold_left (fun acc p => setTextAt EmptyString p acc) others
                (setTextAt t first nodes)
  end.

(** [for (const node of nodes || [])] where [nodes] is not an array: nothing
    to visit when it is falsy, the code units of a string (no text node
    among them), a TypeError otherwise. *)
Definition iterateOther (c : json) : result (list path) :=
  match c with
  | JNull | JBool false | JStr _ | JArr _ => Ok []
  | JNum z => if Z.eqb z 0 then Ok []
              else Throw (TypeError "nodes is not iterable")
  | JBool true | JObj _ => Throw (TypeError "nodes is not iterable")
  end.

Section FindTextNodes.
(** What makes a node a text node: [node.type === 'text'] for Lexical,
    [node.text !== undefined] for Slate. *)
Variable isTextNode : list (string * json) -> bool.

(** One turn of the loop of [findTextNodes]; the paths start at the node. *)
Fixpoint visitNode (n : json) : result (list path) :=
  match n with
  | JNull => Throw (TypeError "node is null")
  | JObj kv =>
      let here := if isTextNode kv then [[]] else [] in
      match lookup_with
              (fun c =>
                 match c with
                 | JArr l =>
                     (fix visitFrom (i : nat) (l : list json) {struct l}
                        : result (list path) :=
                        match l with
                        | [] => Ok []
                        | x :: r =>
                            (px <- visitNode x ;;
                             pr <- visitFrom (S i) r ;;
                             Ok (map (cons i) px ++ pr))%result
                        end) 0 l
                 | other => iterateOther other
                 end) "children" kv with
      | Some r => (below <- r ;; Ok (here ++ below))%result
      | None => Ok here
      end
  | _ => Ok []
  end.

Fixpoint visitFrom (i : nat) (l : list json) : result (list path) :=
  match l with
  | [] => Ok []
  | x :: r =>
      (px <- visitNode x ;;
       pr <- visitFrom (S i) r ;;
       Ok (map (cons i) px ++ pr))%result
  end.

Definition findTextNodes (nodes : option json) : result (list path) :=
  match nodes with
  | None => Ok []
  | Some (JArr l) => visitFrom 0 l
  | Some other => iterateOther other
  end.
End FindTextNodes.

Definition isLexicalText (kv : list (string * json)) : bool :=
  strEq (lookup "type" kv) "text".

Definition isSlateText (kv : list (string * json)) : bool :=
  match lookup "text" kv with
  | Some _ => true
  | None => false
  end.

Definition translateLexicalContent (source : json) (translatedText : string)
  : result json :=
  if negb (truthy (optProp (Some source) "root")) then Ok source
  else
    match deepClone source with
    | JObj kv =>
        (textNodes <- findTextNodes isLexicalText
                        (optProp (lookup "root" kv) "children") ;;
         Ok (JObj (update_first "root"
                     (onChildren (replaceText translatedText textNodes))
                     kv)))%result
    | other => Ok other
    end.

Definition translateSlateContent (source : json) (translatedText : string)
  : result json :=
  match deepClone source with
  | JArr l =>
      (textNodes <- findTextNodes isSlateText (Some (JArr l)) ;;
       Ok (JArr (replaceText translatedText textNodes l)))%result
  | _ => Ok source
  end.

(** ** Paths into documents *)

Definition getByPath (obj : json) (path : string) : option json :=
  if negb (truthy (Some obj)) then None
  else fold_left (fun acc k => if nullish acc then acc else optProp acc k)
                 (split_dot path) (Some obj).

(** [setByPath]: the nested objects are created on the way.  The patch
    starts as an empty object, so a node on the way is an object, or an
    array stored there by an earlier assignment; a property written to an
    array is not JSON content, and the model stops there ([None]). *)
Fixpoint setByParts (node : list (string * json)) (parts : list string)
  (value : json) : option (list (string * json)) :=
  match parts with
  | [] => Some (assign "undefined" value node)
  | [last] => Some (assign last value node)
  | p :: rest =>
      match lookup p node with
      | Some (JArr _) => None
      | Some (JObj child) =>
          match setByParts child rest value with
          | Some child' => Some (assign p (JObj child') node)
          | None => None
          end
      | _ =>
          match setByParts [] rest value with
          | Some child' => Some (assign p (JObj child') node)
          | None => None
          end
      end
  end.

Definition setByPath (target : list (string * json)) (path : string)
  (value : json) : option (list (string * json)) :=
  setByParts target (split_dot path) value.

(** ** Schema walker *)

Inductive FieldKind : Type := KText | KTextarea | KRichText.

Definition kind_of_type (t : string) : option FieldKind :=
  if String.eqb t "text" then Some KText
  else if String.eqb t "textarea" then Some KTextarea
  else if String.eqb t "richText" then Some KRichText
  else None.

(** A field of a collection schema: [fields] and the [fields] of a block are
    the empty list when the schema leaves them out (the walker does nothing
    in either case). *)
Unset Elimination Schemes.
Inductive Field : Type :=
  mkField (name : option string) (localized : bool) (type : string)
          (fields : list Field) (blocks : list (string * list Field)).
Set Elimination Schemes.

Definition FieldMap : Type := list (string * FieldKind).

Definition hasName (name : option string) : bool :=
  match name with
  | Some n => negb (String.eqb n EmptyString)
  | None => false
  end.

Definition nameOr (name : option string) : string :=
  match name with Some n => n | None => EmptyString end.

(** [visit] for one field, on the pair of [fields] and [meta] built so far. *)
Fixpoint visitField (prefix : string) (field : Field)
  (acc : list string * FieldMap) : list string * FieldMap :=
  match field with
  | mkField name localized type fields blocks =>
      let path :=
        if hasName name then
          (if String.eqb prefix EmptyString then nameOr name
           else (prefix ++ "." ++ nameOr name)%string)
        else prefix in
      let acc1 :=
        match hasName name && localized, kind_of_type type with
        | true, Some k => (fst acc ++ [path], assign path k (snd acc))
        | _, _ => acc
        end in
      let acc2 :=
        fold_left (fun a f => visitField (if hasName name then path else prefix) f a)
                  fields acc1 in
      fold_left
        (fun a b =>
           fold_left
             (fun a' f =>
                visitField (if hasName name then (path ++ "." ++ fst b)%string
                            else prefix)
                           f a')
             (snd b) a)
        blocks acc2
  end.

Definition visit (arr : list Field) (prefix : string)
  (acc : list string * FieldMap) : list string * FieldMap :=
  fold_left (fun a f => visitField prefix f a) arr acc.

Record Collection : Type := mkCollection {
  slug : string;
  config_fields : option (list Field);   (* collection.config?.fields *)
  own_fields : option (list Field)       (* collection.fields *)
}.

Definition detectLocalizedFieldsWithMeta (collection : Collection)
  : list string * FieldMap :=
  visit (match config_fields collection with
         | Some fs => fs
         | None => match own_fields collection with
                   | Some fs => fs
                   | None => []
                   end
         end) EmptyString ([], []).

(** ** Locale scoring *)

(** [typeof v === 'object' && v !== null ? v[locale] : other]. *)
Definition localeValue (v : option json) (locale : string) (other : option json)
  : option json :=
  if isObject v then optProp v locale else other.

(** The string held by [v] (used under a [typeof v === 'string'] test). *)
Definition strOf (v : option json) : string :=
  match v with
  | Some (JStr s) => s
  | _ => EmptyString
  end.

Definition blank (s : string) : bool := Nat.eqb (String.length (trim s)) 0.

(** The three tests of the loop body of [contentScore]. *)
Definition fieldHasContent (val : option json) : result bool :=
  if isString val && negb (blank (strOf val)) then Ok true
  else if looksLikeSlate val
          && negb (Nat.eqb (String.length (slateToPlain val)) 0)
  then Ok true
  else if looksLikeLexical val
  then (s <- lexicalToPlain val ;;
        Ok (negb (Nat.eqb (String.length s) 0)))%result
  else Ok false.

Fixpoint contentScoreFrom (score : nat) (docAllLocales : json)
  (fields : list string) (locale : string) : result nat :=
  match fields with
  | [] => Ok score
  | f :: rest =>
      let v := getByPath docAllLocales f in
      let val := localeValue v locale v in
      (b <- fieldHasContent val ;;
       contentScoreFrom (if b then score + 1 else score) docAllLocales rest locale)%result
  end.

Definition contentScore (docAllLocales : json) (fields : list string)
  (locale : string) (meta : FieldMap) : result nat :=
  contentScoreFrom 0 docAllLocales fields locale.

(** ** Configuration and requests *)

Record ClientOpts : Type := mkClientOpts {
  baseURL : option string;
  apiKey : string;
  model : string;
  temperature : option Q;
  maxTokens : option Z;
  timeoutMs : option Z
}.

Record LocalizeConfig : Type := mkLocalizeConfig {
  cfg_fields : option (list string);
  sourceLocale : option string;
  targetLocales : option (list string);
  guardFlagField : option string;
  dryRun : option bool;
  cfg_skipIfSlateTarget : option bool
}.

Definition HEADER_GUARD : string := "x-ai-localize".

(** A configured locale: a code, or an object with a [code]. *)
Inductive Locale : Type :=
| LocaleCode (code : string)
| LocaleObject (code : string).

Definition localeCodeOf (l : Locale) : string :=
  match l with
  | LocaleCode c => c
  | LocaleObject c => c
  end.

Record Localization : Type := mkLocalization {
  locales : list Locale;
  loc_defaultLocale : option Locale
}.

(** The parts of the request that the hooks read. *)
Record Request : Type := mkRequest {
  headers : option (list (string * json));
  localization : option Localization;      (* req.payload.config.localization *)
  req_locale : option string
}.

Record HookArgs : Type := mkHookArgs {
  req : Request;
  doc : json;
  collection : Collection;
  context : option (list (string * json))
}.

(** [req.headers?.[k]]. *)
Definition headerOf (r : Request) (k : string) : option json :=
  match headers r with
  | Some hs => lookup k hs
  | None => None
  end.

(** [a || b] on optional strings. *)
Definition orElse (a b : option string) : option string :=
  match a with
  | Some s => if String.eqb s EmptyString then b else a
  | None => b
  end.

(** ** Own property order

    [Object.entries], [Object.keys] and the spread of an object list the
    array-index keys first, in ascending order, then the other keys in
    insertion order. *)
Fixpoint insertIndex {A} (i : N) (e : string * A) (l : list (N * (string * A)))
  : list (N * (string * A)) :=
  match l with
  | [] => [(i, e)]
  | (j, e') :: r =>
      if (i <? j)%N then (i, e) :: (j, e') :: r else (j, e') :: insertIndex i e r
  end.

Definition indexEntries {A} (kv : list (string * A)) : list (N * (string * A)) :=
  fold_right (fun e acc => match array_index (fst e) with
                           | Some i => insertIndex i e acc
                           | None => acc
                           end) [] kv.

Definition Object_entries {A} (kv : list (string * A)) : list (string * A) :=
  map snd (indexEntries kv)
  ++ filter (fun e => match array_index (fst e) with
                      | Some _ => false
                      | None => true
                      end) kv.

(** [Object.fromEntries]: later entries overwrite, the key keeps its place. *)
Definition Object_fromEntries {A} (l : list (string * A)) : list (string * A) :=
  fold_left (fun o e => assign (fst e) (snd e) o) l [].

(** [{ ...o, [k]: v }]. *)
Definition spreadWith (o : option (list (string * json))) (k : string) (v : json)
  : list (string * json) :=
  assign k v (Object_entries (match o with Some kv => kv | None => [] end)).

(** [arr.sort(cmp)], a stable sort: [x] stays before [y] unless [cmp x y > 0]. *)
Fixpoint insertSorted {A} (cmp : A -> A -> Z) (x : A) (l : list A) : list A :=
  match l with
  | [] => [x]
  | y :: r => if (cmp x y <=? 0)%Z then x :: y :: r else y :: insertSorted cmp x r
  end.

Definition sort {A} (cmp : A -> A -> Z) (l : list A) : list A :=
  fold_right (insertSorted cmp) [] l.

(** ** Effects

    What the hook does to the outside is recorded as a trace of events, in
    the order of the calls.  The answers of the outside (HTTP client, record
    store) may depend on everything that happened before: they are functions
    of the trace so far. *)

Record ChatRequest : Type := mkChatRequest {
  url : string;
  authorization : string;
  body_model : string;
  body_system : string;
  body_user : string;
  body_temperature : Q;
  body_max_tokens : Z
}.

Record Response : Type := mkResponse {
  ok : bool;
  status : Z;
  text : result string;
  json_body : result json
}.

Record UpdateArgs : Type := mkUpdateArgs {
  u_collection : string;
  u_id : option json;
  u_locale : string;
  u_data : option (list (string * json));   (* [None]: see [setByParts] *)
  u_depth : Z;
  u_overrideAccess : bool;
  u_context : list (string * json);
  u_req : Request
}.

Inductive event : Type :=
| EFindByID (collection : string) (id : option json)   (* depth 0, locale 'all' *)
| EFetch (r : ChatRequest)
| EUpdate (u : UpdateArgs)
| EConsoleLog (message : string) (data : list json)
| EConsoleError (message : string) (err : exn).

Definition trace : Type := list event.

Definition M (A : Type) : Type := trace -> trace * result A.

Definition ret {A} (a : A) : M A := fun h => (h, Ok a).

Definition throw {A} (e : exn) : M A := fun h => (h, Throw e).

Definition bind {A B} (m : M A) (k : A -> M B) : M B :=
  fun h => match m h with
           | (h', Ok a) => k a h'
           | (h', Throw e) => (h', Throw e)
           end.

(** [try { body } catch (err) { handler }]. *)
Definition tryCatch {A} (body : M A) (handler : exn -> M A) : M A :=
  fun h => match body h with
           | (h', Ok a) => (h', Ok a)
           | (h', Throw e) => handler e h'
           end.

Definition liftR {A} (r : result A) : M A := fun h => (h, r).

Definition emit (e : event) : M unit := fun h => (h ++ [e], Ok tt).

Declare Scope hook_scope.
Delimit Scope hook_scope with hook.
Notation "x <- m ;; k" := (bind m (fun x => k))
  (at level 100, m at next level, right associativity) : hook_scope.
Notation "m ;;; k" := (bind m (fun _ => k))
  (at level 100, right associativity) : hook_scope.

(** [for (const x of l) body], where [body] returns nothing. *)
Fixpoint forEach {A} (l : list A) (body : A -> M unit) : M unit :=
  match l with
  | [] => ret tt
  | x :: r => (body x ;;; forEach r body)%hook
  end.

(** Template literals: [`${v}`]. *)
Definition interpolate (v : option json) : string :=
  match v with
  | None => "undefined"
  | Some x => toString x
  end.

Definition dquote : ascii := ascii_of_nat 34.

(** [buildPrompt]: the system prompt, and the object that is serialised as
    the user prompt. *)
Definition systemPrompt (fields : list string) (emptyRule : string) : string :=
  join " "
    [ "You fill missing localized fields for a CMS.";
      ("Return a strict JSON object with exactly these keys: "
       ++ join ", " (map (fun f => String dquote f ++ String dquote EmptyString) fields)
       ++ ".")%string;
      "Preserve meaning, tone, and domain terms.";
      "Keep placeholders like {name}, {count}, %{var} unchanged.";
      emptyRule;
      "No markdown. No extra keys. No explanations." ].

Definition userObjectFrom (collection : string) (from : json) (targetLocale : string)
  (sourceValues : list (string * string)) (extraContext : option json) : json :=
  JObj ([ ("task", JStr "localize");
          ("collection", JStr collection);
          ("from", from);
          ("to", JStr targetLocale);
          ("source", JObj (map (fun e => (fst e, JStr (snd e))) sourceValues)) ]
        ++ match extraContext with
           | Some c => [("context", c)]
           | None => []
           end).

Definition userObject (collection sourceLocale targetLocale : string)
  (sourceValues : list (string * string)) (extraContext : option json) : json :=
  userObjectFrom collection (JStr sourceLocale) targetLocale sourceValues extraContext.

(** [extraContext]; [knownKeys] is left out by the serialisation when
    [config.fields] is undefined. *)
Definition extraContextOf (collection : string) (fields : option (list string))
  : json :=
  JObj ([("collection", JStr collection)]
        ++ match fields with
           | Some fs => [("knownKeys", JArr (map JStr fs))]
           | None => []
           end
        ++ [("hints", JObj [])]).

(** ** The steps of the hook before the translation loop *)

Definition defaultLocale (config : LocalizeConfig) (localesCfg : Localization)
  : string :=
  match orElse (orElse (sourceLocale config)
                       (option_map localeCodeOf (loc_defaultLocale localesCfg)))
               (Some "en") with
  | Some s => s
  | None => "en"
  end.

Definition allLocales (localesCfg : Localization) : list string :=
  map localeCodeOf (locales localesCfg).

Definition requestedTargets (config : LocalizeConfig) (all : list string)
  : list string :=
  match targetLocales config with
  | Some (t :: ts) => t :: ts
  | _ => all
  end.

Definition gateClosed (guardFlag : option string) (doc : json) : bool :=
  match orElse guardFlag None with
  | Some g => match optProp (Some doc) g with
              | Some (JBool false) => true
              | _ => false
              end
  | None => false
  end.

Definition localizedView (firstVal : option json) : bool :=
  isString firstVal || isArray firstVal || looksLikeLexical firstVal.

(** [scores]: one entry per configured locale. *)
Definition scores (docAllLocales : json) (fieldsToLocalize : list string)
  (all : list string) (fieldMeta : FieldMap) : result (list (string * nat)) :=
  (entries <- mapR (fun l => (n <- contentScore docAllLocales fieldsToLocalize l fieldMeta ;;
                              Ok (l, n))%result) all ;;
   Ok (Object_fromEntries entries))%result.

Definition byScoreDesc (a b : string * nat) : Z :=
  (Z.of_nat (snd b) - Z.of_nat (snd a))%Z.

Definition bestLocale (sc : list (string * nat)) : option string :=
  match sort byScoreDesc (Object_entries sc) with
  | e :: _ => Some (fst e)
  | [] => None
  end.

(** [scores[l] > 0]. *)
Definition scorePositive (sc : list (string * nat)) (l : option string) : bool :=
  match lookup (match l with Some s => s | None => "undefined" end) sc with
  | Some n => (0 <? n)%nat
  | None => false
  end.

Definition actualSourceLocale (config : LocalizeConfig) (sc : list (string * nat))
  (dflt : string) : string :=
  match orElse (sourceLocale config) None with
  | Some src =>
      if scorePositive sc (Some src) then src
      else match orElse (bestLocale sc) (Some dflt) with
           | Some s => s
           | None => dflt
           end
  | None =>
      if scorePositive sc (bestLocale sc)
      then match bestLocale sc with Some s => s | None => dflt end
      else dflt
  end.

(** The retained source structure of a rich-text field. *)
Inductive Dialect : Type := DSlate | DLexical.

Record Sources : Type := mkSources {
  sourceValues : list (string * string);
  sourceRichTextStructures : list (string * (Dialect * json))
}.

Definition sourceOfField (docAllLocales : json) (fieldMeta : FieldMap)
  (src : string) (acc : Sources) (f : string) : result Sources :=
  let v := getByPath docAllLocales f in
  let val := localeValue v src v in
  let plain := if isString val then strOf val else EmptyString in
  match lookup f fieldMeta, val with
  | Some KRichText, Some structure =>
      if looksLikeSlate val then
        Ok (mkSources (assign f (slateToPlain val) (sourceValues acc))
                      (assign f (DSlate, structure) (sourceRichTextStructures acc)))
      else if looksLikeLexical val then
        (s <- lexicalToPlain val ;;
         Ok (mkSources (assign f s (sourceValues acc))
                       (assign f (DLexical, structure) (sourceRichTextStructures acc))))%result
      else Ok (mkSources (assign f plain (sourceValues acc))
                         (sourceRichTextStructures acc))
  | _, _ =>
      Ok (mkSources (assign f plain (sourceValues acc))
                    (sourceRichTextStructures acc))
  end.

Fixpoint sourcesFrom (docAllLocales : json) (fieldMeta : FieldMap) (src : string)
  (acc : Sources) (fields : list string) : result Sources :=
  match fields with
  | [] => Ok acc
  | f :: rest =>
      (acc' <- sourceOfField docAllLocales fieldMeta src acc f ;;
       sourcesFrom docAllLocales fieldMeta src acc' rest)%result
  end.

Definition hasSourceText (sv : list (string * string)) : bool :=
  existsb (fun e => negb (blank (snd e))) (Object_entries sv).

Definition targets (requested : list string) (src : string) : list string :=
  filter (fun l => negb (String.eqb l src)) requested.

(** ** Missing-field detection *)

Definition arrayLength (v : option json) : nat :=
  match v with
  | Some (JArr l) => List.length l
  | _ => 0
  end.

(** The value of [empty] for one field and one target locale. *)
Definition fieldEmpty (kind : option FieldKind) (val : option json) : result bool :=
  match kind with
  | Some KRichText =>
      if nullish val then Ok true
      else if looksLikeSlate val then Ok (blank (slateToPlain val))
      else if looksLikeLexical val
      then (s <- lexicalToPlain val ;; Ok (blank s))%result
      else if isArray val then Ok (Nat.eqb (arrayLength val) 0)
      else if isString val then Ok (blank (strOf val))
      else Ok true
  | _ =>
      Ok (nullish val
          || (isString val && String.eqb (trim (strOf val)) EmptyString)
          || (isArray val && Nat.eqb (arrayLength val) 0))
  end.

(** The value looked at for field [f] in target [locale]. *)
Definition targetValue (docAllLocales : json) (f locale : string) : option json :=
  localeValue (getByPath docAllLocales f) locale None.

Fixpoint fieldsMissing (docAllLocales : json) (fieldMeta : FieldMap)
  (locale : string) (fields : list string) : result (list string) :=
  match fields with
  | [] => Ok []
  | f :: rest =>
      (empty <- fieldEmpty (lookup f fieldMeta) (targetValue docAllLocales f locale) ;;
       more <- fieldsMissing docAllLocales fieldMeta locale rest ;;
       Ok (if empty then f :: more else more))%result
  end.

Fixpoint toFill (docAllLocales : json) (fieldMeta : FieldMap)
  (fields : list string) (tgts : list string)
  : result (list (string * list string)) :=
  match tgts with
  | [] => Ok []
  | locale :: rest =>
      (missing <- fieldsMissing docAllLocales fieldMeta locale fields ;;
       more <- toFill docAllLocales fieldMeta fields rest ;;
       Ok (match missing with
           | [] => more
           | _ :: _ => (locale, missing) :: more
           end))%result
  end.

(** ** The patch of one target locale *)

(** [(result?.[f] ?? '').toString()]. *)
Definition proposed (llmResult : json) (f : string) : result string :=
  match optProp (Some llmResult) f with
  | None | Some JNull => Ok EmptyString
  | Some v => toStringCall v
  end.

(** The value assigned at path [f]. *)
Definition patchValue (fieldMeta : FieldMap)
  (structures : list (string * (Dialect * json))) (llmResult : json) (f : string)
  : result json :=
  (text <- proposed llmResult f ;;
   match lookup f fieldMeta with
   | Some KRichText =>
       match lookup f structures with
       | Some (DLexical, structure) => translateLexicalContent structure text
       | Some (DSlate, structure) => translateSlateContent structure text
       | None => Ok (JStr text)
       end
   | _ => Ok (JStr text)
   end)%result.

(** The loop over [fieldsMissing] that fills [patch]; [None] once a path runs
    into an array (see [setByParts]). *)
Fixpoint buildPatch (fieldMeta : FieldMap)
  (structures : list (string * (Dialect * json))) (llmResult : json)
  (patch : option (list (string * json))) (missing : list string)
  : result (option (list (string * json))) :=
  match missing with
  | [] => Ok patch
  | f :: rest =>
      (v <- patchValue fieldMeta structures llmResult f ;;
       buildPatch fieldMeta structures llmResult
         (match patch with
          | Some p => setByPath p f v
          | None => None
          end) rest)%result
  end.

(** ** The hook *)

(** The request that [callJSONModel] posts. *)
Definition chatRequest (opts : ClientOpts) (sys user : string) : ChatRequest :=
  mkChatRequest
    (match orElse (baseURL opts) (Some "https://api.openai.com") with
     | Some b => b
     | None => "https://api.openai.com"
     end ++ "/v1/chat/completions")%string
    ("Bearer " ++ apiKey opts)%string
    (model opts) sys user
    (match temperature opts with Some t => t | None => (2 # 10)%Q end)
    (match maxTokens opts with Some n => n | None => 512%Z end).

Section Hook.
(** The outside: [JSON.stringify(v, null, 2)], [JSON.parse], the HTTP
    client and the record store. *)
Variable JSON_stringify : json -> string.
Variable JSON_parse : string -> result json.
Variable fetch : trace -> ChatRequest -> result Response.
Variable findByID : trace -> string -> option json -> result json.
Variable update : trace -> UpdateArgs -> result unit.

Definition doFetch (r : ChatRequest) : M Response :=
  fun h => (h ++ [EFetch r], fetch h r).

Definition doFindByID (coll : string) (id : option json) : M json :=
  fun h => (h ++ [EFindByID coll id], findByID h coll id).

Definition doUpdate (u : UpdateArgs) : M unit :=
  fun h => (h ++ [EUpdate u], update h u).

Definition callJSONModel (opts : ClientOpts) (sys user : string) : M json :=
  (res <- doFetch (chatRequest opts sys user) ;;
   if negb (ok res) then
     throw (Failure ("LLM error " ++ Z_to_string (status res) ++ ": "
                     ++ match text res with Ok t => t | Throw _ => EmptyString end)%string)
   else
     (body <- liftR (json_body res) ;;
      let content :=
        optProp (optProp (optProp (optProp (Some body) "choices") "0")
                         "message") "content" in
      if negb (truthy content) then throw (Failure "Empty LLM response")
      else liftR (JSON_parse (interpolate content))))%hook.

Definition buildPrompt (coll src target : string) (fields : list string)
  (sv : list (string * string)) (extraContext : option json)
  : string * string :=
  (systemPrompt fields "If a source key is empty, return an empty string for that key.",
   JSON_stringify (userObject coll src target sv extraContext)).

(** The body of the loop over [toFill]. *)
Definition fillLocale (client : ClientOpts) (config : LocalizeConfig)
  (args : HookArgs) (fieldMeta : FieldMap) (src : string) (srcs : Sources)
  (item : string * list string) : M unit :=
  let locale := fst item in
  let coll := slug (collection args) in
  let id := prop (doc args) "id" in
  let '(sys, user) :=
    buildPrompt coll src locale (snd item) (sourceValues srcs)
                (Some (extraContextOf coll (cfg_fields config))) in
  tryCatch
    (llmResult <- callJSONModel client sys user ;;
     patch <- liftR (buildPatch fieldMeta (sourceRichTextStructures srcs)
                                llmResult (Some []) (snd item)) ;;
     match patch with
     | Some [] => ret tt
     | _ =>
         if match dryRun config with Some b => b | None => false end then
           emit (EConsoleLog
                   ("[aiLocalize][dryRun] " ++ coll ++ "#" ++ interpolate id
                    ++ " -> " ++ locale)%string
                   (match patch with Some p => [JObj p] | None => [] end))
         else
           doUpdate
             (mkUpdateArgs coll id locale patch 0%Z true
                (spreadWith (context args) HEADER_GUARD (JStr "1"))
                (mkRequest
                   (Some (spreadWith (headers (req args)) HEADER_GUARD (JStr "1")))
                   (localization (req args)) (req_locale (req args))))
     end)%hook
    (fun err =>
       emit (EConsoleError
               ("[aiLocalize] " ++ coll ++ "#" ++ interpolate id ++ " "
                ++ src ++ "->" ++ locale ++ " failed")%string err)).

Definition aiLocalizeCollection (client : ClientOpts) (config : LocalizeConfig)
  (args : HookArgs) : M json :=
  let skipIfSlateTarget :=
    match cfg_skipIfSlateTarget config with Some b => b | None => true end in
  if strEq (headerOf (req args) HEADER_GUARD) "1" then ret (doc args)
  else
    match localization (req args) with
    | None => ret (doc args)
    | Some localesCfg =>
        let '(fieldsToLocalize, fieldMeta) :=
          detectLocalizedFieldsWithMeta (collection args) in
        match fieldsToLocalize with
        | [] => ret (doc args)
        | firstField :: _ =>
            let dflt := defaultLocale config localesCfg in
            let all := allLocales localesCfg in
            let requested := requestedTargets config all in
            if gateClosed (guardFlagField config) (doc args) then ret (doc args)
            else
              (docAllLocales <-
                 (if localizedView (getByPath (doc args) firstField)
                  then doFindByID (slug (collection args)) (prop (doc args) "id")
                  else ret (doc args)) ;;
               sc <- liftR (scores docAllLocales fieldsToLocalize all fieldMeta) ;;
               let src := actualSourceLocale config sc dflt in
               srcs <- liftR (sourcesFrom docAllLocales fieldMeta src
                                          (mkSources [] []) fieldsToLocalize) ;;
               if negb (hasSourceText (sourceValues srcs)) then ret (doc args)
               else
                 (todo <- liftR (toFill docAllLocales fieldMeta fieldsToLocalize
                                        (targets requested src)) ;;
                  match todo with
                  | [] => ret (doc args)
                  | _ :: _ =>
                      (forEach todo (fillLocale client config args fieldMeta src srcs) ;;;
                       ret (doc args))
                  end))%hook
        end
    end.
End Hook.

(** ** The plain-text hook ([src/hooks/aiLocalize.ts]) *)

Module Legacy.

Record LocalizeConfig : Type := mkLocalizeConfig {
  fields : list string;
  sourceLocale : option string;
  targetLocales : option (list string);
  guardFlagField : option string;
  dryRun : option bool
}.

(** [(v ?? '').toString()]. *)
Definition orEmptyString (v : option json) : string :=
  match v with
  | None | Some JNull => EmptyString
  | Some x => toString x
  end.

(** [localesCfg.defaultLocale] where it is used as a property key; an object
    there is the key "[object Object]". *)
Definition configuredDefault (localesCfg : Localization) : option string :=
  match loc_defaultLocale localesCfg with
  | Some (LocaleCode c) => Some c
  | Some (LocaleObject _) => Some "[object Object]"
  | None => None
  end.

(** A configured locale as a value: the code, or the object, which is kept
    by its code. *)
Definition localeJson (l : Locale) : json :=
  match l with
  | LocaleCode c => JStr c
  | LocaleObject c => JObj [("code", JStr c)]
  end.

(** [config.sourceLocale || localesCfg.defaultLocale || 'en']: a locale
    code, or the object that is configured as default locale, taken as it
    is. *)
Definition sourceLocaleOf (config : LocalizeConfig) (localesCfg : Localization)
  : json :=
  match orElse (sourceLocale config) None with
  | Some s => JStr s
  | None =>
      match loc_defaultLocale localesCfg with
      | Some l => if truthy (Some (localeJson l)) then localeJson l else JStr "en"
      | None => JStr "en"
      end
  end.

(** [l !== src] for a locale code [l]. *)
Definition otherThan (src : json) (l : string) : bool := negb (strEq (Some src) l).

(** The unused constant [targetLocales] of the hook. *)
Definition targetLocalesOf (config : LocalizeConfig) (all : list string)
  (src : json) : list string :=
  match targetLocales config with
  | Some (t :: ts) => t :: ts
  | _ => filter (otherThan src) all
  end.

(** The values of the fields in one locale of an all-locale document. *)
Definition valuesIn (doc : json) (locale : string) (fs : list string)
  : list (string * string) :=
  fold_left
    (fun acc f =>
       let v := optProp (Some doc) f in
       assign f (if isObject v then orEmptyString (optProp v locale)
                 else EmptyString) acc)
    fs [].

Definition plainValues (doc : json) (fs : list string) : list (string * string) :=
  fold_left (fun acc f => assign f (orEmptyString (optProp (Some doc) f)) acc)
            fs [].

(** [Object.assign(target, source)]. *)
Definition Object_assign {A} (target source : list (string * A))
  : list (string * A) :=
  fold_left (fun acc e => assign (fst e) (snd e) acc) (Object_entries source) target.

(** The search for the first locale with content; the result is the locale
    found, if any, and the source values. *)
Fixpoint firstLocaleWithContent (doc : json) (fs : list string)
  (sv : list (string * string)) (candidates : list string)
  : option string * list (string * string) :=
  match candidates with
  | [] => (None, sv)
  | locale :: rest =>
      let testValues := valuesIn doc locale fs in
      if hasSourceText testValues then (Some locale, Object_assign sv testValues)
      else firstLocaleWithContent doc fs sv rest
  end.

Definition fieldMissing (doc : json) (locale f : string) : bool :=
  let v := optProp (Some doc) f in
  let val := if isObject v
             then match optProp v locale with
                  | None | Some JNull => Some (JStr EmptyString)
                  | Some x => Some x
                  end
             else Some (JStr EmptyString) in
  negb (truthy val) || String.eqb (trim (interpolate val)) EmptyString.

Definition toFill (doc : json) (fs : list string) (localesNeedingTranslation : list string)
  : list (string * list string) :=
  flat_map (fun locale =>
              match filter (fieldMissing doc locale) fs with
              | [] => []
              | missing => [(locale, missing)]
              end) localesNeedingTranslation.

Fixpoint buildPatchFrom (llmResult : json) (patch : list (string * json))
  (missing : list string) : result (list (string * json)) :=
  match missing with
  | [] => Ok patch
  | f :: rest =>
      (text <- proposed llmResult f ;;
       buildPatchFrom llmResult (assign f (JStr text) patch) rest)%result
  end.

Definition buildPatch (llmResult : json) (missing : list string)
  : result (list (string * json)) :=
  buildPatchFrom llmResult [] missing.

Definition entriesJson {A} (f : A -> json) (kv : list (string * A)) : json :=
  JObj (map (fun e => (fst e, f (snd e))) kv).

Definition toFillJson (todo : list (string * list string)) : json :=
  JArr (map (fun item => JObj [("locale", JStr (fst item));
                               ("fieldsMissing", JArr (map JStr (snd item)))]) todo).

Section Hook.
Variable JSON_stringify : json -> string.
Variable JSON_parse : string -> result json.
Variable fetch : trace -> ChatRequest -> result Response.
Variable update : trace -> UpdateArgs -> result unit.

Definition buildPrompt (coll : string) (src : json) (target : string)
  (fs : list string) (sv : list (string * string)) (extraContext : option json)
  : string * string :=
  (systemPrompt fs
     "Do not invent data if the source is empty; return an empty string for that key.",
   JSON_stringify (userObjectFrom coll src target sv extraContext)).

(** [`[aiLocalize] ${collection.slug}#${doc.id}`], the start of the log
    lines: [doc.id] throws on a document that is [null], and so does the
    conversion of an id that has no string conversion. *)
Definition tag (args : HookArgs) : result string :=
  (id <- member (Some (doc args)) "id" ;;
   text <- match id with
           | Some v => toStringCall v
           | None => Ok "undefined"
           end ;;
   Ok ("[aiLocalize] " ++ slug (collection args) ++ "#" ++ text)%string)%result.

(** [console.log(`${tag}${rest}`, ...data)]. *)
Definition logTagged (args : HookArgs) (rest : string) (data : list json) : M unit :=
  (t <- liftR (tag args) ;; emit (EConsoleLog (t ++ rest) data))%hook.

(** The body of the loop over [toFill]. *)
Definition fillLocale (client : ClientOpts) (config : LocalizeConfig)
  (args : HookArgs) (src : json) (sv : list (string * string))
  (item : string * list string) : M unit :=
  let locale := fst item in
  let coll := slug (collection args) in
  let id := prop (doc args) "id" in
  let '(sys, user) :=
    buildPrompt coll src locale (snd item) sv
                (Some (extraContextOf coll (Some (fields config)))) in
  tryCatch
    (llmResult <- callJSONModel JSON_parse fetch client sys user ;;
     patch <- liftR (buildPatch llmResult (snd item)) ;;
     logTagged args (" " ++ toString src ++ "->" ++ locale ++ " patch:") [JObj patch] ;;;
     if match dryRun config with Some b => b | None => false end then
       emit (EConsoleLog
               ("[aiLocalize][dryRun] " ++ coll ++ "#" ++ interpolate id
                ++ " -> " ++ locale)%string [JObj patch])
     else
       doUpdate update
         (mkUpdateArgs coll id locale (Some patch) 0%Z true
            (spreadWith (context args) HEADER_GUARD (JStr "1"))
            (mkRequest
               (Some (spreadWith (headers (req args)) HEADER_GUARD (JStr "1")))
               (localization (req args)) (req_locale (req args)))))%hook
    (fun err =>
       (t <- liftR (tag args) ;;
        emit (EConsoleError
                (t ++ " " ++ toString src ++ "->" ++ locale ++ " failed")%string err))%hook).

Definition aiLocalizeCollection (client : ClientOpts) (config : LocalizeConfig)
  (args : HookArgs) : M json :=
  if strEq (headerOf (req args) HEADER_GUARD) "1" then ret (doc args)
  else
    match localization (req args) with
    | None => ret (doc args)
    | Some localesCfg =>
        let sourceLocale := sourceLocaleOf config localesCfg in
        let all := allLocales localesCfg in
        let targetLocales := targetLocalesOf config all sourceLocale in
        if gateClosed (guardFlagField config) (doc args) then ret (doc args)
        else
          let firstField :=
            match fields config with f :: _ => f | [] => "undefined" end in
          let isLocalizedView := isString (optProp (Some (doc args)) firstField) in
          (found <-
             (if isLocalizedView then
                let actual :=
                  match orElse (req_locale (req args)) None with
                  | Some s => JStr s
                  | None => sourceLocale
                  end in
                (logTagged args (" - detected locale context: " ++ toString actual) [] ;;;
                 ret (actual, plainValues (doc args) (fields config)))
              else
                let sv := valuesIn (doc args) (toString sourceLocale) (fields config) in
                if hasSourceText sv then ret (sourceLocale, sv)
                else
                  match firstLocaleWithContent (doc args) (fields config) sv all with
                  | (Some locale, sv') =>
                      (logTagged args (" - detected actual source locale: " ++ locale) [] ;;;
                       ret (JStr locale, sv'))
                  | (None, sv') => ret (sourceLocale, sv')
                  end) ;;
           let actualSourceLocale := fst found in
           let sourceValues := snd found in
           if negb (hasSourceText sourceValues) then
             (logTagged args " - no source text found in any locale" [] ;;;
              ret (doc args))
           else
             (logTagged args (" - sourceLocale: " ++ toString actualSourceLocale
                              ++ ", sourceValues:")
                        [entriesJson JStr sourceValues] ;;;
              let localesNeedingTranslation :=
                filter (otherThan actualSourceLocale) all in
              let todo := toFill (doc args) (fields config) localesNeedingTranslation in
              logTagged args " - toFill:" [toFillJson todo] ;;;
              match todo with
              | [] => ret (doc args)
              | _ :: _ =>
                  (forEach todo (fillLocale client config args actualSourceLocale
                                            sourceValues) ;;;
                   ret (doc args))
              end))%hook
    end.
End Hook.

End Legacy.

(** ** Notions used to state the properties *)

(** *** Text *)

Fixpoint whitespaceOnly (s : string) : bool :=
  match s with
  | EmptyString => true
  | String c r => is_ws c && whitespaceOnly r
  end.

Fixpoint dropWhile {A} (p : A -> bool) (l : list A) : list A :=
  match l with
  | [] => []
  | x :: r => if p x then dropWhile p r else l
  end.

(** Leading and trailing whitespace removed. *)
Definition strip (s : string) : string :=
  string_of_list_ascii
    (rev (dropWhile is_ws (rev (dropWhile is_ws (list_ascii_of_string s))))).

(** The maximal runs of equal code units of a string, with their lengths. *)
Fixpoint runs (s : string) : list (ascii * nat) :=
  match s with
  | EmptyString => []
  | String c r =>
      match runs r with
      | (c', k) :: t => if Ascii.eqb c c' then (c, S k) :: t
                        else (c, 1) :: (c', k) :: t
      | [] => [(c, 1)]
      end
  end.

Fixpoint replicate (k : nat) (c : ascii) (tail : string) : string :=
  match k with
  | O => tail
  | S j => String c (replicate j c tail)
  end.

Definition unruns (l : list (ascii * nat)) : string :=
  fold_right (fun r acc => replicate (snd r) (fst r) acc) EmptyString l.

(** Every run of three or more newlines becomes a run of exactly two. *)
Definition adjustRun (r : ascii * nat) : ascii * nat :=
  if is_nl (fst r) && (3 <=? snd r)%nat then (fst r, 2) else r.

Definition collapseRuns (s : string) : string :=
  unruns (map adjustRun (runs s)).

(** *** Structured documents *)

(** A node of a structured document: an object whose [children], when
    present, are an array of nodes. *)
Fixpoint wfNode (n : json) : bool :=
  match n with
  | JObj kv =>
      match lookup_with (fun c => match c with
                                  | JArr l => forallb wfNode l
                                  | _ => false
                                  end) "children" kv with
      | Some b => b
      | None => true
      end
  | _ => false
  end.

(** The array dialect (Slate) and the rooted dialect (Lexical). *)
Definition TreeOfNodes (D : json) : Prop :=
  looksLikeSlate (Some D) = true /\
  exists nodes, D = JArr nodes /\ forallb wfNode nodes = true.

Definition rootChildren (D : json) : option json :=
  optProp (optProp (Some D) "root") "children".

Definition RootedTree (D : json) : Prop :=
  looksLikeLexical (Some D) = true /\
  (rootChildren D = None \/
   exists nodes, rootChildren D = Some (JArr nodes) /\ forallb wfNode nodes = true).

(** Flattening of a list of Lexical nodes, depth first, nothing between
    siblings: a text leaf gives its text, a node with a children array the
    flattening of its children, a line break (without children) a newline. *)
Fixpoint flattenNode (n : json) : string :=
  match n with
  | JObj kv =>
      match strEq (lookup "type" kv) "text", lookup "text" kv with
      | true, Some (JStr t) => t
      | _, _ =>
          match childrenArray
                  (fun l => fold_right (fun x acc => (flattenNode x ++ acc)%string)
                                       EmptyString l) kv with
          | Some s => s
          | None => if strEq (lookup "type" kv) "linebreak"
                    then String nl EmptyString else EmptyString
          end
      end
  | _ => EmptyString
  end.

Definition flattenNodes (nodes : list json) : string :=
  fold_right (fun x acc => (flattenNode x ++ acc)%string) EmptyString nodes.

(** The shape of a node: its properties without [text], children included. *)
Fixpoint shapeOfNode (n : json) : json :=
  match n with
  | JObj kv =>
      JObj ((fix props (kv : list (string * json)) : list (string * json) :=
               match kv with
               | [] => []
               | (k, v) :: r =>
                   if String.eqb k "text" then props r
                   else if String.eqb k "children"
                        then (k, match v with
                                 | JArr l => JArr (map shapeOfNode l)
                                 | _ => v
                                 end) :: props r
                        else (k, v) :: props r
               end) kv)
  | _ => n
  end.

(** The shape of a document of either dialect: everything but the texts of
    the nodes below the top array, or below the root. *)
Definition shapeOf (D : json) : json :=
  match D with
  | JArr nodes => JArr (map shapeOfNode nodes)
  | JObj kv => JObj (update_first "root" (onChildren (map shapeOfNode)) kv)
  | _ => D
  end.

Section LeafTexts.
Variable isTextNode : list (string * json) -> bool.

(** The [text] of the text nodes, in document order. *)
Fixpoint leafTextsOf (n : json) : list (option json) :=
  match n with
  | JObj kv =>
      (if isTextNode kv then [lookup "text" kv] else [])
      ++ match childrenArray (flat_map leafTextsOf) kv with
         | Some ts => ts
         | None => []
         end
  | _ => []
  end.

Definition leafTexts (nodes : list json) : list (option json) :=
  flat_map leafTextsOf nodes.
End LeafTexts.

(** The texts after reinjection: all of [s] first, then empty strings. *)
Definition concentrated (s : string) (before : list (option json))
  : list (option json) :=
  match before with
  | [] => []
  | _ :: others => Some (JStr s) :: map (fun _ => Some (JStr EmptyString)) others
  end.

(** ** Sample data *)

Definition slateText (s : string) : json := JObj [("text", JStr s)].

Definition lexicalText (s : string) : json :=
  JObj [("type", JStr "text"); ("text", JStr s)].

Definition paragraph (children : list json) : json :=
  JObj [("type", JStr "paragraph"); ("children", JArr children)].

Definition sampleNodes : list json :=
  [ paragraph [lexicalText "Hello"; JObj [("type", JStr "linebreak")];
               lexicalText "world"];
    paragraph [lexicalText " again "] ].

Definition sampleLexical : json :=
  JObj [("root", JObj [("type", JStr "root"); ("children", JArr sampleNodes)])].

Definition sampleSlate : json :=
  JArr [ paragraph [slateText "Hello ";
                    JObj [("text", JStr "world"); ("bold", JBool true)]];
         paragraph [slateText "bye"] ].

(** *** Text nodes by path *)

Section TextPaths.
Variable isTextNode : list (string * json) -> bool.

(** The references that [findTextNodes] collects below a well-formed
    node. *)
Fixpoint pathsOfNode (n : json) : list path :=
  match n with
  | JObj kv =>
      (if isTextNode kv then [[]] else [])
      ++ match childrenArray
                 (fun l =>
                    (fix from (i : nat) (l : list json) {struct l} : list path :=
                       match l with
                       | [] => []
                       | x :: r => map (cons i) (pathsOfNode x) ++ from (S i) r
                       end) 0 l) kv with
         | Some ps => ps
         | None => []
         end
  | _ => []
  end.

Fixpoint pathsFrom (i : nat) (l : list json) : list path :=
  match l with
  | [] => []
  | x :: r => map (cons i) (pathsOfNode x) ++ pathsFrom (S i) r
  end.

(** One pass over the nodes that gives the text node at path [p] the text
    [g p]. *)
Fixpoint relabelNode (g : path -> string) (n : json) : json :=
  match n with
  | JObj kv =>
      let n' :=
        JObj (update_first "children"
                (fun c =>
                   match c with
                   | JArr l =>
                       JArr ((fix from (g : path -> string) (i : nat)
                                  (l : list json) {struct l} : list json :=
                                match l with
                                | [] => []
                                | x :: r =>
                                    relabelNode (fun q => g (i :: q)) x
                                    :: from g (S i) r
                                end) g 0 l)
                   | _ => c
                   end) kv) in
      if isTextNode kv then setText (g []) n' else n'
  | _ => n
  end.

Fixpoint relabelFrom (g : path -> string) (i : nat) (l : list json) : list json :=
  match l with
  | [] => []
  | x :: r => relabelNode (fun q => g (i :: q)) x :: relabelFrom g (S i) r
  end.
End TextPaths.

(** The properties of a node that make its shape. *)
Fixpoint shapeProps (kv : list (string * json)) : list (string * json) :=
  match kv with
  | [] => []
  | (k, v) :: r =>
      if String.eqb k "text" then shapeProps r
      else if String.eqb k "children"
           then (k, match v with
                    | JArr l => JArr (map shapeOfNode l)
                    | _ => v
                    end) :: shapeProps r
           else (k, v) :: shapeProps r
  end.

Fixpoint path_eqb (p q : path) : bool :=
  match p, q with
  | [], [] => true
  | i :: p', j :: q' => Nat.eqb i j && path_eqb p' q'
  | _, _ => false
  end.

(** The text that [replaceText] leaves at each reference. *)
Definition textFor (t : string) (first : path) (p : path) : string :=
  if path_eqb p first then t else EmptyString.

(** The assignments of [replaceText], one reference after the other. *)
Definition stepNode (t : string) (q : path) (n : json) : json :=
  match q with
  | [] => setText t n
  | _ :: _ => onChildren (setTextAt t q) n
  end.

Definition assignTexts (g : path -> string) (ps : list path) (nodes : list json)
  : list json :=
  fold_left (fun acc p => setTextAt (g p) p acc) ps nodes.

Definition assignBelow (g : path -> string) (qs : list path) (n : json) : json :=
  fold_left (fun acc q => stepNode (g q) q acc) qs n.

(** The nodes of a document: the items of the array, or the children of the
    root. *)
Definition nodesOf (D : json) : list json :=
  match D with
  | JArr nodes => nodes
  | _ => match rootChildren D with
         | Some (JArr nodes) => nodes
         | _ => []
         end
  end.

(** The shape of the value of [children]. *)
Definition shapeOfChildren (v : json) : json :=
  match v with
  | JArr l => JArr (map shapeOfNode l)
  | _ => v
  end.

(** The assignments through the references collected below [n] amount to
    the single pass. *)
Definition relabelled (isTextNode : list (string * json) -> bool) (n : json) : Prop :=
  forall g, assignBelow g (pathsOfNode isTextNode n) n = relabelNode isTextNode g n.

(** The single pass leaves [g p] in the text node at [p]. *)
Definition labelled (isTextNode : list (string * json) -> bool) (n : json) : Prop :=
  forall g, leafTextsOf isTextNode (relabelNode isTextNode g n)
            = map (fun p => Some (JStr (g p))) (pathsOfNode isTextNode n).

(** A record with a title in English and an empty array as its German
    title. *)
Definition titleMeta : FieldMap := [("title", KText)].

Definition docEmptyArrayTitle : json :=
  JObj [("id", JNum 7);
        ("title", JObj [("en", JStr "Hello"); ("de", JArr [])])].

(** *** Traces *)

Definition isFetch (e : event) : bool :=
  match e with EFetch _ => true | _ => false end.

Definition isUpdate (e : event) : bool :=
  match e with EUpdate _ => true | _ => false end.

Definition isFindByID (e : event) : bool :=
  match e with EFindByID _ _ => true | _ => false end.

(** The calls to the language model and the writes recorded in a trace. *)
Definition llmCalls (t : trace) : list event := filter isFetch t.
Definition writes (t : trace) : list event := filter isUpdate t.
Definition reads (t : trace) : list event := filter isFindByID t.

(** A request that carries the guard marker, and one without headers. *)
Definition sampleLocalization : Localization :=
  mkLocalization [LocaleCode "en"; LocaleObject "de"; LocaleCode "fr"]
                 (Some (LocaleCode "en")).

Definition guardedRequest : Request :=
  mkRequest (Some [("content-type", JStr "application/json");
                   ("x-ai-localize", JStr "1")])
            (Some sampleLocalization) None.

Definition plainRequest : Request := mkRequest None (Some sampleLocalization) None.

Definition sampleCollection : Collection :=
  mkCollection "articles" None
    (Some [mkField (Some "title") true "text" [] [];
           mkField (Some "body") true "richText" [] []]).

Definition sampleClient : ClientOpts :=
  mkClientOpts (Some "https://api.deepseek.com") "key" "deepseek-chat" None
               (Some 300%Z) None.

Definition defaultConfig : LocalizeConfig :=
  mkLocalizeConfig None None None None None None.

Definition legacyConfig : Legacy.LocalizeConfig :=
  Legacy.mkLocalizeConfig ["title"] (Some "en") None None None.

(** The request posted for one item of [toFill]. *)
Definition requestFor (JSON_stringify : json -> string) (client : ClientOpts)
  (config : LocalizeConfig) (args : HookArgs) (src : string) (srcs : Sources)
  (item : string * list string) : ChatRequest :=
  let p := buildPrompt JSON_stringify (slug (collection args)) src (fst item)
             (snd item) (sourceValues srcs)
             (Some (extraContextOf (slug (collection args)) (cfg_fields config))) in
  chatRequest client (fst p) (snd p).

Definition legacyRequestFor (JSON_stringify : json -> string) (client : ClientOpts)
  (config : Legacy.LocalizeConfig) (args : HookArgs) (src : json)
  (sv : list (string * string)) (item : string * list string) : ChatRequest :=
  let p := Legacy.buildPrompt JSON_stringify (slug (collection args)) src (fst item)
             (snd item) sv
             (Some (extraContextOf (slug (collection args))
                                   (Some (Legacy.fields config)))) in
  chatRequest client (fst p) (snd p).

(** The events of one turn of the loop after its request: none of them is a
    request, and a write among them is for the locale of the turn. *)
Definition turnEvents (locale : string) (evs : list event) : Prop :=
  llmCalls evs = []
  /\ reads evs = []
  /\ forall u, In (EUpdate u) evs -> u_locale u = locale.

(** *** The analysis before the loop *)

Record Plan : Type := mkPlan {
  plan_source : string;
  plan_sources : Sources;
  plan_todo : list (string * list string)
}.

(** The steps of the hook between the read and the loop, on the all-locale
    document [stored]: [None] when the hook returns because there is no
    source text or nothing to fill. *)
Definition analyse (config : LocalizeConfig) (localesCfg : Localization)
  (fieldsToLocalize : list string) (fieldMeta : FieldMap) (stored : json)
  : result (option Plan) :=
  (sc <- scores stored fieldsToLocalize (allLocales localesCfg) fieldMeta ;;
   let src := actualSourceLocale config sc (defaultLocale config localesCfg) in
   srcs <- sourcesFrom stored fieldMeta src (mkSources [] []) fieldsToLocalize ;;
   if negb (hasSourceText (sourceValues srcs)) then Ok None
   else
     (todo <- toFill stored fieldMeta fieldsToLocalize
                (targets (requestedTargets config (allLocales localesCfg)) src) ;;
      match todo with
      | [] => Ok None
      | _ :: _ => Ok (Some (mkPlan src srcs todo))
      end))%result.

(** The all-locale read of the hook, when the document it is given is
    locale-scoped. *)
Definition readStored (findByID : trace -> string -> option json -> result json)
  (args : HookArgs) (firstField : string) : M json :=
  if localizedView (getByPath (doc args) firstField)
  then doFindByID findByID (slug (collection args)) (prop (doc args) "id")
  else ret (doc args).

(** The hook gets past its early returns. *)
Definition hookRuns (config : LocalizeConfig) (args : HookArgs)
  (localesCfg : Localization) (firstField : string) (others : list string)
  (fieldMeta : FieldMap) : Prop :=
  strEq (headerOf (req args) HEADER_GUARD) "1" = false
  /\ localization (req args) = Some localesCfg
  /\ detectLocalizedFieldsWithMeta (collection args) = (firstField :: others, fieldMeta)
  /\ gateClosed (guardFlagField config) (doc args) = false.

(** A record whose three locales are filled, and oracles for the outside. *)
Definition docFilled : json :=
  JObj [("id", JNum 1);
        ("title", JObj [("en", JStr "Hello"); ("de", JStr "Hallo"); ("fr", JStr "Salut")]);
        ("body", JObj [("en", sampleSlate);
                       ("de", JArr [paragraph [slateText "Hallo Welt"]]);
                       ("fr", JArr [paragraph [slateText "Salut"]])])].

Definition noStringify (v : json) : string := EmptyString.
Definition noParse (s : string) : result json := Throw (Failure "no parser").
Definition fetchOffline (h : trace) (r : ChatRequest) : result Response :=
  Throw (Failure "offline").
Definition findNothing (h : trace) (coll : string) (id : option json) : result json :=
  Throw (Failure "not found").
Definition updateOk (h : trace) (u : UpdateArgs) : result unit := Ok tt.

(** The locale and the top-level keys of every write of a trace. *)
Definition writtenKeys (t : trace) : list (string * option (list string)) :=
  flat_map (fun e => match e with
                     | EUpdate u => [(u_locale u, option_map (map fst) (u_data u))]
                     | _ => []
                     end) t.

(** A model that answers every request with the same two translations. *)
Definition fetchAnswer (h : trace) (r : ChatRequest) : result Response :=
  Ok (mkResponse true 200%Z (Ok EmptyString)
        (Ok (JObj [("choices",
                    JArr [JObj [("message",
                                 JObj [("content", JStr "answer")])]])]))).

Definition parseAnswer (s : string) : result json :=
  Ok (JObj [("title", JStr "Titel"); ("body", JStr "Text")]).

(** A record whose German body is an empty Slate document. *)
Definition docSlateTarget : json :=
  JObj [("id", JNum 2);
        ("title", JObj [("en", JStr "Hello"); ("de", JStr "Hallo"); ("fr", JStr "Salut")]);
        ("body", JObj [("en", sampleSlate);
                       ("de", JArr [paragraph [slateText EmptyString]]);
                       ("fr", JArr [paragraph [slateText "Salut"]])])].

(** A record with an English title only, and a plain-text configuration
    that asks for German alone. *)
Definition docEnglishTitle : json :=
  JObj [("id", JNum 3);
        ("title", JObj [("en", JStr "Hello"); ("de", JStr EmptyString);
                        ("fr", JStr EmptyString)])].

Definition legacyGermanOnly : Legacy.LocalizeConfig :=
  Legacy.mkLocalizeConfig ["title"] (Some "en") (Some ["de"]) None None.

Definition germanOnly : LocalizeConfig :=
  mkLocalizeConfig None (Some "en") (Some ["de"]) None None None.

Definition titleCollection : Collection :=
  mkCollection "articles" None (Some [mkField (Some "title") true "text" [] []]).

(** *** Scores *)

(** The content score of a locale, as a number (0 where scoring throws). *)
Definition scoreOf (stored : json) (fields : list string) (meta : FieldMap)
  (locale : string) : nat :=
  match contentScore stored fields locale meta with
  | Ok n => n
  | Throw _ => 0
  end.

(** A locale code that is neither empty nor an array index. *)
Definition plainCode (l : string) : bool :=
  negb (String.eqb l EmptyString)
  && match array_index l with Some _ => false | None => true end.

(** [b] has the highest score of [l], and is the first to have it. *)
Definition firstBest {A} (g : A -> nat) (l : list A) (b : A) : Prop :=
  exists pre post,
    l = pre ++ b :: post
    /\ (forall x, In x pre -> g x < g b)
    /\ (forall x, In x post -> g x <= g b).

(** The first occurrences of the elements of a list, in order. *)
Fixpoint firstOccurrences (l : list string) : list string :=
  match l with
  | [] => []
  | x :: r => x :: filter (fun y => negb (String.eqb y x)) (firstOccurrences r)
  end.

(** The entry that a stable descending sort puts first. *)
Fixpoint firstMax (l : list (string * nat)) : option (string * nat) :=
  match l with
  | [] => None
  | x :: r =>
      match firstMax r with
      | Some y => if (snd y <=? snd x)%nat then Some x else Some y
      | None => Some x
      end
  end.

(** A configuration with an explicit source locale that has no content, a
    framework default, and an empty record. *)
Definition explicitGerman : LocalizeConfig :=
  mkLocalizeConfig None (Some "de") None None None None.

Definition frenchDefault : Localization :=
  mkLocalization [LocaleCode "en"; LocaleCode "de"; LocaleCode "fr"]
                 (Some (LocaleCode "fr")).

Definition docEmpty : json :=
  JObj [("id", JNum 4);
        ("title", JObj [("en", JStr EmptyString); ("de", JStr EmptyString)])].

Definition memStr (x : string) (l : list string) : bool := existsb (String.eqb x) l.

(** *** Patches *)

(** The value [v] sits in [node] at the end of the path [parts], below
    objects only. *)
Fixpoint reach (node : list (string * json)) (parts : list string) (v : json)
  : Prop :=
  match parts with
  | [] => False
  | k :: rest =>
      match rest with
      | [] => lookup k node = Some v
      | _ :: _ => exists child, lookup k node = Some (JObj child) /\ reach child rest v
      end
  end.

Definition isPrefix (p q : list string) : Prop := exists r, q = p ++ r.

(** No requested path runs through another requested path. *)
Definition prefixFree (paths : list string) : Prop :=
  forall f g, In f paths -> In g paths ->
              isPrefix (split_dot f) (split_dot g) -> f = g.

Definition firstSegment (f : string) : string := hd "undefined" (split_dot f).

(** A record whose English body is a Lexical document with [null] among its
    nodes. *)
Definition docBrokenBody : json :=
  JObj [("id", JNum 6);
        ("title", JObj [("en", JStr "Hello")]);
        ("body", JObj [("en", JObj [("root", JObj [("type", JStr "root");
                                                    ("children", JArr [JNull])])])])].

(** *** Two invocations in a row

    A record store for one record: the record found is the initial one with
    the writes of the trace applied, a write setting the value of each
    top-level field of its data in the locale of the write. *)
Definition storeWrite (record : json) (u : UpdateArgs) : json :=
  match record, u_data u with
  | JObj kv, Some data =>
      JObj (fold_left
              (fun acc e =>
                 assign (fst e)
                        (JObj (assign (u_locale u) (snd e)
                                      (match lookup (fst e) acc with
                                       | Some (JObj byLocale) => byLocale
                                       | _ => []
                                       end))) acc)
              data kv)
  | _, _ => record
  end.

Definition storeAfter (record : json) (h : trace) : json :=
  fold_left (fun r e => match e with
                        | EUpdate u => storeWrite r u
                        | _ => r
                        end) h record.

Definition findInStore (record : json) (h : trace) (coll : string) (id : option json)
  : result json := Ok (storeAfter record h).

(** A collection with a title and a subtitle, two locales, and a record with
    an English title and a German subtitle, seen through its English
    locale. *)
Definition subtitledCollection : Collection :=
  mkCollection "pages" None
    (Some [mkField (Some "title") true "text" [] [];
           mkField (Some "subtitle") true "text" [] []]).

Definition twoLocales : Localization :=
  mkLocalization [LocaleCode "en"; LocaleCode "de"] (Some (LocaleCode "en")).

Definition recordHalfAndHalf : json :=
  JObj [("id", JNum 8);
        ("title", JObj [("en", JStr "Hello")]);
        ("subtitle", JObj [("de", JStr "Untertitel")])].

Definition pageArgs : HookArgs :=
  mkHookArgs (mkRequest None (Some twoLocales) (Some "en"))
             (JObj [("id", JNum 8); ("title", JStr "Hello")])
             subtitledCollection None.

Definition parseBoth (s : string) : result json :=
  Ok (JObj [("title", JStr "Titel"); ("subtitle", JStr "Subtitle")]).

(** The hook run twice in a row on that record, the source locale left to
    the hook, and then with English as the configured source locale. *)
Definition firstRun (config : LocalizeConfig) : trace * result json :=
  aiLocalizeCollection noStringify parseBoth fetchAnswer
    (findInStore recordHalfAndHalf) updateOk sampleClient config pageArgs [].

Definition secondRun (config : LocalizeConfig) : trace * result json :=
  aiLocalizeCollection noStringify parseBoth fetchAnswer
    (findInStore recordHalfAndHalf) updateOk sampleClient config pageArgs
    (fst (firstRun config)).

Definition englishSource : LocalizeConfig :=
  mkLocalizeConfig None (Some "en") None None None None.

(** An answer of the model with a number where a string is expected. *)
Definition numberAnswer : json := JObj [("title", JNum 5); ("extra", JStr "x")].

(** Three target locales, and a model that fails for the second one: the
    stand-in serialiser prints the target locale of the prompt. *)
Definition fourLocales : Localization :=
  mkLocalization [LocaleCode "en"; LocaleCode "fr"; LocaleCode "de"; LocaleCode "it"]
                 (Some (LocaleCode "en")).

Definition fourLocaleRequest : Request := mkRequest None (Some fourLocales) None.

Definition stringifyTarget (v : json) : string := interpolate (optProp (Some v) "to").

Definition fetchExceptGerman (h : trace) (r : ChatRequest) : result Response :=
  if String.eqb (body_user r) "de" then Throw (Failure "timeout")
  else fetchAnswer h r.

Definition docEnglishOnly : json :=
  JObj [("id", JNum 5); ("title", JObj [("en", JStr "Hello")])].

(** What a trace shows of each turn: the locale written, or the failure
    reported. *)
Definition turnReports (t : trace) : list (string * bool) :=
  flat_map (fun e => match e with
                     | EUpdate u => [(u_locale u, true)]
                     | EConsoleError message _ => [(message, false)]
                     | _ => []
                     end) t.

(** *** Normal form of flattened text *)

(** No three newlines in a row. *)
Fixpoint tripleFree (s : string) : bool :=
  match s with
  | EmptyString => true
  | String c r => negb (is_nl c && (2 <=? count_nl r)%nat) && tripleFree r
  end.

(** The string without its leading newlines. *)
Fixpoint dropNl (s : string) : string :=
  match s with
  | EmptyString => EmptyString
  | String c r => if is_nl c then dropNl r else s
  end.

(** [x] between [a] and [b] newlines. *)
Definition pad (a : nat) (x : string) (b : nat) : string :=
  replicate a nl (x ++ replicate b nl EmptyString).

(** [z] is [x] with newlines before and after. *)
Definition padded (x z : string) : Prop := exists a b, z = pad a x b.

(** Flattening followed by nothing else: the text as the model is given it. *)
Definition normalise (s : string) : string := trim (collapseNewlines s).

(** The text of the first of the references [ps] under the labelling [g]. *)
Definition textOf (g : path -> string) (ps : list path) : string :=
  match ps with
  | [] => EmptyString
  | p :: _ => g p
  end.

(** Every reference after the first is labelled with the empty string. *)
Definition restEmpty (g : path -> string) (ps : list path) : Prop :=
  forall p, In p (tl ps) -> g p = EmptyString.
(** The nodes after [replaceText] through the references collected in
    them. *)
Definition reinjected (isTextNode : list (string * json) -> bool) (t : string)
  (nodes : list json) : list json :=
  replaceText t (pathsFrom isTextNode 0 nodes) nodes.

(** *** Schemas *)

(** Structural induction that reaches the sub-fields and the fields of the
    blocks. *)
Section FieldInd.
Variable P : Field -> Prop.
Hypothesis Hfield :
  forall name localized type fields blocks,
    Forall P fields -> Forall (fun b => Forall P (snd b)) blocks ->
    P (mkField name localized type fields blocks).

Fixpoint Field_induction (f : Field) : P f :=
  match f with
  | mkField name localized type fields blocks =>
      Hfield name localized type
        ((fix all (l : list Field) : Forall P l :=
            match l with
            | [] => Forall_nil P
            | x :: r => Forall_cons x (Field_induction x) (all r)
            end) fields)
        ((fix allb (bs : list (string * list Field))
            : Forall (fun b => Forall P (snd b)) bs :=
            match bs with
            | [] => Forall_nil _
            | b :: r =>
                Forall_cons b
                  ((fix all (l : list Field) : Forall P l :=
                      match l with
                      | [] => Forall_nil P
                      | x :: r => Forall_cons x (Field_induction x) (all r)
                      end) (snd b))
                  (allb r)
            end) blocks)
  end.
End FieldInd.

(** The path of a named field below [prefix]. *)
Definition pathBelow (prefix : string) (name : option string) : string :=
  if String.eqb prefix EmptyString then nameOr name
  else (prefix ++ "." ++ nameOr name)%string.

(** The localized content fields that a field declares, in document order:
    the field itself when it is named, localized and of a text kind, then
    those of its sub-fields, then those of the fields of its blocks; a
    field without a name adds nothing to the path. *)
Fixpoint declared (prefix : string) (f : Field) : list (string * FieldKind) :=
  match f with
  | mkField name localized type fields blocks =>
      let path := if hasName name then pathBelow prefix name else prefix in
      match hasName name && localized, kind_of_type type with
      | true, Some k => [(path, k)]
      | _, _ => []
      end
      ++ flat_map (declared path) fields
      ++ flat_map (fun b =>
                     flat_map (declared (if hasName name
                                         then (path ++ "." ++ fst b)%string
                                         else prefix)) (snd b)) blocks
  end.

(** [Map.prototype.set], entry after entry. *)
Definition setAll (entries : list (string * FieldKind)) (meta : FieldMap) : FieldMap :=
  fold_left (fun m e => assign (fst e) (snd e) m) entries meta.

(** The fields of a collection as the walker is given them. *)
Definition fieldsOf (collection : Collection) : list Field :=
  match config_fields collection with
  | Some fs => fs
  | None => match own_fields collection with
            | Some fs => fs
            | None => []
            end
  end.

(** The collections of the repository. *)
Definition Articles : Collection :=
  mkCollection "articles" None
    (Some [ mkField (Some "title") true "text" [] [];
            mkField (Some "slug") false "text" [] [];
            mkField (Some "heroImage") false "upload" [] [];
            mkField (Some "publishDate") false "date" [] [];
            mkField (Some "author") false "text" [] [];
            mkField (Some "reviewStatus") false "text" [] [] ]).

Definition PushNotifications : Collection :=
  mkCollection "push-notifications" None
    (Some [ mkField (Some "name") true "text" [] [] ]).

(** A schema with a group, an unnamed row and blocks. *)
Definition nestedCollection : Collection :=
  mkCollection "pages" None
    (Some [ mkField (Some "seo") false "group"
              [ mkField (Some "title") true "text" [] [];
                mkField None false "row"
                  [ mkField (Some "summary") true "textarea" [] [] ] [] ] [];
            mkField (Some "layout") false "blocks" []
              [ ("hero", [ mkField (Some "body") true "richText" [] [] ]) ] ]).

(** *** Work lists *)

(** The field [f] is found empty in the target [locale]. *)
Definition emptyAt (stored : json) (meta : FieldMap) (locale f : string) : bool :=
  match fieldEmpty (lookup f meta) (targetValue stored f locale) with
  | Ok true => true
  | _ => false
  end.

(** The field [f] counts for the score of [locale]. *)
Definition countedAt (stored : json) (locale f : string) : bool :=
  match fieldHasContent (localeValue (getByPath stored f) locale (getByPath stored f)) with
  | Ok true => true
  | _ => false
  end.

(** A record with an English title and body, a German title, and nothing in
    French. *)
Definition docHalfFilled : json :=
  JObj [("id", JNum 6);
        ("title", JObj [("en", JStr "Hello"); ("de", JStr "Hallo")]);
        ("body", JObj [("en", sampleSlate)])].

Definition titleBodyMeta : FieldMap := [("title", KText); ("body", KRichText)].

(** *** Writes *)

(** [config.dryRun], as the hooks test it. *)
Definition dryMode (dryRun : option bool) : bool :=
  match dryRun with Some b => b | None => false end.

(** The write of the hooks for one target locale: the record of the
    document, depth 0, access control overridden, the marker in the context
    and in the headers of the request that is passed on. *)
Definition guardedUpdate (args : HookArgs) (locale : string)
  (data : option (list (string * json))) : UpdateArgs :=
  mkUpdateArgs (slug (collection args)) (prop (doc args) "id") locale data 0%Z true
    (spreadWith (context args) HEADER_GUARD (JStr "1"))
    (mkRequest (Some (spreadWith (headers (req args)) HEADER_GUARD (JStr "1")))
               (localization (req args)) (req_locale (req args))).

(** What one turn of the translation loop may leave in the trace. *)
Definition turnEvent (dry : bool) (args : HookArgs) (e : event) : Prop :=
  match e with
  | EFindByID _ _ => False
  | EUpdate u => dry = false /\ exists locale data, u = guardedUpdate args locale data
  | _ => True
  end.

(** The read of the stored record. *)
Definition readEvent (args : HookArgs) : event :=
  EFindByID (slug (collection args)) (prop (doc args) "id").
(** Configurations that only log the patches. *)
Definition dryConfig : LocalizeConfig :=
  mkLocalizeConfig None None None None (Some true) None.

Definition legacyDryConfig : Legacy.LocalizeConfig :=
  Legacy.mkLocalizeConfig ["title"] (Some "en") None None (Some true).

(** A locale-scoped record (its title is a plain string), and a store that
    holds its all-locale form. *)
Definition docLocaleScoped : json :=
  JObj [("id", JNum 3); ("title", JStr "Hello")].

Definition findEnglishTitle (h : trace) (coll : string) (id : option json)
  : result json := Ok docEnglishTitle.

(** A record whose guard flag is [false]. *)
Definition docSwitchedOff : json :=
  JObj [("id", JNum 8); ("autoLocalize", JBool false);
        ("title", JObj [("en", JStr "Hello")])].

Definition flagConfig : LocalizeConfig :=
  mkLocalizeConfig None None None (Some "autoLocalize") None None.

(** The hook as the Articles collection installs it, and an article. *)
Definition articlesClient : ClientOpts :=
  mkClientOpts (Some "https://api.deepseek.com") "key" "deepseek-chat"
               (Some (2 # 10)%Q) (Some 300%Z) None.

Definition articlesHookConfig : Legacy.LocalizeConfig :=
  Legacy.mkLocalizeConfig ["label"; "description"] (Some "en") None
                          (Some "autoLocalize") None.

Definition sampleArticle : json :=
  JObj [("id", JNum 9);
        ("title", JObj [("en", JStr "Hello")]);
        ("slug", JStr "hello");
        ("author", JStr "Ada")].

(** The source locale of the plain-text hook for a locale-scoped
    document. *)
Definition localeContext (config : Legacy.LocalizeConfig) (r : Request)
  (localesCfg : Localization) : json :=
  match orElse (req_locale r) None with
  | Some s => JStr s
  | None => Legacy.sourceLocaleOf config localesCfg
  end.

(** What the plain-text hook settles on before it looks for missing fields:
    the log line of the detection, if there is one, the source locale and
    the source values. *)
Definition legacyDetected (config : Legacy.LocalizeConfig) (args : HookArgs)
  (localesCfg : Localization) : option string * (json * list (string * string)) :=
  let firstField :=
    match Legacy.fields config with f :: _ => f | [] => "undefined" end in
  if isString (optProp (Some (doc args)) firstField) then
    (Some (" - detected locale context: "
           ++ toString (localeContext config (req args) localesCfg))%string,
     (localeContext config (req args) localesCfg,
      Legacy.plainValues (doc args) (Legacy.fields config)))
  else
    let src := Legacy.sourceLocaleOf config localesCfg in
    let sv := Legacy.valuesIn (doc args) (toString src) (Legacy.fields config) in
    if hasSourceText sv then (None, (src, sv))
    else
      match Legacy.firstLocaleWithContent (doc args) (Legacy.fields config) sv
                                          (allLocales localesCfg) with
      | (Some locale, sv') =>
          (Some (" - detected actual source locale: " ++ locale)%string,
           (JStr locale, sv'))
      | (None, sv') => (None, (src, sv'))
      end.

Definition legacySource (config : Legacy.LocalizeConfig) (args : HookArgs)
  (localesCfg : Localization) : json :=
  fst (snd (legacyDetected config args localesCfg)).

Definition legacySourceValues (config : Legacy.LocalizeConfig) (args : HookArgs)
  (localesCfg : Localization) : list (string * string) :=
  snd (snd (legacyDetected config args localesCfg)).

(** The work list of the plain-text hook. *)
Definition legacyTodo (config : Legacy.LocalizeConfig) (args : HookArgs)
  (localesCfg : Localization) : list (string * list string) :=
  Legacy.toFill (doc args) (Legacy.fields config)
    (filter (Legacy.otherThan (legacySource config args localesCfg))
            (allLocales localesCfg)).

(** The log lines of the plain-text hook before its loop, [t] being the
    start of the lines. *)
Definition legacyLogs (t : string) (config : Legacy.LocalizeConfig) (args : HookArgs)
  (localesCfg : Localization) : list event :=
  match fst (legacyDetected config args localesCfg) with
  | Some line => [EConsoleLog (t ++ line) []]
  | None => []
  end
  ++ if hasSourceText (legacySourceValues config args localesCfg) then
       [ EConsoleLog (t ++ " - sourceLocale: "
                      ++ toString (legacySource config args localesCfg)
                      ++ ", sourceValues:")
                     [Legacy.entriesJson JStr (legacySourceValues config args localesCfg)];
         EConsoleLog (t ++ " - toFill:")
                     [Legacy.toFillJson (legacyTodo config args localesCfg)] ]
     else [EConsoleLog (t ++ " - no source text found in any locale") []].

(** The values that the plain-text hook converts to strings have a string
    conversion: the value of each configured field, and what it holds under
    any key. *)
Definition legacyConvertible (config : Legacy.LocalizeConfig) (d : json) : Prop :=
  forall f, In f (Legacy.fields config) ->
            defaultString (optProp (Some d) f) = true
            /\ forall key, defaultString (optProp (optProp (Some d) f) key) = true.

(** The plain-text hook gets past its early returns. *)
Definition legacyRuns (config : Legacy.LocalizeConfig) (args : HookArgs)
  (localesCfg : Localization) : Prop :=
  strEq (headerOf (req args) HEADER_GUARD) "1" = false
  /\ localization (req args) = Some localesCfg
  /\ gateClosed (Legacy.guardFlagField config) (doc args) = false.

(** A locale-scoped record of the German locale, with a title. *)
Definition germanRequest : Request :=
  mkRequest None (Some sampleLocalization) (Some "de").

Definition docGermanScoped : json :=
  JObj [("id", JNum 10); ("title", JStr "Hallo")].

(** ** The Articles collection: slugs ([collections/Articles.ts])

    The steps of [slugify] work on the code units of the string.  The
    string comes with code units below 256; the decomposition may leave
    larger ones (combining marks, U+2044, U+03BC), all of which are gone
    once the runs of other characters have become dashes. *)

Definition codeUnits (s : string) : list N :=
  map N_of_ascii (list_ascii_of_string s).

Definition fromCodeUnits (l : list N) : string :=
  string_of_list_ascii (map ascii_of_N l).

Definition between (lo c hi : N) : bool := ((lo <=? c) && (c <=? hi))%N.

(** [toLowerCase] on a code unit below 256: A-Z, and the capital letters of
    Latin-1 (U+00C0-U+00DE but the multiplication sign). *)
Definition lowerUnit (c : N) : N :=
  if between 65 c 90 || (between 192 c 222 && negb (c =? 215)%N)
  then (c + 32)%N else c.

(** The compatibility decomposition (NFKD) of a code unit below 256; no
    character below U+00A0 has one. *)
Definition decomposeNFKD (c : N) : list N :=
  if (c <? 160)%N then [c]
  else
    match c with
    | 160 => [32] | 168 => [32; 776] | 170 => [97] | 175 => [32; 772]
    | 178 => [50] | 179 => [51] | 180 => [32; 769] | 181 => [956]
    | 184 => [32; 807] | 185 => [49] | 186 => [111]
    | 188 => [49; 8260; 52] | 189 => [49; 8260; 50] | 190 => [51; 8260; 52]
    | 192 => [65; 768] | 193 => [65; 769] | 194 => [65; 770] | 195 => [65; 771]
    | 196 => [65; 776] | 197 => [65; 778] | 199 => [67; 807]
    | 200 => [69; 768] | 201 => [69; 769] | 202 => [69; 770] | 203 => [69; 776]
    | 204 => [73; 768] | 205 => [73; 769] | 206 => [73; 770] | 207 => [73; 776]
    | 209 => [78; 771]
    | 210 => [79; 768] | 211 => [79; 769] | 212 => [79; 770] | 213 => [79; 771]
    | 214 => [79; 776]
    | 217 => [85; 768] | 218 => [85; 769] | 219 => [85; 770] | 220 => [85; 776]
    | 221 => [89; 769]
    | 224 => [97; 768] | 225 => [97; 769] | 226 => [97; 770] | 227 => [97; 771]
    | 228 => [97; 776] | 229 => [97; 778] | 231 => [99; 807]
    | 232 => [101; 768] | 233 => [101; 769] | 234 => [101; 770] | 235 => [101; 776]
    | 236 => [105; 768] | 237 => [105; 769] | 238 => [105; 770] | 239 => [105; 776]
    | 241 => [110; 771]
    | 242 => [111; 768] | 243 => [111; 769] | 244 => [111; 770] | 245 => [111; 771]
    | 246 => [111; 776]
    | 249 => [117; 768] | 250 => [117; 769] | 251 => [117; 770] | 252 => [117; 776]
    | 253 => [121; 769] | 255 => [121; 776]
    | _ => [c]
    end%N.

(** [/[\u0300-\u036f]/]: a combining diacritical mark. *)
Definition isMark (c : N) : bool := between 768 c 879.

(** [/[a-z0-9]/]. *)
Definition isAlnum (c : N) : bool := between 97 c 122 || between 48 c 57.

Definition dash : N := 45%N.

(** [.replace(/[^a-z0-9]+/g, '-')]: every maximal run of other code units
    becomes one dash ([inRun] is true inside such a run). *)
Fixpoint dashRuns (inRun : bool) (l : list N) : list N :=
  match l with
  | [] => []
  | c :: r =>
      if isAlnum c then c :: dashRuns false r
      else if inRun then dashRuns true r
      else dash :: dashRuns true r
  end.

(** [-$] at the end of the string. *)
Fixpoint dropLastDash (l : list N) : list N :=
  match l with
  | [] => []
  | [c] => if (c =? dash)%N then [] else [c]
  | c :: r => c :: dropLastDash r
  end.

(** [.replace(/(^-|-$)/g, '')]: a dash at the start is removed, then a dash
    at the end of what is left. *)
Definition stripEdgeDashes (l : list N) : list N :=
  match l with
  | c :: r => if (c =? dash)%N then dropLastDash r else dropLastDash l
  | [] => []
  end.

Definition slugify (s : string) : string :=
  fromCodeUnits
    (firstn 120
       (stripEdgeDashes
          (dashRuns false
             (filter (fun c => negb (isMark c))
                     (flat_map decomposeNFKD (map lowerUnit (codeUnits s))))))).

(** [typeof v === 'object']. *)
Definition typeofObject (v : option json) : bool :=
  match v with
  | Some JNull | Some (JArr _) | Some (JObj _) => true
  | _ => false
  end.

(** [req.payload.config.localization?.defaultLocale || 'en']. *)
Definition slugLocale (r : Request) : string :=
  match orElse (match localization r with
                | Some l => Legacy.configuredDefault l
                | None => None
                end) (Some "en") with
  | Some s => s
  | None => "en"
  end.

(** The [beforeValidate] hook of the collection: [data] as the hook leaves
    it ([None] when there is no data). *)
Definition beforeValidate (data : option (list (string * json))) (r : Request)
  : result (option (list (string * json))) :=
  match data with
  | None => Ok None
  | Some d =>
      let slug := lookup "slug" d in
      if negb (truthy slug) || String.eqb (trim (interpolate slug)) EmptyString then
        let title0 := lookup "title" d in
        let title := if typeofObject title0 then optProp title0 (slugLocale r)
                     else title0 in
        if truthy title then
          match title with
          | Some (JStr t) => Ok (Some (assign "slug" (JStr (slugify t)) d))
          | _ => Throw (TypeError "s.toLowerCase is not a function")
          end
        else Ok (Some d)
      else Ok (Some (assign "slug" (JStr (slugify (interpolate slug))) d))
  end.

(** *** Well-formed slugs *)

Definition slugUnit (c : N) : bool := isAlnum c || (c =? dash)%N.

Fixpoint noDoubleDash (l : list N) : bool :=
  match l with
  | c :: ((d :: _) as r) => negb ((c =? dash)%N && (d =? dash)%N) && noDoubleDash r
  | _ => true
  end.

Definition startsWithDash (l : list N) : bool :=
  match l with
  | c :: _ => (c =? dash)%N
  | [] => false
  end.

Fixpoint endsWithDash (l : list N) : bool :=
  match l with
  | [] => false
  | [c] => (c =? dash)%N
  | _ :: r => endsWithDash r
  end.

(** Lower-case letters, digits and single dashes, none at the start. *)
Definition slugShaped (t : string) : bool :=
  let l := codeUnits t in
  forallb slugUnit l && noDoubleDash l && negb (startsWithDash l).

(** A title that is cut at a dash. *)
Definition longTitle : string :=
  (string_of_list_ascii (repeat "a"%char 119) ++ " b")%string.

Definition eAcute : string := String (ascii_of_nat 233) EmptyString.
(** *** Sources *)

(** The value of field [f] in the source locale. *)
Definition sourceAt (stored : json) (src f : string) : option json :=
  localeValue (getByPath stored f) src (getByPath stored f).

(** What is known of a retained structure: the field is rich text, the
    structure is its value in the source locale and is recognised in the
    dialect that is recorded, and the source value of the field is its
    flattening. *)
Definition retained (stored : json) (meta : FieldMap) (src : string)
  (sv : list (string * string)) (f : string) (entry : Dialect * json) : Prop :=
  lookup f meta = Some KRichText
  /\ sourceAt stored src f = Some (snd entry)
  /\ match fst entry with
     | DSlate =>
         looksLikeSlate (Some (snd entry)) = true
         /\ lookup f sv = Some (slateToPlain (Some (snd entry)))
     | DLexical =>
         looksLikeSlate (Some (snd entry)) = false
         /\ looksLikeLexical (Some (snd entry)) = true
         /\ exists s, lexicalToPlain (Some (snd entry)) = Ok s /\ lookup f sv = Some s
     end.

(** A record with a Lexical body in English. *)
Definition docLexicalBody : json :=
  JObj [("id", JNum 11);
        ("title", JObj [("en", JStr "Hello")]);
        ("body", JObj [("en", sampleLexical)])].

(** * Properties *)

(** ** Lookups and nodes *)

Lemma lookup_with_lookup {A B} (f : A -> B) k kv :
  lookup_with f k kv = option_map f (lookup k kv).
Proof.
  unfold lookup. induction kv as [|[k' v] r IH]; simpl; [reflexivity|].
  destruct (String.eqb k' k); [reflexivity|exact IH].
Qed.

Lemma lookup_In {A} k (kv : list (string * A)) v :
  lookup k kv = Some v -> In (k, v) kv.
Proof.
  unfold lookup. induction kv as [|[k' v'] r IH]; simpl; [discriminate|].
  destruct (String.eqb_spec k' k) as [->|_].
  - intros [= ->]. now left.
  - intros H. right. now apply IH.
Qed.

Lemma childrenArray_eq {B} (f : list json -> B) kv :
  childrenArray f kv =
  match lookup "children" kv with
  | Some (JArr l) => Some (f l)
  | _ => None
  end.
Proof.
  unfold childrenArray. rewrite lookup_with_lookup.
  destruct (lookup "children" kv) as [[]|]; reflexivity.
Qed.

(** Induction on nodes: a property of a node may rely on the same property
    of the items of its [children] array. *)
Lemma node_induction (P : json -> Prop) :
  (forall n,
      (forall kv l, n = JObj kv -> lookup "children" kv = Some (JArr l) ->
                    Forall P l) -> P n) ->
  forall n, P n.
Proof.
  intros step.
  assert (H : forall v, P v /\ match v with JArr l => Forall P l | _ => True end).
  { induction v as [ | | | |l IH|kv IH] using json_induction;
      try (split; [apply step; intros; discriminate|exact I]).
    - split.
      + apply step. intros; discriminate.
      + eapply Forall_impl; [|exact IH]. simpl. intros a [Ha _]. exact Ha.
    - split; [|exact I].
      apply step. intros kv' l [= <-] Hl.
      apply lookup_In in Hl. rewrite Forall_forall in IH.
      apply (IH _ Hl). }
  intros n. apply H.
Qed.

Lemma wfNode_children kv l :
  wfNode (JObj kv) = true -> lookup "children" kv = Some (JArr l) ->
  forallb wfNode l = true.
Proof.
  simpl. rewrite lookup_with_lookup. intros H Hl. rewrite Hl in H. exact H.
Qed.

Lemma wfNode_children_shape kv :
  wfNode (JObj kv) = true ->
  lookup "children" kv = None \/ exists l, lookup "children" kv = Some (JArr l).
Proof.
  simpl. rewrite lookup_with_lookup.
  destruct (lookup "children" kv) as [[]|]; simpl; try discriminate; eauto.
Qed.

(** ** Text *)

Lemma blank_whitespaceOnly_start s :
  whitespaceOnly s = true -> trimStart s = EmptyString.
Proof.
  induction s as [|c r IH]; simpl; [reflexivity|].
  destruct (is_ws c); simpl; [exact IH|discriminate].
Qed.

Lemma trimStart_head s c r : trimStart s = String c r -> is_ws c = false.
Proof.
  induction s as [|a s' IH]; simpl; [discriminate|].
  destruct (is_ws a) eqn:E; [exact IH|].
  intros [= -> _]. exact E.
Qed.

Lemma trimEnd_empty s : trimEnd s = EmptyString -> whitespaceOnly s = true.
Proof.
  induction s as [|c r IH]; simpl; [reflexivity|].
  destruct (trimEnd r); [|discriminate].
  destruct (is_ws c); [intros _; now apply IH|discriminate].
Qed.

Lemma trimStart_whitespaceOnly s :
  trimStart s = EmptyString -> whitespaceOnly s = true.
Proof.
  induction s as [|c r IH]; simpl; [reflexivity|].
  destruct (is_ws c); simpl; [exact IH|discriminate].
Qed.

(** The test of the code, [s.trim().length === 0], says that [s] is made of
    whitespace only. *)
Lemma blank_iff s : blank s = true <-> whitespaceOnly s = true.
Proof.
  unfold blank, trim. split.
  - intros H. apply Nat.eqb_eq in H.
    destruct (trimEnd (trimStart s)) eqn:E; [|discriminate].
    apply trimEnd_empty in E.
    destruct (trimStart s) as [|c r] eqn:Es.
    + now apply trimStart_whitespaceOnly.
    + apply trimStart_head in Es. simpl in E. rewrite Es in E. discriminate.
  - intros H. now rewrite (blank_whitespaceOnly_start _ H).
Qed.

Lemma trim_empty_iff s : String.eqb (trim s) EmptyString = blank s.
Proof.
  unfold blank. destruct (trim s); reflexivity.
Qed.

Lemma dropWhile_snoc {A} (p : A -> bool) l c :
  dropWhile p (l ++ [c]) =
  match dropWhile p l with
  | [] => if p c then [] else [c]
  | x :: r => (x :: r) ++ [c]
  end.
Proof.
  induction l as [|a l IH]; simpl; [reflexivity|].
  destruct (p a); [exact IH|reflexivity].
Qed.

Lemma trimStart_list s :
  list_ascii_of_string (trimStart s) = dropWhile is_ws (list_ascii_of_string s).
Proof.
  induction s as [|c r IH]; simpl; [reflexivity|].
  destruct (is_ws c); [exact IH|reflexivity].
Qed.

Lemma trimEnd_list s :
  list_ascii_of_string (trimEnd s)
  = rev (dropWhile is_ws (rev (list_ascii_of_string s))).
Proof.
  induction s as [|c r IH]; simpl; [reflexivity|].
  rewrite dropWhile_snoc.
  destruct (trimEnd r) as [|a b] eqn:E; simpl in IH.
  - destruct (dropWhile is_ws (rev (list_ascii_of_string r))) as [|x l] eqn:D.
    + destruct (is_ws c); reflexivity.
    + simpl in IH. symmetry in IH. apply app_eq_nil in IH. destruct IH; discriminate.
  - destruct (dropWhile is_ws (rev (list_ascii_of_string r))) as [|x l] eqn:D.
    + discriminate.
    + rewrite rev_app_distr. simpl. simpl in IH. now rewrite <- IH.
Qed.

(** [trim] removes the leading and the trailing whitespace. *)
Lemma trim_strip s : trim s = strip s.
Proof.
  unfold trim, strip.
  rewrite <- trimStart_list, <- trimEnd_list.
  now rewrite string_of_list_ascii_of_string.
Qed.


Lemma is_nl_eq c : is_nl c = true -> c = nl.
Proof. unfold is_nl. intros H. now apply Ascii.eqb_eq in H. Qed.

Lemma replace_nl3_runs s :
  replace_nl3 false s = unruns (map adjustRun (runs s))
  /\ replace_nl3 true s
     = unruns (map adjustRun
                 (match runs s with
                  | (c, _) :: t => if is_nl c then t else runs s
                  | [] => []
                  end))
  /\ count_nl s = match runs s with
                  | (c, k) :: _ => if is_nl c then k else 0
                  | [] => 0
                  end.
Proof.
  induction s as [|c r (IHf & IHt & IHc)]; [simpl; auto|].
  simpl replace_nl3. simpl count_nl. simpl runs.
  destruct (runs r) as [|[c' k] t] eqn:R.
  - simpl in *. rewrite IHf, IHt, IHc.
    unfold adjustRun. simpl.
    destruct (is_nl c) eqn:N; simpl; rewrite ?N; simpl; auto.
  - destruct (Ascii.eqb_spec c c') as [<-|Hne].
    + destruct (is_nl c) eqn:N.
      * rewrite IHc, IHt. simpl. rewrite ?N.
        repeat split; auto.
        destruct k as [|[|k]].
        -- simpl. rewrite IHf. unfold adjustRun. simpl. rewrite ?N. reflexivity.
        -- simpl. rewrite IHf. unfold adjustRun. simpl. rewrite ?N. reflexivity.
        -- apply is_nl_eq in N. subst c. reflexivity.
      * rewrite IHf. unfold adjustRun. simpl. rewrite ?N. simpl. auto.
    + destruct (is_nl c) eqn:N.
      * assert (N' : is_nl c' = false).
        { destruct (is_nl c') eqn:N'; [|reflexivity].
          apply is_nl_eq in N, N'. congruence. }
        rewrite IHc, IHt, IHf, N'. unfold adjustRun. simpl. rewrite ?N, ?N'. simpl. auto.
      * rewrite IHf. unfold adjustRun. simpl. rewrite ?N. simpl. auto.
Qed.

(** The replacement of [/\n{3,}/g] by two newlines collapses the runs of
    three or more newlines to two and keeps everything else. *)
Lemma collapseNewlines_runs s : collapseNewlines s = collapseRuns s.
Proof. unfold collapseNewlines, collapseRuns. apply replace_nl3_runs. Qed.

(** ** Flattening *)

Lemma join_empty_fold (parts : list string) :
  join EmptyString parts = fold_right (fun x acc => (x ++ acc)%string) EmptyString parts.
Proof.
  unfold join. induction parts as [|x r IH]; simpl; [reflexivity|].
  destruct r as [|y r'].
  - simpl. induction x; simpl; congruence.
  - rewrite IH. reflexivity.
Qed.

Lemma mapR_flatten l :
  Forall (fun n => wfNode n = true -> walkNode n = Ok (flattenNode n)) l ->
  forallb wfNode l = true ->
  mapR walkNode l = Ok (map flattenNode l).
Proof.
  induction 1 as [|x r Hx _ IH]; simpl; [reflexivity|].
  intros H. apply andb_prop in H. destruct H as [Hwx Hwr].
  rewrite (Hx Hwx). simpl. rewrite (IH Hwr). reflexivity.
Qed.

Lemma fold_flatten l :
  fold_right (fun x acc => (x ++ acc)%string) EmptyString (map flattenNode l)
  = flattenNodes l.
Proof. unfold flattenNodes. induction l; simpl; congruence. Qed.

Lemma walkNode_flatten n : wfNode n = true -> walkNode n = Ok (flattenNode n).
Proof.
  induction n as [n IH] using node_induction.
  destruct n as [ | | | | |kv]; try discriminate.
  intros Hwf. simpl. rewrite !childrenArray_eq.
  destruct (strEq (lookup "type" kv) "text") eqn:Et;
    destruct (lookup "text" kv) as [[]|] eqn:Ex; try reflexivity;
    (destruct (lookup "children" kv) as [[]|] eqn:Ec;
     try (destruct (strEq (lookup "type" kv) "linebreak"); reflexivity);
     try (rewrite Et; reflexivity);
     rewrite (mapR_flatten (IH _ _ eq_refl Ec) (wfNode_children _ Hwf Ec));
     simpl; rewrite join_empty_fold, fold_flatten; reflexivity).
Qed.

Lemma walk_flatten nodes :
  forallb wfNode nodes = true -> walk nodes = Ok (flattenNodes nodes).
Proof.
  intros H. unfold walk.
  rewrite mapR_flatten; [|apply Forall_forall; intros; now apply walkNode_flatten|exact H].
  simpl. now rewrite join_empty_fold, fold_flatten.
Qed.

(** C8: flattening a Lexical document walks its root's children depth first:
    a text leaf gives its text, a node with a children array the flattening
    of its children, a line break a single newline, siblings are put side by
    side with nothing between; then every run of three or more newlines is
    collapsed to two and the whitespace at both ends is removed.  A value
    without a root (or whose root has no children) flattens to the empty
    string. *)
Theorem lexicalToPlain_flattens :
  (forall val, truthy (optProp (optProp val "root") "children") = false ->
               lexicalToPlain val = Ok EmptyString)
  /\ (forall val, optProp val "root" = None -> lexicalToPlain val = Ok EmptyString)
  /\ (forall val nodes,
         optProp (optProp val "root") "children" = Some (JArr nodes) ->
         forallb wfNode nodes = true ->
         lexicalToPlain val = Ok (strip (collapseRuns (flattenNodes nodes)))).
Proof.
  split; [|split].
  - intros val H. unfold lexicalToPlain. now rewrite H.
  - intros val H. unfold lexicalToPlain. now rewrite H.
  - intros val nodes Hc Hwf. unfold lexicalToPlain. rewrite Hc. simpl.
    rewrite (walk_flatten _ Hwf). simpl.
    now rewrite collapseNewlines_runs, trim_strip.
Qed.

Lemma lexicalToPlain_flattens_witness :
  lexicalToPlain (Some sampleLexical)
  = Ok (strip (collapseRuns (flattenNodes sampleNodes)))
  /\ lexicalToPlain (Some (JObj [("type", JStr "doc")])) = Ok EmptyString.
Proof.
  split.
  - apply (proj2 (proj2 lexicalToPlain_flattens) (Some sampleLexical) sampleNodes);
      reflexivity.
  - apply (proj1 (proj2 lexicalToPlain_flattens)). reflexivity.
Defined.

(** ** Reinjection *)

Lemma update_first_lookup_other {A} k k' (f : A -> A) kv :
  k' <> k -> lookup k' (update_first k f kv) = lookup k' kv.
Proof.
  intros Hne. unfold lookup. induction kv as [|[a v] r IH]; simpl; [reflexivity|].
  destruct (String.eqb_spec a k) as [->|Ha]; simpl.
  - destruct (String.eqb_spec k k'); [congruence|reflexivity].
  - destruct (String.eqb a k'); [reflexivity|exact IH].
Qed.

Lemma update_first_lookup {A} k (f : A -> A) kv :
  lookup k (update_first k f kv) = option_map f (lookup k kv).
Proof.
  unfold lookup. induction kv as [|[a v] r IH]; simpl; [reflexivity|].
  destruct (String.eqb_spec a k) as [->|Ha]; simpl.
  - now rewrite String.eqb_refl.
  - destruct (String.eqb_spec a k); [congruence|exact IH].
Qed.

Lemma update_first_ext {A} k (f g : A -> A) kv :
  (forall v, lookup k kv = Some v -> f v = g v) ->
  update_first k f kv = update_first k g kv.
Proof.
  unfold lookup. induction kv as [|[a v] r IH]; simpl; [reflexivity|].
  destruct (String.eqb a k); intros H.
  - now rewrite (H v eq_refl).
  - now rewrite IH.
Qed.

Lemma update_first_id {A} k (f : A -> A) kv :
  (forall v, lookup k kv = Some v -> f v = v) -> update_first k f kv = kv.
Proof.
  unfold lookup. induction kv as [|[a v] r IH]; simpl; [reflexivity|].
  destruct (String.eqb a k); intros H.
  - now rewrite (H v eq_refl).
  - now rewrite IH.
Qed.

Lemma update_first_twice {A} k (f g : A -> A) kv :
  update_first k g (update_first k f kv) = update_first k (fun v => g (f v)) kv.
Proof.
  induction kv as [|[a v] r IH]; simpl; [reflexivity|].
  destruct (String.eqb a k) eqn:E; simpl; rewrite E; [reflexivity|now rewrite IH].
Qed.

Lemma assign_lookup {A} k (v : A) kv : lookup k (assign k v kv) = Some v.
Proof.
  unfold lookup. induction kv as [|[a w] r IH]; simpl.
  - now rewrite String.eqb_refl.
  - destruct (String.eqb a k) eqn:E; simpl.
    + now rewrite String.eqb_refl.
    + now rewrite E.
Qed.

Lemma assign_lookup_other {A} k k' (v : A) kv :
  k' <> k -> lookup k' (assign k v kv) = lookup k' kv.
Proof.
  intros Hne. unfold lookup. induction kv as [|[a w] r IH]; simpl.
  - destruct (String.eqb_spec k k'); [congruence|reflexivity].
  - destruct (String.eqb_spec a k) as [->|Ha]; simpl.
    + destruct (String.eqb_spec k k'); [congruence|reflexivity].
    + destruct (String.eqb a k'); [reflexivity|exact IH].
Qed.

Lemma update_first_assign {A} k k' (f : A -> A) (v : A) kv :
  k' <> k ->
  update_first k f (assign k' v kv) = assign k' v (update_first k f kv).
Proof.
  intros Hne. induction kv as [|[a w] r IH]; simpl.
  - destruct (String.eqb_spec k' k); [congruence|reflexivity].
  - destruct (String.eqb_spec a k') as [->|Ha]; simpl.
    + destruct (String.eqb_spec k' k); [congruence|]. simpl.
      now rewrite String.eqb_refl.
    + destruct (String.eqb_spec a k) as [->|Hk]; simpl.
      * destruct (String.eqb_spec k k'); [congruence|reflexivity].
      * destruct (String.eqb_spec a k'); [congruence|]. now rewrite IH.
Qed.

Lemma update_nth_at {A} (f : A -> A) pre x r :
  update_nth (List.length pre) f (pre ++ x :: r) = pre ++ f x :: r.
Proof. induction pre as [|a pre IH]; simpl; [reflexivity|now rewrite IH]. Qed.

Lemma onChildren_twice f g n :
  onChildren g (onChildren f n) = onChildren (fun l => g (f l)) n.
Proof.
  destruct n; try reflexivity. simpl. rewrite update_first_twice.
  f_equal. apply update_first_ext. intros v _. destruct v; reflexivity.
Qed.

Lemma onChildren_same n : onChildren (fun l => l) n = n.
Proof.
  destruct n; try reflexivity. simpl. f_equal.
  apply update_first_id. intros v _. destruct v; reflexivity.
Qed.

Lemma onChildren_setText f t n :
  onChildren f (setText t n) = setText t (onChildren f n).
Proof.
  destruct n; try reflexivity. simpl. f_equal.
  apply update_first_assign. discriminate.
Qed.

Section Reinjection.
Variable isTextNode : list (string * json) -> bool.

Lemma pathsOfNode_eq kv :
  pathsOfNode isTextNode (JObj kv)
  = (if isTextNode kv then [[]] else [])
    ++ match lookup "children" kv with
       | Some (JArr l) => pathsFrom isTextNode 0 l
       | _ => []
       end.
Proof.
  simpl. rewrite childrenArray_eq.
  destruct (lookup "children" kv) as [[]|]; reflexivity.
Qed.

Lemma relabelNode_eq g kv :
  relabelNode isTextNode g (JObj kv)
  = let n' := JObj (update_first "children"
                      (fun c => match c with
                                | JArr l => JArr (relabelFrom isTextNode g 0 l)
                                | _ => c
                                end) kv) in
    if isTextNode kv then setText (g []) n' else n'.
Proof.
  reflexivity.
Qed.

Lemma setTextAt_cons t i q nodes :
  setTextAt t (i :: q) nodes = update_nth i (stepNode t q) nodes.
Proof. reflexivity. Qed.

(** Assignments through references into the node at position [i] only
    change that node. *)
Lemma assignTexts_inside g i qs pre x r :
  List.length pre = i ->
  assignTexts g (map (cons i) qs) (pre ++ x :: r)
  = pre ++ assignBelow (fun q => g (i :: q)) qs x :: r.
Proof.
  intros <-. revert x.
  induction qs as [|q qs IH]; intros x; [reflexivity|].
  unfold assignTexts, assignBelow in *. cbn [map fold_left].
  rewrite setTextAt_cons, update_nth_at. apply IH.
Qed.

Lemma assignBelow_children g qs n :
  Forall (fun q => q <> []) qs ->
  assignBelow g qs n = onChildren (assignTexts g qs) n.
Proof.
  intros H. revert n.
  induction H as [|q qs Hq _ IH]; intros n; simpl.
  - symmetry. apply onChildren_same.
  - unfold assignBelow, assignTexts in *. simpl. rewrite IH.
    destruct q as [|j q']; [congruence|]. simpl stepNode.
    now rewrite onChildren_twice.
Qed.

Lemma pathsFrom_nonempty i l : Forall (fun q => q <> []) (pathsFrom isTextNode i l).
Proof.
  revert i. induction l as [|x r IH]; intros i; simpl; [constructor|].
  apply Forall_app. split; [|apply IH].
  apply Forall_forall. intros q Hq. apply in_map_iff in Hq.
  destruct Hq as (q' & <- & _). discriminate.
Qed.

Lemma assignTexts_app g ps qs nodes :
  assignTexts g (ps ++ qs) nodes = assignTexts g qs (assignTexts g ps nodes).
Proof. unfold assignTexts. apply fold_left_app. Qed.

Lemma assignBelow_app g ps qs n :
  assignBelow g (ps ++ qs) n = assignBelow g qs (assignBelow g ps n).
Proof. unfold assignBelow. apply fold_left_app. Qed.

Lemma assignTexts_forest l :
  Forall (relabelled isTextNode) l ->
  forall g pre,
    assignTexts g (pathsFrom isTextNode (List.length pre) l) (pre ++ l)
    = pre ++ relabelFrom isTextNode g (List.length pre) l.
Proof.
  induction 1 as [|x r Hx _ IH]; intros g pre; simpl; [reflexivity|].
  rewrite assignTexts_app, assignTexts_inside by reflexivity.
  rewrite Hx.
  replace (pre ++ relabelNode isTextNode (fun q => g (List.length pre :: q)) x :: r)
    with ((pre ++ [relabelNode isTextNode (fun q => g (List.length pre :: q)) x]) ++ r)
    by (now rewrite <- app_assoc).
  replace (S (List.length pre))
    with (List.length (pre ++ [relabelNode isTextNode
                                 (fun q => g (List.length pre :: q)) x]))
    by (rewrite length_app; simpl; lia).
  rewrite IH. now rewrite <- app_assoc.
Qed.

(** Assigning through the collected references, one after the other, is
    the single pass [relabelNode]. *)
Lemma assignBelow_relabel n : relabelled isTextNode n.
Proof.
  induction n as [n IH] using node_induction.
  intros g. destruct n as [ | | | | |kv]; try reflexivity.
  rewrite pathsOfNode_eq, relabelNode_eq, assignBelow_app. cbv zeta.
  match goal with
  | |- assignBelow _ _ ?x = _ =>
      replace x with (if isTextNode kv then setText (g []) (JObj kv) else JObj kv)
        by (destruct (isTextNode kv); reflexivity)
  end.
  destruct (lookup "children" kv) as [c|] eqn:Ec.
  - destruct c as [ | | | |l| ];
      try (rewrite (@update_first_id _ "children" _ kv);
           [reflexivity|intros v Hv; rewrite Ec in Hv; injection Hv as <-; reflexivity]).
    rewrite assignBelow_children by apply pathsFrom_nonempty.
    assert (E : update_first "children"
                  (fun c => match c with
                            | JArr l0 => JArr (relabelFrom isTextNode g 0 l0)
                            | _ => c
                            end) kv
                = update_first "children"
                    (fun c => match c with
                              | JArr l0 => JArr (assignTexts g (pathsFrom isTextNode 0 l) l0)
                              | _ => c
                              end) kv).
    { apply update_first_ext. intros v Hv. rewrite Ec in Hv. injection Hv as <-.
      f_equal. symmetry.
      apply (assignTexts_forest (IH _ _ eq_refl Ec) g []). }
    rewrite E.
    destruct (isTextNode kv); [rewrite onChildren_setText|]; reflexivity.
  - rewrite (@update_first_id _ "children" _ kv);
      [reflexivity|intros v Hv; rewrite Ec in Hv; discriminate].
Qed.

Lemma assignTexts_relabel g nodes :
  assignTexts g (pathsFrom isTextNode 0 nodes) nodes = relabelFrom isTextNode g 0 nodes.
Proof.
  apply (@assignTexts_forest nodes) with (pre := []).
  apply Forall_forall. intros n _. apply assignBelow_relabel.
Qed.
End Reinjection.

Lemma shapeOfNode_eq kv : shapeOfNode (JObj kv) = JObj (shapeProps kv).
Proof. reflexivity. Qed.

Lemma shapeProps_assign_text v kv :
  shapeProps (assign "text" v kv) = shapeProps kv.
Proof.
  induction kv as [|[k w] r IH]; [reflexivity|].
  cbn [assign]. destruct (String.eqb_spec k "text") as [->|Hk].
  - reflexivity.
  - cbn [shapeProps]. destruct (String.eqb_spec k "text"); [congruence|].
    now rewrite IH.
Qed.

Lemma shapeProps_update_children f kv :
  (forall v, lookup "children" kv = Some v ->
             shapeOfChildren (f v) = shapeOfChildren v) ->
  shapeProps (update_first "children" f kv) = shapeProps kv.
Proof.
  unfold lookup. induction kv as [|[k w] r IH]; [reflexivity|].
  cbn [update_first lookup_with]. intros H.
  destruct (String.eqb_spec k "children") as [->|Hk].
  - cbn [shapeProps]. simpl String.eqb. cbv iota.
    f_equal. f_equal. apply (H w eq_refl).
  - cbn [shapeProps]. rewrite (IH H). reflexivity.
Qed.

Section ReinjectionShape.
Variable isTextNode : list (string * json) -> bool.

Lemma relabelFrom_shape l :
  Forall (fun n => forall g, shapeOfNode (relabelNode isTextNode g n) = shapeOfNode n) l ->
  forall g i, map shapeOfNode (relabelFrom isTextNode g i l) = map shapeOfNode l.
Proof.
  induction 1 as [|x r Hx _ IH]; intros g i; simpl; [reflexivity|].
  now rewrite Hx, IH.
Qed.

(** The single pass keeps the shape of every node. *)
Lemma relabelNode_shape n g :
  shapeOfNode (relabelNode isTextNode g n) = shapeOfNode n.
Proof.
  revert g. induction n as [n IH] using node_induction. intros g.
  destruct n as [ | | | | |kv]; try reflexivity.
  rewrite relabelNode_eq. cbv zeta.
  assert (E : shapeProps
                (update_first "children"
                   (fun c => match c with
                             | JArr l => JArr (relabelFrom isTextNode g 0 l)
                             | _ => c
                             end) kv) = shapeProps kv).
  { apply shapeProps_update_children. intros v Hv.
    destruct v; try reflexivity. simpl. f_equal.
    apply relabelFrom_shape. apply (IH _ _ eq_refl Hv). }
  destruct (isTextNode kv); simpl setText; rewrite !shapeOfNode_eq;
    rewrite ?shapeProps_assign_text, E; reflexivity.
Qed.

Hypothesis isText_children :
  forall f kv, isTextNode (update_first "children" f kv) = isTextNode kv.
Hypothesis isText_assigned :
  forall v kv, isTextNode kv = true -> isTextNode (assign "text" v kv) = true.

Lemma leafTextsOf_eq kv :
  leafTextsOf isTextNode (JObj kv)
  = (if isTextNode kv then [lookup "text" kv] else [])
    ++ match lookup "children" kv with
       | Some (JArr l) => leafTexts isTextNode l
       | _ => []
       end.
Proof.
  simpl. rewrite childrenArray_eq.
  destruct (lookup "children" kv) as [[]|]; reflexivity.
Qed.

Lemma relabelFrom_texts l :
  Forall (labelled isTextNode) l ->
  forall g i, leafTexts isTextNode (relabelFrom isTextNode g i l)
              = map (fun p => Some (JStr (g p))) (pathsFrom isTextNode i l).
Proof.
  induction 1 as [|x r Hx _ IH]; intros g i; [reflexivity|].
  cbn [relabelFrom pathsFrom]. unfold leafTexts in *. cbn [flat_map].
  rewrite Hx, IH, map_app, map_map. reflexivity.
Qed.

(** After the single pass the text node at [p] holds [g p]. *)
Lemma relabelNode_texts n : labelled isTextNode n.
Proof.
  induction n as [n IH] using node_induction. intros g.
  destruct n as [ | | | | |kv]; try reflexivity.
  rewrite relabelNode_eq, pathsOfNode_eq, map_app. cbv zeta.
  set (kv' := update_first "children"
                (fun c => match c with
                          | JArr l => JArr (relabelFrom isTextNode g 0 l)
                          | _ => c
                          end) kv).
  assert (Hc : match lookup "children" kv' with
               | Some (JArr l) => leafTexts isTextNode l
               | _ => []
               end
               = map (fun p => Some (JStr (g p)))
                     match lookup "children" kv with
                     | Some (JArr l) => pathsFrom isTextNode 0 l
                     | _ => []
                     end).
  { subst kv'. rewrite update_first_lookup.
    destruct (lookup "children" kv) as [[]|] eqn:Ec; try reflexivity.
    simpl. apply relabelFrom_texts. apply (IH _ _ eq_refl Ec). }
  destruct (isTextNode kv) eqn:Et.
  - simpl setText. rewrite leafTextsOf_eq.
    rewrite isText_assigned by (subst kv'; now rewrite isText_children).
    rewrite assign_lookup, assign_lookup_other by discriminate.
    rewrite Hc. reflexivity.
  - rewrite leafTextsOf_eq. subst kv'. rewrite isText_children, Et.
    rewrite Hc. reflexivity.
Qed.

Lemma leafTexts_count l i :
  List.length (leafTexts isTextNode l) = List.length (pathsFrom isTextNode i l).
Proof.
  revert i.
  assert (H : Forall (fun n => List.length (leafTextsOf isTextNode n)
                               = List.length (pathsOfNode isTextNode n)) l).
  { apply Forall_forall. intros n _.
    induction n as [n IH] using node_induction.
    destruct n as [ | | | | |kv]; try reflexivity.
    rewrite leafTextsOf_eq, pathsOfNode_eq, !length_app.
    f_equal; [destruct (isTextNode kv); reflexivity|].
    destruct (lookup "children" kv) as [[]|] eqn:Ec; try reflexivity.
    specialize (IH _ _ eq_refl Ec). clear Ec.
    generalize 0. induction IH as [|x r Hx _ IHr]; intros i; [reflexivity|].
    unfold leafTexts in *. cbn [flat_map pathsFrom].
    rewrite !length_app, length_map, Hx. f_equal. apply IHr. }
  induction H as [|x r Hx _ IHr]; intros i; [reflexivity|].
  unfold leafTexts in *. cbn [flat_map pathsFrom].
  rewrite !length_app, length_map, Hx. f_equal. apply IHr.
Qed.
End ReinjectionShape.

Section ReinjectionResult.
Variable isTextNode : list (string * json) -> bool.

Lemma visitNode_eq kv :
  visitNode isTextNode (JObj kv)
  = let here := if isTextNode kv then [[]] else [] in
    match lookup "children" kv with
    | Some (JArr l) =>
        (below <- visitFrom isTextNode 0 l ;; Ok (here ++ below))%result
    | Some other => (below <- iterateOther other ;; Ok (here ++ below))%result
    | None => Ok here
    end.
Proof.
  simpl. rewrite lookup_with_lookup.
  destruct (lookup "children" kv) as [[]|]; reflexivity.
Qed.

Lemma visitFrom_paths l :
  Forall (fun n => wfNode n = true ->
                   visitNode isTextNode n = Ok (pathsOfNode isTextNode n)) l ->
  forallb wfNode l = true ->
  forall i, visitFrom isTextNode i l = Ok (pathsFrom isTextNode i l).
Proof.
  induction 1 as [|x r Hx _ IH]; intros Hwf i; [reflexivity|].
  simpl in Hwf. apply andb_prop in Hwf. destruct Hwf as [Hwx Hwr].
  cbn [visitFrom pathsFrom]. rewrite (Hx Hwx). simpl.
  rewrite (IH Hwr). reflexivity.
Qed.

(** On well-formed nodes [findTextNodes] does not throw and collects the
    references of the text nodes in document order. *)
Lemma visitNode_paths n :
  wfNode n = true -> visitNode isTextNode n = Ok (pathsOfNode isTextNode n).
Proof.
  induction n as [n IH] using node_induction. intros Hwf.
  destruct n as [ | | | | |kv]; try discriminate.
  rewrite visitNode_eq, pathsOfNode_eq. cbv zeta.
  destruct (wfNode_children_shape _ Hwf) as [Ec|[l Ec]]; rewrite Ec.
  - now rewrite app_nil_r.
  - rewrite (visitFrom_paths (IH _ _ eq_refl Ec) (wfNode_children _ Hwf Ec)).
    reflexivity.
Qed.

Lemma findTextNodes_paths nodes :
  forallb wfNode nodes = true ->
  findTextNodes isTextNode (Some (JArr nodes)) = Ok (pathsFrom isTextNode 0 nodes).
Proof.
  intros Hwf. simpl. apply visitFrom_paths; [|exact Hwf].
  apply Forall_forall. intros n _. apply visitNode_paths.
Qed.

Lemma pathsFrom_heads l i p :
  In p (pathsFrom isTextNode i l) -> exists j q, p = j :: q /\ i <= j.
Proof.
  revert i. induction l as [|x r IH]; intros i; simpl; [intros []|].
  rewrite in_app_iff, in_map_iff. intros [(q & <- & _)|H].
  - exists i, q. split; [reflexivity|lia].
  - destruct (IH _ H) as (j & q & -> & Hj). exists j, q. split; [reflexivity|lia].
Qed.

Lemma pathsFrom_NoDup l :
  Forall (fun n => NoDup (pathsOfNode isTextNode n)) l ->
  forall i, NoDup (pathsFrom isTextNode i l).
Proof.
  induction 1 as [|x r Hx _ IH]; intros i; simpl; [constructor|].
  apply NoDup_app.
  - apply Injective_map_NoDup; [|exact Hx]. intros a b [= ->]. reflexivity.
  - apply IH.
  - intros p Hp Hq. apply in_map_iff in Hp. destruct Hp as (q & <- & _).
    apply pathsFrom_heads in Hq. destruct Hq as (j & q' & [= <- _] & Hj). lia.
Qed.

Lemma pathsOfNode_NoDup n : NoDup (pathsOfNode isTextNode n).
Proof.
  induction n as [n IH] using node_induction.
  destruct n as [ | | | | |kv]; try constructor.
  rewrite pathsOfNode_eq.
  assert (Hbelow : NoDup match lookup "children" kv with
                         | Some (JArr l) => pathsFrom isTextNode 0 l
                         | _ => []
                         end).
  { destruct (lookup "children" kv) as [[]|] eqn:Ec; try constructor.
    apply pathsFrom_NoDup. apply (IH _ _ eq_refl Ec). }
  destruct (isTextNode kv); [|exact Hbelow].
  simpl. constructor; [|exact Hbelow].
  destruct (lookup "children" kv) as [[]|]; try (intros []).
  intros H. apply pathsFrom_heads in H. destruct H as (j & q & H & _). discriminate.
Qed.

Lemma path_eqb_eq p q : path_eqb p q = true <-> p = q.
Proof.
  revert q. induction p as [|i p IH]; destruct q as [|j q]; simpl;
    try (split; [discriminate|congruence]); [tauto|].
  rewrite andb_true_iff, Nat.eqb_eq, IH. split; [intros [-> ->]|intros [= -> ->]]; auto.
Qed.

(** The two phases of [replaceText] are one assignment per reference. *)
Lemma replaceText_assign t first others nodes :
  ~ In first others ->
  replaceText t (first :: others) nodes
  = assignTexts (textFor t first) (first :: others) nodes.
Proof.
  intros Hnot. unfold replaceText, assignTexts. cbn [fold_left].
  unfold textFor at 2. rewrite (proj2 (path_eqb_eq first first) eq_refl).
  generalize (setTextAt t first nodes) as acc.
  induction others as [|p ps IH]; intros acc; [reflexivity|].
  cbn [fold_left]. unfold textFor at 2.
  destruct (path_eqb p first) eqn:E.
  - apply path_eqb_eq in E. subst p. exfalso. apply Hnot. now left.
  - apply IH. intros H. apply Hnot. now right.
Qed.

Hypothesis isText_children :
  forall f kv, isTextNode (update_first "children" f kv) = isTextNode kv.
Hypothesis isText_assigned :
  forall v kv, isTextNode kv = true -> isTextNode (assign "text" v kv) = true.

(** What [replaceText] does to the nodes below which the references were
    collected. *)
Lemma replaceText_result t nodes :
  map shapeOfNode (replaceText t (pathsFrom isTextNode 0 nodes) nodes)
  = map shapeOfNode nodes
  /\ leafTexts isTextNode (replaceText t (pathsFrom isTextNode 0 nodes) nodes)
     = concentrated t (leafTexts isTextNode nodes).
Proof.
  assert (Hlen := leafTexts_count isTextNode nodes 0).
  assert (Hnd : NoDup (pathsFrom isTextNode 0 nodes)).
  { apply pathsFrom_NoDup. apply Forall_forall. intros n _. apply pathsOfNode_NoDup. }
  destruct (pathsFrom isTextNode 0 nodes) as [|first others] eqn:Eps.
  - simpl. split; [reflexivity|].
    destruct (leafTexts isTextNode nodes); [reflexivity|discriminate].
  - inversion Hnd as [|? ? Hnot Hnd']; subst.
    rewrite (@replaceText_assign t first others nodes Hnot), <- Eps, assignTexts_relabel.
    split.
    + apply relabelFrom_shape. apply Forall_forall. intros n _ g.
      apply relabelNode_shape.
    + rewrite relabelFrom_texts
        by (apply Forall_forall; intros n _;
            apply (@relabelNode_texts isTextNode isText_children isText_assigned)).
      rewrite Eps. cbn [map]. unfold textFor at 1.
      rewrite (proj2 (path_eqb_eq first first) eq_refl).
      destruct (leafTexts isTextNode nodes) as [|a before]; [discriminate|].
      simpl. f_equal. simpl in Hlen. injection Hlen as Hlen.
      clear - Hnot Hlen. revert before Hlen.
      induction others as [|p ps IH]; intros [|b before] Hlen; try discriminate;
        [reflexivity|].
      simpl. unfold textFor at 1.
      destruct (path_eqb p first) eqn:E.
      * apply path_eqb_eq in E. subst p. exfalso. apply Hnot. now left.
      * f_equal. apply IH; [intros H; apply Hnot; now right|].
        simpl in Hlen. now injection Hlen.
Qed.
End ReinjectionResult.

Lemma isLexicalText_children f kv :
  isLexicalText (update_first "children" f kv) = isLexicalText kv.
Proof. unfold isLexicalText. now rewrite update_first_lookup_other by discriminate. Qed.

Lemma isLexicalText_assigned v kv :
  isLexicalText kv = true -> isLexicalText (assign "text" v kv) = true.
Proof. unfold isLexicalText. now rewrite assign_lookup_other by discriminate. Qed.

Lemma isSlateText_children f kv :
  isSlateText (update_first "children" f kv) = isSlateText kv.
Proof. unfold isSlateText. now rewrite update_first_lookup_other by discriminate. Qed.

Lemma isSlateText_assigned v kv :
  isSlateText kv = true -> isSlateText (assign "text" v kv) = true.
Proof. unfold isSlateText. now rewrite assign_lookup. Qed.

Lemma looksLikeLexical_root D :
  looksLikeLexical (Some D) = true ->
  exists kv rkv, D = JObj kv /\ lookup "root" kv = Some (JObj rkv).
Proof.
  unfold looksLikeLexical. intros H.
  repeat (apply andb_prop in H; destruct H as [H ?]).
  destruct D as [ | | | |l|kv]; try discriminate.
  exists kv. simpl in *.
  destruct (lookup "root" kv) as [[ | | | |l|rkv]|]; try discriminate.
  now exists rkv.
Qed.

(** C4: reinjecting a string [s] into a recognised structured document [D]
    (a Slate array or a Lexical rooted tree) gives a structure with the same
    nodes, nesting and non-text attributes as [D], in which the first text
    node in document order carries all of [s] and every later text node
    carries the empty string. *)
Theorem reinjection_preserves_shape :
  (forall D s, TreeOfNodes D ->
     exists D', translateSlateContent D s = Ok D'
                /\ shapeOf D' = shapeOf D
                /\ leafTexts isSlateText (nodesOf D')
                   = concentrated s (leafTexts isSlateText (nodesOf D)))
  /\ (forall D s, RootedTree D ->
        exists D', translateLexicalContent D s = Ok D'
                   /\ shapeOf D' = shapeOf D
                   /\ leafTexts isLexicalText (nodesOf D')
                      = concentrated s (leafTexts isLexicalText (nodesOf D))).
Proof.
  split.
  - intros D s (_ & nodes & -> & Hwf).
    unfold translateSlateContent, deepClone.
    rewrite (@findTextNodes_paths isSlateText nodes Hwf). simpl rbind.
    eexists. split; [reflexivity|].
    destruct (@replaceText_result isSlateText isSlateText_children isSlateText_assigned
                s nodes)
      as [Hs Ht].
    split; [simpl; now rewrite Hs|exact Ht].
  - intros D s (Hlex & Hch).
    destruct (looksLikeLexical_root _ Hlex) as (kv & rkv & -> & Hroot).
    unfold translateLexicalContent, deepClone.
    simpl optProp. rewrite Hroot. simpl truthy. simpl negb. cbv iota.
    unfold rootChildren in Hch. simpl in Hch. rewrite Hroot in Hch. simpl in Hch.
    simpl optProp.
    destruct Hch as [Hnone|(nodes & Hsome & Hwf)].
    + rewrite Hnone. simpl. eexists. split; [reflexivity|].
      assert (E : update_first "root"
                    (onChildren (replaceText s [])) kv = kv).
      { apply update_first_id. intros v _. apply onChildren_same. }
      rewrite E. split; [reflexivity|].
      unfold nodesOf, rootChildren. simpl optProp. rewrite Hroot. simpl.
      rewrite Hnone. reflexivity.
    + rewrite Hsome, (@findTextNodes_paths isLexicalText nodes Hwf). simpl rbind.
      eexists. split; [reflexivity|].
      destruct (@replaceText_result isLexicalText isLexicalText_children
                  isLexicalText_assigned s nodes) as [Hs Ht].
      split.
      * simpl shapeOf. f_equal. rewrite update_first_twice.
        apply update_first_ext. intros v Hv. rewrite Hroot in Hv. injection Hv as <-.
        rewrite onChildren_twice. simpl. f_equal.
        apply update_first_ext. intros c Hc. rewrite Hsome in Hc. injection Hc as <-.
        f_equal. exact Hs.
      * unfold nodesOf, rootChildren. simpl optProp.
        rewrite update_first_lookup, Hroot. simpl.
        rewrite update_first_lookup, Hsome. simpl. exact Ht.
Qed.

Lemma reinjection_preserves_shape_witness :
  (exists D', translateSlateContent sampleSlate "Bonjour" = Ok D'
              /\ shapeOf D' = shapeOf sampleSlate
              /\ leafTexts isSlateText (nodesOf D')
                 = concentrated "Bonjour" (leafTexts isSlateText (nodesOf sampleSlate)))
  /\ (exists D', translateLexicalContent sampleLexical "Bonjour" = Ok D'
                 /\ shapeOf D' = shapeOf sampleLexical
                 /\ leafTexts isLexicalText (nodesOf D')
                    = concentrated "Bonjour"
                        (leafTexts isLexicalText (nodesOf sampleLexical))).
Proof.
  split.
  - apply (proj1 reinjection_preserves_shape).
    split; [reflexivity|]. eexists. split; reflexivity.
  - apply (proj2 reinjection_preserves_shape).
    split; [reflexivity|]. right. eexists. split; reflexivity.
Defined.

(** ** Missing-field detection *)

Lemma looksLikeLexical_root_opt val :
  looksLikeLexical val = true -> exists kv, val = Some (JObj kv).
Proof.
  destruct val as [D|]; [|discriminate]. intros H.
  destruct (looksLikeLexical_root _ H) as (kv & _ & -> & _). now exists kv.
Qed.

Lemma looksLikeSlate_array val :
  looksLikeSlate val = true -> isArray val = true.
Proof. destruct val as [[]|]; simpl; auto; discriminate. Qed.

(** C5 (counterexample): a plain text field whose value in the target locale
    is an empty array is reported missing, although the value is neither
    absent nor a string. *)
Lemma plainText_emptyArray_missing :
  fieldEmpty (Some KText) (Some (JArr [])) = Ok true
  /\ fieldsMissing docEmptyArrayTitle titleMeta "de" ["title"] = Ok ["title"]
  /\ targetValue docEmptyArrayTitle "title" "de" = Some (JArr [])
  /\ nullish (Some (JArr [])) = false
  /\ isString (Some (JArr [])) = false.
Proof. repeat split. Qed.

(** C5 (amended): a plain or multiline text field is reported missing
    exactly when its value is absent, or an empty or whitespace-only string,
    or an empty array; a rich-text field exactly when its value is absent,
    or a Slate document whose flattened text is empty or whitespace-only
    (the empty array among them), or a Lexical document whose flattened text
    is empty or whitespace-only, or an empty or whitespace-only string, or
    something that is neither a string, nor an array, nor a Lexical
    document. *)
Theorem fieldEmpty_characterised kind val :
  fieldEmpty kind val = Ok true <->
  match kind with
  | Some KRichText =>
      nullish val = true
      \/ (looksLikeSlate val = true /\ whitespaceOnly (slateToPlain val) = true)
      \/ val = Some (JArr [])
      \/ (looksLikeLexical val = true
          /\ exists s, lexicalToPlain val = Ok s /\ whitespaceOnly s = true)
      \/ (exists s, val = Some (JStr s) /\ whitespaceOnly s = true)
      \/ (nullish val = false /\ isArray val = false /\ isString val = false
          /\ looksLikeLexical val = false)
  | _ =>
      nullish val = true
      \/ (exists s, val = Some (JStr s) /\ whitespaceOnly s = true)
      \/ val = Some (JArr [])
  end.
Proof.
  assert (Hplain :
            Ok (nullish val
                || (isString val && String.eqb (trim (strOf val)) EmptyString)
                || (isArray val && Nat.eqb (arrayLength val) 0)) = Ok true
            <-> nullish val = true
                \/ (exists s, val = Some (JStr s) /\ whitespaceOnly s = true)
                \/ val = Some (JArr [])).
  { rewrite trim_empty_iff. split.
    - intros [= H]. apply orb_prop in H. destruct H as [H|H].
      + apply orb_prop in H. destruct H as [H|H]; [now left|].
        apply andb_prop in H. destruct H as [Hs Hb].
        destruct val as [[]|]; try discriminate.
        right. left. eexists. split; [reflexivity|]. now apply blank_iff.
      + apply andb_prop in H. destruct H as [Ha Hl].
        destruct val as [[ | | | |[|x l]| ]|]; try discriminate. now right; right.
    - intros [H|[(s & -> & H)| -> ]].
      + now rewrite H.
      + simpl. apply blank_iff in H. now rewrite H.
      + reflexivity. }
  destruct kind as [[]|]; try exact Hplain. clear Hplain.
  unfold fieldEmpty. split.
  - destruct (nullish val) eqn:En; [now left|].
    destruct (looksLikeSlate val) eqn:Es.
    { intros [= H]. right. left. split; [reflexivity|]. now apply blank_iff. }
    destruct (looksLikeLexical val) eqn:El.
    { destruct (lexicalToPlain val) as [s|e] eqn:Ep; simpl; [|discriminate].
      intros [= H]. right. right. right. left. split; [reflexivity|].
      exists s. split; [reflexivity|]. now apply blank_iff. }
    destruct (isArray val) eqn:Ea.
    { destruct val as [[ | | | |[|x l]| ]|]; try discriminate. }
    destruct (isString val) eqn:Et.
    { intros [= H]. destruct val as [[]|]; try discriminate.
      right. right. right. right. left. eexists. split; [reflexivity|].
      now apply blank_iff. }
    intros _. now repeat right.
  - intros [H|[(Hs & Hw)|[ -> |[(Hl & s & Hp & Hw)|[(s & -> & Hw)|(Hn & Ha & Ht & Hl)]]]]].
    + now rewrite H.
    + rewrite Hs. apply blank_iff in Hw. rewrite Hw.
      destruct (nullish val); reflexivity.
    + reflexivity.
    + destruct (looksLikeLexical_root_opt val Hl) as (kv & ->).
      simpl nullish. cbv iota. simpl looksLikeSlate. cbv iota.
      rewrite Hl, Hp. simpl. apply blank_iff in Hw. now rewrite Hw.
    + unfold looksLikeLexical. simpl. rewrite ?andb_false_r. simpl.
      apply blank_iff in Hw. now rewrite Hw.
    + rewrite Hn, Hl, Ha, Ht.
      destruct (looksLikeSlate val) eqn:Es; [|reflexivity].
      apply looksLikeSlate_array in Es. congruence.
Qed.

Lemma fieldEmpty_characterised_witness :
  fieldEmpty (Some KTextarea) (Some (JStr "  ")) = Ok true
  /\ fieldEmpty (Some KRichText) (Some (JNum 3)) = Ok true.
Proof.
  split.
  - apply (proj2 (fieldEmpty_characterised (Some KTextarea) (Some (JStr "  ")))).
    right. left. eexists. split; reflexivity.
  - apply (proj2 (fieldEmpty_characterised (Some KRichText) (Some (JNum 3)))).
    repeat right. repeat split.
Defined.

(** ** The guard *)

(** C1: a change event whose request headers carry the marker
    (x-ai-localize equal to 1) makes the hook return the incoming document
    at once: the trace is left as it was, so there is no read of the record
    store, no write and no call of the language model.  Both versions of
    the hook. *)
Theorem guard_returns_at_once
  (JSON_stringify : json -> string) (JSON_parse : string -> result json)
  (fetch : trace -> ChatRequest -> result Response)
  (findByID : trace -> string -> option json -> result json)
  (update : trace -> UpdateArgs -> result unit)
  (client : ClientOpts) (config : LocalizeConfig)
  (legacy : Legacy.LocalizeConfig) (args : HookArgs) (h : trace) :
  headerOf (req args) HEADER_GUARD = Some (JStr "1") ->
  aiLocalizeCollection JSON_stringify JSON_parse fetch findByID update
    client config args h = (h, Ok (doc args))
  /\ Legacy.aiLocalizeCollection JSON_stringify JSON_parse fetch update
       client legacy args h = (h, Ok (doc args)).
Proof.
  intros Hguard.
  unfold aiLocalizeCollection, Legacy.aiLocalizeCollection.
  rewrite Hguard. split; reflexivity.
Qed.

Lemma guard_returns_at_once_witness :
  aiLocalizeCollection (fun _ => EmptyString) (fun _ => Ok JNull)
    (fun _ _ => Throw (Failure "offline")) (fun _ _ _ => Ok JNull)
    (fun _ _ => Ok tt) sampleClient defaultConfig
    (mkHookArgs guardedRequest docEmptyArrayTitle sampleCollection None) []
  = ([], Ok docEmptyArrayTitle)
  /\ Legacy.aiLocalizeCollection (fun _ => EmptyString) (fun _ => Ok JNull)
       (fun _ _ => Throw (Failure "offline")) (fun _ _ => Ok tt)
       sampleClient legacyConfig
       (mkHookArgs guardedRequest docEmptyArrayTitle sampleCollection None) []
     = ([], Ok docEmptyArrayTitle).
Proof.
  apply (guard_returns_at_once (fun _ => EmptyString) (fun _ => Ok JNull)
           (fun _ _ => Throw (Failure "offline")) (fun _ _ _ => Ok JNull)
           (fun _ _ => Ok tt) sampleClient defaultConfig legacyConfig
           (mkHookArgs guardedRequest docEmptyArrayTitle sampleCollection None) []).
  reflexivity.
Defined.

(** ** The translation loop *)

Ltac turn_done :=
  eexists; split;
  [ rewrite <- ?app_assoc; simpl; reflexivity
  | repeat split; simpl; try reflexivity;
    intros u Hu; simpl in Hu;
    repeat (destruct Hu as [Hu|Hu]; [try discriminate; try (injection Hu as <-; reflexivity)|]);
    try contradiction ].

Section Loop.
Variable JSON_stringify : json -> string.
Variable JSON_parse : string -> result json.
Variable fetch : trace -> ChatRequest -> result Response.
Variable findByID : trace -> string -> option json -> result json.
Variable update : trace -> UpdateArgs -> result unit.

(** One turn of the loop posts its request and ends normally, whatever the
    model and the record store answer. *)
Lemma fillLocale_turn client config args meta src srcs item h :
  exists evs,
    fillLocale JSON_stringify JSON_parse fetch update client config args meta
               src srcs item h
    = (h ++ EFetch (requestFor JSON_stringify client config args src srcs item)
         :: evs, Ok tt)
    /\ turnEvents (fst item) evs.
Proof.
  cbv beta iota zeta delta
    [fillLocale requestFor buildPrompt tryCatch bind callJSONModel
     doFetch doUpdate liftR throw emit ret turnEvents llmCalls reads fst snd].
  match goal with |- context [fetch h ?r] => destruct (fetch h r) as [res|e] end;
    [|turn_done].
  destruct (ok res); cbn [negb]; [|turn_done].
  destruct (json_body res) as [body|e]; [|turn_done].
  match goal with |- context [truthy ?c] => destruct (truthy c) end;
    cbn [negb]; [|turn_done].
  match goal with |- context [JSON_parse ?c] => destruct (JSON_parse c) as [llmResult|e] end;
    [|turn_done].
  match goal with
  | |- context [buildPatch ?a ?b ?c ?d ?e] =>
      destruct (buildPatch a b c d e) as [[[|kv patch]|]|e']
  end; [turn_done| | |turn_done].
  - destruct (dryRun config) as [[]|]; [turn_done| |];
      (match goal with |- context [update ?a ?b] => destruct (update a b) as [[]|?] end; turn_done).
  - destruct (dryRun config) as [[]|]; [turn_done| |];
      (match goal with |- context [update ?a ?b] => destruct (update a b) as [[]|?] end; turn_done).
Qed.

Lemma legacy_fillLocale_turn client config args src sv item h t :
  Legacy.tag args = Ok t ->
  exists evs,
    Legacy.fillLocale JSON_stringify JSON_parse fetch update client config args
                      src sv item h
    = (h ++ EFetch (legacyRequestFor JSON_stringify client config args src sv item)
         :: evs, Ok tt)
    /\ turnEvents (fst item) evs.
Proof.
  intros Htag.
  cbv beta iota zeta delta
    [Legacy.fillLocale legacyRequestFor Legacy.buildPrompt Legacy.logTagged tryCatch
     bind callJSONModel doFetch doUpdate liftR throw emit ret turnEvents
     llmCalls reads fst snd].
  rewrite Htag.
  match goal with |- context [fetch h ?r] => destruct (fetch h r) as [res|e] end;
    [|turn_done].
  destruct (ok res); cbn [negb]; [|turn_done].
  destruct (json_body res) as [body|e]; [|turn_done].
  match goal with |- context [truthy ?c] => destruct (truthy c) end;
    cbn [negb]; [|turn_done].
  match goal with |- context [JSON_parse ?c] => destruct (JSON_parse c) as [llmResult|e] end;
    [|turn_done].
  match goal with
  | |- context [Legacy.buildPatch ?a ?b] =>
      destruct (Legacy.buildPatch a b) as [patch|e']
  end; [|turn_done].
  destruct (Legacy.dryRun config) as [[]|]; [turn_done| |];
    (match goal with |- context [update ?a ?b] => destruct (update a b) as [[]|?] end; turn_done).
Qed.

(** The loop: every item is attempted, in order, and the loop ends
    normally. *)
Lemma forEach_turns (body : string * list string -> M unit)
  (rq : string * list string -> ChatRequest) :
  (forall item h, exists evs,
      body item h = (h ++ EFetch (rq item) :: evs, Ok tt)
      /\ turnEvents (fst item) evs) ->
  forall todo h, exists evs,
    forEach todo body h = (h ++ evs, Ok tt)
    /\ llmCalls evs = map (fun item => EFetch (rq item)) todo
    /\ reads evs = []
    /\ forall u, In (EUpdate u) evs -> In (u_locale u) (map fst todo).
Proof.
  intros Hbody todo.
  induction todo as [|item rest IH]; intros h.
  - exists []. simpl. unfold ret. rewrite app_nil_r. repeat split. intros u [].
  - destruct (Hbody item h) as (evs1 & E1 & Hf1 & Hr1 & Hu1).
    destruct (IH (h ++ EFetch (rq item) :: evs1)) as (evs2 & E2 & Hf2 & Hr2 & Hu2).
    exists (EFetch (rq item) :: evs1 ++ evs2).
    cbn [forEach]. unfold bind. rewrite E1, E2.
    split; [now rewrite <- app_assoc|].
    unfold llmCalls, reads in *. cbn [filter isFetch isFindByID map].
    rewrite !filter_app, Hf1, Hf2, Hr1, Hr2. repeat split.
    intros u [Hu|Hu]; [discriminate|].
    apply in_app_iff in Hu. destruct Hu as [Hu|Hu].
    + left. symmetry. now apply Hu1.
    + right. now apply Hu2.
Qed.

Lemma bind_ext {A B} (m : M A) (k1 k2 : A -> M B) h :
  (forall a h', k1 a h' = k2 a h') -> bind m k1 h = bind m k2 h.
Proof.
  intros H. unfold bind. destruct (m h) as [h' [a|e]]; [apply H|reflexivity].
Qed.

(** The hook, once past its early returns: the read, the analysis, the
    loop. *)
Lemma hook_runs client config args localesCfg firstField others fieldMeta h :
  hookRuns config args localesCfg firstField others fieldMeta ->
  aiLocalizeCollection JSON_stringify JSON_parse fetch findByID update
    client config args h
  = (stored <- readStored findByID args firstField ;;
     plan <- liftR (analyse config localesCfg (firstField :: others) fieldMeta stored) ;;
     match plan with
     | None => ret (doc args)
     | Some p =>
         (forEach (plan_todo p)
            (fillLocale JSON_stringify JSON_parse fetch update client config args
                        fieldMeta (plan_source p) (plan_sources p)) ;;;
          ret (doc args))
     end)%hook h.
Proof.
  intros (Hguard & Hloc & Hdet & Hgate).
  unfold aiLocalizeCollection. rewrite Hguard, Hloc, Hdet, Hgate.
  assert (Hrest : forall (m : M json),
             (docAllLocales <- m ;;
              sc <- liftR (scores docAllLocales (firstField :: others)
                                  (allLocales localesCfg) fieldMeta) ;;
              let src := actualSourceLocale config sc (defaultLocale config localesCfg) in
              srcs <- liftR (sourcesFrom docAllLocales fieldMeta src
                                         (mkSources [] []) (firstField :: others)) ;;
              if negb (hasSourceText (sourceValues srcs)) then ret (doc args)
              else
                (todo <- liftR (toFill docAllLocales fieldMeta (firstField :: others)
                                       (targets (requestedTargets config
                                                   (allLocales localesCfg)) src)) ;;
                 match todo with
                 | [] => ret (doc args)
                 | _ :: _ =>
                     (forEach todo
                        (fillLocale JSON_stringify JSON_parse fetch update client
                                    config args fieldMeta src srcs) ;;;
                      ret (doc args))
                 end))%hook h
             = (stored <- m ;;
                plan <- liftR (analyse config localesCfg (firstField :: others)
                                       fieldMeta stored) ;;
                match plan with
                | None => ret (doc args)
                | Some p =>
                    (forEach (plan_todo p)
                       (fillLocale JSON_stringify JSON_parse fetch update client
                                   config args fieldMeta (plan_source p)
                                   (plan_sources p)) ;;;
                     ret (doc args))
                end)%hook h).
  { intros m. apply bind_ext. intros stored h1.
    unfold analyse, bind, liftR.
    destruct (scores _ _ _ _) as [sc|e]; [|reflexivity]. cbn [rbind].
    destruct (sourcesFrom _ _ _ _ _) as [srcs|e]; [|reflexivity]. cbn [rbind].
    destruct (hasSourceText _); cbn [negb]; [|reflexivity].
    destruct (toFill _ _ _ _) as [[|item todo]|e]; reflexivity. }
  unfold readStored. apply Hrest.
Qed.

Lemma hook_returns_early client config args h :
  (forall localesCfg firstField others fieldMeta,
      ~ hookRuns config args localesCfg firstField others fieldMeta) ->
  aiLocalizeCollection JSON_stringify JSON_parse fetch findByID update
    client config args h = (h, Ok (doc args)).
Proof.
  intros Hno. unfold aiLocalizeCollection.
  destruct (strEq _ "1") eqn:Hguard; [reflexivity|].
  destruct (localization (req args)) as [localesCfg|] eqn:Hloc; [|reflexivity].
  destruct (detectLocalizedFieldsWithMeta _) as [[|firstField others] fieldMeta] eqn:Hdet;
    [reflexivity|].
  destruct (gateClosed _ _) eqn:Hgate; [reflexivity|].
  exfalso. apply (Hno localesCfg firstField others fieldMeta).
  repeat split; assumption.
Qed.
End Loop.

Section Containment.
Variable JSON_stringify : json -> string.
Variable JSON_parse : string -> result json.
Variable fetch : trace -> ChatRequest -> result Response.
Variable findByID : trace -> string -> option json -> result json.
Variable update : trace -> UpdateArgs -> result unit.

Lemma loop_attempts_all client config args meta src srcs todo h :
  exists evs,
    forEach todo (fillLocale JSON_stringify JSON_parse fetch update client config
                             args meta src srcs) h
    = (h ++ evs, Ok tt)
    /\ llmCalls evs
       = map (fun item => EFetch (requestFor JSON_stringify client config args
                                             src srcs item)) todo
    /\ reads evs = []
    /\ forall u, In (EUpdate u) evs -> In (u_locale u) (map fst todo).
Proof.
  apply forEach_turns. intros item h'.
  apply fillLocale_turn; assumption.
Qed.

Lemma legacy_loop_attempts_all client config args src sv todo h t :
  Legacy.tag args = Ok t ->
  exists evs,
    forEach todo (Legacy.fillLocale JSON_stringify JSON_parse fetch update client
                                    config args src sv) h
    = (h ++ evs, Ok tt)
    /\ llmCalls evs
       = map (fun item => EFetch (legacyRequestFor JSON_stringify client config
                                                   args src sv item)) todo
    /\ reads evs = []
    /\ forall u, In (EUpdate u) evs -> In (u_locale u) (map fst todo).
Proof.
  intros Htag. apply forEach_turns. intros item h'.
  eapply legacy_fillLocale_turn; eassumption.
Qed.

End Containment.

Lemma writes_none_In l u : writes l = [] -> In (EUpdate u) l -> False.
Proof.
  intros Hw Hin. assert (H : In (EUpdate u) (writes l)).
  { unfold writes. apply filter_In. now split. }
  rewrite Hw in H. destruct H.
Qed.

Ltac logs_done :=
  cbn [negb app fst snd]; rewrite ?app_nil_r, <- ?app_assoc; cbn [app]; reflexivity.

Section LegacyContainment.
Variable JSON_stringify : json -> string.
Variable JSON_parse : string -> result json.
Variable fetch : trace -> ChatRequest -> result Response.
Variable update : trace -> UpdateArgs -> result unit.

(** The plain-text hook, once past its early returns: on every path a log
    line comes first, and the hook throws there when the start of the line
    cannot be made; otherwise the log lines, then the loop. *)
Lemma legacy_hook_runs client config args localesCfg h :
  legacyRuns config args localesCfg ->
  Legacy.aiLocalizeCollection JSON_stringify JSON_parse fetch update
    client config args h
  = match Legacy.tag args with
    | Throw e => (h, Throw e)
    | Ok t =>
        if hasSourceText (legacySourceValues config args localesCfg) then
          match legacyTodo config args localesCfg with
          | [] => (h ++ legacyLogs t config args localesCfg, Ok (doc args))
          | _ :: _ =>
              (forEach (legacyTodo config args localesCfg)
                 (Legacy.fillLocale JSON_stringify JSON_parse fetch update client
                    config args (legacySource config args localesCfg)
                    (legacySourceValues config args localesCfg)) ;;;
               ret (doc args))%hook (h ++ legacyLogs t config args localesCfg)
          end
        else (h ++ legacyLogs t config args localesCfg, Ok (doc args))
    end.
Proof.
  intros (Hguard & Hloc & Hgate).
  unfold Legacy.aiLocalizeCollection. rewrite Hguard, Hloc, Hgate.
  unfold legacyLogs, legacyTodo, legacySource, legacySourceValues, legacyDetected.
  fold (localeContext config (req args) localesCfg).
  unfold Legacy.logTagged, bind, liftR, emit, ret.
  destruct (Legacy.tag args) as [t|e].
  - destruct (isString _); cbn [fst snd].
    + destruct (hasSourceText _); cbn [negb app].
      * destruct (Legacy.toFill _ _ _) as [|item todo]; logs_done.
      * logs_done.
    + destruct (hasSourceText (Legacy.valuesIn _ _ _)) eqn:Hsv; cbn [fst snd].
      * rewrite Hsv. cbn [negb app].
        destruct (Legacy.toFill _ _ _) as [|item todo]; logs_done.
      * destruct (Legacy.firstLocaleWithContent _ _ _ _) as [[locale|] sv'];
          cbn [fst snd].
        -- destruct (hasSourceText sv'); cbn [negb app].
           ++ destruct (Legacy.toFill _ _ _) as [|item todo]; logs_done.
           ++ logs_done.
        -- destruct (hasSourceText sv'); cbn [negb app].
           ++ destruct (Legacy.toFill _ _ _) as [|item todo]; logs_done.
           ++ logs_done.
  - destruct (isString _); [reflexivity|].
    destruct (hasSourceText (Legacy.valuesIn _ _ _)) eqn:Hsv; cbn [fst snd].
    + rewrite Hsv. reflexivity.
    + destruct (Legacy.firstLocaleWithContent _ _ _ _) as [[locale|] sv'];
        cbn [fst snd]; [reflexivity|].
      destruct (hasSourceText sv'); reflexivity.
Qed.

(** The trace of the plain-text hook past its early returns. *)
Lemma legacy_hook_outcome client config args localesCfg h :
  legacyRuns config args localesCfg ->
  match Legacy.tag args with
  | Throw e =>
      Legacy.aiLocalizeCollection JSON_stringify JSON_parse fetch update
        client config args h = (h, Throw e)
  | Ok t =>
      exists evs,
        Legacy.aiLocalizeCollection JSON_stringify JSON_parse fetch update
          client config args h
        = (h ++ legacyLogs t config args localesCfg ++ evs, Ok (doc args))
        /\ llmCalls evs
           = (if hasSourceText (legacySourceValues config args localesCfg)
              then map (fun item =>
                          EFetch (legacyRequestFor JSON_stringify client config args
                                    (legacySource config args localesCfg)
                                    (legacySourceValues config args localesCfg) item))
                       (legacyTodo config args localesCfg)
              else [])
        /\ reads evs = []
        /\ (forall u, In (EUpdate u) evs ->
                      hasSourceText (legacySourceValues config args localesCfg) = true
                      /\ In (u_locale u) (map fst (legacyTodo config args localesCfg)))
  end.
Proof.
  intros Hruns. rewrite (legacy_hook_runs client h Hruns).
  destruct (Legacy.tag args) as [t|e] eqn:Htag; [|reflexivity].
  destruct (hasSourceText _) eqn:Htext.
  - destruct (legacyTodo config args localesCfg) as [|item todo] eqn:Etodo.
    + exists []. rewrite app_nil_r.
      split; [reflexivity|split; [reflexivity|split; [reflexivity|intros u []]]].
    + destruct (@legacy_loop_attempts_all JSON_stringify JSON_parse fetch update
                  client config args (legacySource config args localesCfg)
                  (legacySourceValues config args localesCfg) (item :: todo)
                  (h ++ legacyLogs t config args localesCfg) t Htag)
        as (evs & E & Hc & Hr & Hu).
      exists evs. unfold bind, ret. rewrite E.
      split; [now rewrite app_assoc|]. split; [exact Hc|]. split; [exact Hr|].
      intros u Hin. split; [reflexivity|now apply Hu].
  - exists []. rewrite app_nil_r.
    split; [reflexivity|split; [reflexivity|split; [reflexivity|intros u []]]].
Qed.
End LegacyContainment.

(** C9 (counterexample): an exception raised before the loop leaves the
    hook.  The read of the stored record fails: the structure-preserving
    hook throws what the read threw.  A Lexical body has [null] among its
    nodes: the hook throws the TypeError of the flattening.  The document
    is [null] and no locale has text: the plain-text hook throws at its log
    line. *)
Lemma failure_before_the_loop_escapes :
  aiLocalizeCollection noStringify parseAnswer fetchAnswer findNothing updateOk
    sampleClient defaultConfig
    (mkHookArgs plainRequest docLocaleScoped titleCollection None) []
  = ([EFindByID "articles" (Some (JNum 3))], Throw (Failure "not found"))
  /\ aiLocalizeCollection noStringify parseAnswer fetchAnswer findNothing updateOk
       sampleClient defaultConfig
       (mkHookArgs plainRequest docBrokenBody sampleCollection None) []
     = ([], Throw (TypeError "n is null"))
  /\ Legacy.aiLocalizeCollection noStringify parseAnswer fetchAnswer updateOk
       sampleClient legacyConfig
       (mkHookArgs plainRequest JNull titleCollection None) []
     = ([], Throw (TypeError "cannot read properties of null")).
Proof. repeat split. Qed.

(** C9 (amended): a failure while one (target locale, missing fields) pair is
    handled, of the call to the model or of the write, stays in the turn of
    that pair: whatever the model and the record store answer, the requests
    of all pairs of the work list are posted, in order, and the hook
    returns the incoming document.  An exception raised before the loop
    leaves the hook: that of the read of the stored record and that of the
    analysis of the record in the structure-preserving hook, that of the
    first log line in the plain-text hook (a document that is [null], an id
    that has no string conversion); no request has been posted and nothing
    has been written then.  The statement is for documents whose id and
    field values have a string conversion. *)
Theorem failures_stay_in_their_turn
  (JSON_stringify : json -> string) (JSON_parse : string -> result json)
  (fetch : trace -> ChatRequest -> result Response)
  (findByID : trace -> string -> option json -> result json)
  (update : trace -> UpdateArgs -> result unit)
  (client : ClientOpts) (config : LocalizeConfig)
  (legacy : Legacy.LocalizeConfig) (args : HookArgs) (h : trace) :
  (forall localesCfg firstField others fieldMeta,
      hookRuns config args localesCfg firstField others fieldMeta ->
      defaultString (prop (doc args) "id") = true ->
      match snd (readStored findByID args firstField h) with
      | Throw e =>
          aiLocalizeCollection JSON_stringify JSON_parse fetch findByID update
            client config args h = (h ++ [readEvent args], Throw e)
      | Ok stored =>
          exists evs,
            aiLocalizeCollection JSON_stringify JSON_parse fetch findByID update
              client config args h
            = (h ++ evs,
               match analyse config localesCfg (firstField :: others) fieldMeta stored with
               | Ok _ => Ok (doc args)
               | Throw e => Throw e
               end)
            /\ llmCalls evs
               = match analyse config localesCfg (firstField :: others) fieldMeta stored with
                 | Ok (Some p) =>
                     map (fun item =>
                            EFetch (requestFor JSON_stringify client config args
                                      (plan_source p) (plan_sources p) item))
                         (plan_todo p)
                 | _ => []
                 end
            /\ (forall u, In (EUpdate u) evs ->
                          exists p,
                            analyse config localesCfg (firstField :: others) fieldMeta stored
                            = Ok (Some p)
                            /\ In (u_locale u) (map fst (plan_todo p)))
      end)
  /\ (forall localesCfg,
         legacyRuns legacy args localesCfg ->
         legacyConvertible legacy (doc args) ->
         match Legacy.tag args with
         | Throw e =>
             Legacy.aiLocalizeCollection JSON_stringify JSON_parse fetch update
               client legacy args h = (h, Throw e)
         | Ok t =>
             exists evs,
               Legacy.aiLocalizeCollection JSON_stringify JSON_parse fetch update
                 client legacy args h
               = (h ++ legacyLogs t legacy args localesCfg ++ evs, Ok (doc args))
               /\ llmCalls evs
                  = (if hasSourceText (legacySourceValues legacy args localesCfg)
                     then map (fun item =>
                                 EFetch (legacyRequestFor JSON_stringify client legacy args
                                           (legacySource legacy args localesCfg)
                                           (legacySourceValues legacy args localesCfg)
                                           item))
                              (legacyTodo legacy args localesCfg)
                     else [])
               /\ (forall u, In (EUpdate u) evs ->
                             In (u_locale u) (map fst (legacyTodo legacy args localesCfg)))
         end).
Proof.
  split.
  - intros localesCfg firstField others fieldMeta Hruns _.
    rewrite (@hook_runs JSON_stringify JSON_parse fetch findByID update client config
               args localesCfg firstField others fieldMeta h Hruns).
    unfold readStored, bind, liftR, doFindByID, ret. fold (readEvent args).
    assert (Hafter : forall h1 stored pre,
               h1 = h ++ pre -> llmCalls pre = [] -> writes pre = [] ->
               exists evs,
                 match analyse config localesCfg (firstField :: others) fieldMeta stored with
                 | Ok plan =>
                     match plan with
                     | Some p =>
                         fun h0 =>
                           let (h', r0) :=
                             forEach (plan_todo p)
                               (fillLocale JSON_stringify JSON_parse fetch update client
                                           config args fieldMeta (plan_source p)
                                           (plan_sources p)) h0 in
                           match r0 with
                           | Ok _ => (h', Ok (doc args))
                           | Throw e => (h', Throw e)
                           end
                     | None => fun h0 => (h0, Ok (doc args))
                     end h1
                 | Throw e => (h1, Throw e)
                 end
                 = (h ++ evs,
                    match analyse config localesCfg (firstField :: others) fieldMeta stored with
                    | Ok _ => Ok (doc args)
                    | Throw e => Throw e
                    end)
                 /\ llmCalls evs
                    = match analyse config localesCfg (firstField :: others) fieldMeta stored with
                      | Ok (Some p) =>
                          map (fun item =>
                                 EFetch (requestFor JSON_stringify client config args
                                           (plan_source p) (plan_sources p) item))
                              (plan_todo p)
                      | _ => []
                      end
                 /\ (forall u, In (EUpdate u) evs ->
                               exists p,
                                 analyse config localesCfg (firstField :: others) fieldMeta
                                         stored = Ok (Some p)
                                 /\ In (u_locale u) (map fst (plan_todo p)))).
    { intros h1 stored pre -> Hl Hw.
      destruct (analyse _ _ _ _ stored) as [[p|]|e].
      - destruct (loop_attempts_all JSON_stringify JSON_parse fetch update client config
                    args fieldMeta (plan_source p) (plan_sources p) (plan_todo p)
                    (h ++ pre)) as (evs & E & Hc & _ & Hu).
        rewrite E. exists (pre ++ evs). split; [now rewrite app_assoc|].
        split.
        + unfold llmCalls in *. now rewrite filter_app, Hl, Hc.
        + intros u Hin. exists p. split; [reflexivity|].
          apply in_app_iff in Hin. destruct Hin as [Hin|Hin]; [|now apply Hu].
          exfalso. apply (@writes_none_In pre u Hw Hin).
      - exists pre. split; [reflexivity|]. split; [exact Hl|].
        intros u Hin. exfalso. apply (@writes_none_In pre u Hw Hin).
      - exists pre. split; [reflexivity|]. split; [exact Hl|].
        intros u Hin. exfalso. apply (@writes_none_In pre u Hw Hin). }
    destruct (localizedView _); cbn [snd].
    + destruct (findByID h _ _) as [stored|e]; [|reflexivity].
      apply (Hafter _ stored [readEvent args]); reflexivity.
    + apply (Hafter h (doc args) []); [now rewrite app_nil_r|reflexivity|reflexivity].
  - intros localesCfg Hruns _.
    pose proof (@legacy_hook_outcome JSON_stringify JSON_parse fetch update client
                  legacy args localesCfg h Hruns) as H.
    destruct (Legacy.tag args) as [t|e]; [|exact H].
    destruct H as (evs & E & Hc & _ & Hu).
    exists evs. split; [exact E|]. split; [exact Hc|].
    intros u Hin. now apply Hu.
Qed.

(** Three locales to fill, the call for the second one fails: the three
    requests are posted, the first and the third locale are written, the
    failure of the second is reported, the hook returns the document; so
    for both hooks. *)
Lemma failures_stay_in_their_turn_witness :
  (exists evs,
      aiLocalizeCollection stringifyTarget parseAnswer fetchExceptGerman findNothing
        updateOk sampleClient defaultConfig
        (mkHookArgs fourLocaleRequest docEnglishOnly titleCollection None) []
      = ([] ++ evs, Ok docEnglishOnly)
      /\ List.length (llmCalls evs) = 3)
  /\ turnReports
       (fst (aiLocalizeCollection stringifyTarget parseAnswer fetchExceptGerman
               findNothing updateOk sampleClient defaultConfig
               (mkHookArgs fourLocaleRequest docEnglishOnly titleCollection None) []))
     = [("fr", true); ("[aiLocalize] articles#5 en->de failed", false); ("it", true)]
  /\ (exists evs,
         Legacy.aiLocalizeCollection stringifyTarget parseAnswer fetchExceptGerman
           updateOk sampleClient legacyConfig
           (mkHookArgs fourLocaleRequest docEnglishOnly titleCollection None) []
         = ([] ++ legacyLogs "[aiLocalize] articles#5" legacyConfig
                    (mkHookArgs fourLocaleRequest docEnglishOnly titleCollection None)
                    fourLocales ++ evs,
            Ok docEnglishOnly)
         /\ List.length (llmCalls evs) = 3)
  /\ turnReports
       (fst (Legacy.aiLocalizeCollection stringifyTarget parseAnswer fetchExceptGerman
               updateOk sampleClient legacyConfig
               (mkHookArgs fourLocaleRequest docEnglishOnly titleCollection None) []))
     = [("fr", true); ("[aiLocalize] articles#5 en->de failed", false); ("it", true)].
Proof.
  split; [|split; [reflexivity|split; [|reflexivity]]].
  - destruct (proj1 (@failures_stay_in_their_turn stringifyTarget parseAnswer
                       fetchExceptGerman findNothing updateOk sampleClient
                       defaultConfig legacyConfig
                       (mkHookArgs fourLocaleRequest docEnglishOnly titleCollection None)
                       [])
                    fourLocales "title" [] titleMeta
                    (conj eq_refl (conj eq_refl (conj eq_refl eq_refl))) eq_refl)
      as (evs & E & Hc & _).
    exists evs. split; [exact E|]. rewrite Hc. reflexivity.
  - assert (Hconv : legacyConvertible legacyConfig docEnglishOnly).
    { intros f [<-|[]]. split; [reflexivity|]. intros key.
      change (defaultString (lookup key [("en", JStr "Hello")]) = true).
      unfold lookup. cbn [lookup_with].
      destruct (String.eqb "en" key); reflexivity. }
    destruct (proj2 (@failures_stay_in_their_turn stringifyTarget parseAnswer
                       fetchExceptGerman findNothing updateOk sampleClient
                       defaultConfig legacyConfig
                       (mkHookArgs fourLocaleRequest docEnglishOnly titleCollection None)
                       [])
                    fourLocales (conj eq_refl (conj eq_refl eq_refl)) Hconv)
      as (evs & E & Hc & _).
    exists evs. split; [exact E|]. rewrite Hc. reflexivity.
Defined.

(** ** Nothing to do *)

Lemma fieldsMissing_none stored meta locale fields :
  (forall f, In f fields ->
             fieldEmpty (lookup f meta) (targetValue stored f locale) = Ok false) ->
  fieldsMissing stored meta locale fields = Ok [].
Proof.
  induction fields as [|f rest IH]; intros H; [reflexivity|].
  cbn [fieldsMissing]. rewrite (H f (or_introl eq_refl)). cbn [rbind].
  rewrite IH by (intros g Hg; apply H; now right). reflexivity.
Qed.

Lemma toFill_none stored meta fields tgts :
  (forall locale f, In locale tgts -> In f fields ->
                    fieldEmpty (lookup f meta) (targetValue stored f locale) = Ok false) ->
  toFill stored meta fields tgts = Ok [].
Proof.
  induction tgts as [|locale rest IH]; intros H; [reflexivity|].
  cbn [toFill].
  rewrite fieldsMissing_none by (intros f Hf; apply H; [now left|exact Hf]).
  cbn [rbind]. rewrite IH by (intros l f Hl Hf; apply H; [now right|exact Hf]).
  reflexivity.
Qed.

(** One invocation on a record whose target locales are filled. *)
Lemma filled_record_no_work
  (JSON_stringify : json -> string) (JSON_parse : string -> result json)
  (fetch : trace -> ChatRequest -> result Response)
  (findByID : trace -> string -> option json -> result json)
  (update : trace -> UpdateArgs -> result unit)
  (client : ClientOpts) (config : LocalizeConfig) (args : HookArgs)
  (localesCfg : Localization) (firstField : string) (others : list string)
  (fieldMeta : FieldMap) (stored : json) (sc : list (string * nat))
  (srcs : Sources) (h : trace) :
  hookRuns config args localesCfg firstField others fieldMeta ->
  snd (readStored findByID args firstField h) = Ok stored ->
  scores stored (firstField :: others) (allLocales localesCfg) fieldMeta = Ok sc ->
  sourcesFrom stored fieldMeta
    (actualSourceLocale config sc (defaultLocale config localesCfg))
    (mkSources [] []) (firstField :: others) = Ok srcs ->
  (forall locale f,
      In locale (targets (requestedTargets config (allLocales localesCfg))
                         (actualSourceLocale config sc (defaultLocale config localesCfg))) ->
      In f (firstField :: others) ->
      fieldEmpty (lookup f fieldMeta) (targetValue stored f locale) = Ok false) ->
  exists evs,
    aiLocalizeCollection JSON_stringify JSON_parse fetch findByID update
      client config args h = (h ++ evs, Ok (doc args))
    /\ llmCalls evs = [] /\ writes evs = [].
Proof.
  intros Hruns Hread Hsc Hsrc Hfill.
  rewrite (@hook_runs JSON_stringify JSON_parse fetch findByID update client config
             args localesCfg firstField others fieldMeta h Hruns).
  assert (Hplan : analyse config localesCfg (firstField :: others) fieldMeta stored
                  = Ok None).
  { unfold analyse. rewrite Hsc. cbn [rbind]. rewrite Hsrc. cbn [rbind].
    destruct (hasSourceText _); cbn [negb]; [|reflexivity].
    now rewrite (toFill_none _ _ _ _ Hfill). }
  unfold bind, liftR. unfold readStored in *.
  destruct (localizedView _).
  - unfold doFindByID in *. cbn [snd] in Hread. rewrite Hread, Hplan.
    eexists. split; [reflexivity|split; reflexivity].
  - unfold ret in *. cbn [snd] in Hread. injection Hread as <-. rewrite Hplan.
    exists []. rewrite app_nil_r. repeat split.
Qed.




(** ** Target locales *)

Lemma toFill_locales stored meta fields tgts todo :
  toFill stored meta fields tgts = Ok todo ->
  forall item, In item todo -> In (fst item) tgts.
Proof.
  revert todo. induction tgts as [|locale rest IH]; intros todo.
  - intros [= <-] item [].
  - cbn [toFill].
    destruct (fieldsMissing stored meta locale fields) as [missing|e]; [|discriminate].
    cbn [rbind].
    destruct (toFill stored meta fields rest) as [more|e]; [|discriminate].
    cbn [rbind]. intros [= <-] item Hin.
    destruct missing as [|f fs].
    + right. now apply (IH more).
    + destruct Hin as [<-|Hin]; [now left|]. right. now apply (IH more).
Qed.

Lemma analyse_plan config localesCfg fields meta stored p :
  analyse config localesCfg fields meta stored = Ok (Some p) ->
  exists sc,
    scores stored fields (allLocales localesCfg) meta = Ok sc
    /\ forall item, In item (plan_todo p) ->
                    In (fst item)
                       (targets (requestedTargets config (allLocales localesCfg))
                                (actualSourceLocale config sc
                                                    (defaultLocale config localesCfg))).
Proof.
  unfold analyse.
  destruct (scores _ _ _ _) as [sc|e]; [|discriminate]. cbn [rbind].
  destruct (sourcesFrom _ _ _ _ _) as [srcs|e]; [|discriminate]. cbn [rbind].
  destruct (hasSourceText _); cbn [negb]; [|discriminate].
  destruct (toFill _ _ _ _) as [[|item todo]|e] eqn:Etodo; try discriminate.
  cbn [rbind]. intros [= <-]. exists sc. split; [reflexivity|].
  cbn [plan_todo]. intros it Hit. apply (toFill_locales _ _ _ _ Etodo it Hit).
Qed.

(** In the structure-preserving hook every write goes to a locale of the
    target list: the configured target locales when there are some, all
    configured locales otherwise, the resolved source locale left out. *)
Theorem updates_within_targets
  (JSON_stringify : json -> string) (JSON_parse : string -> result json)
  (fetch : trace -> ChatRequest -> result Response)
  (findByID : trace -> string -> option json -> result json)
  (update : trace -> UpdateArgs -> result unit)
  (client : ClientOpts) (config : LocalizeConfig) (args : HookArgs)
  (h : trace) (evs : list event) (r : result json) (u : UpdateArgs) :
  aiLocalizeCollection JSON_stringify JSON_parse fetch findByID update
    client config args h = (h ++ evs, r) ->
  In (EUpdate u) evs ->
  exists localesCfg stored sc,
    localization (req args) = Some localesCfg
    /\ scores stored (fst (detectLocalizedFieldsWithMeta (collection args)))
              (allLocales localesCfg)
              (snd (detectLocalizedFieldsWithMeta (collection args))) = Ok sc
    /\ In (u_locale u)
          (targets (requestedTargets config (allLocales localesCfg))
                   (actualSourceLocale config sc (defaultLocale config localesCfg))).
Proof.
  intros Hrun Hu.
  assert (Hearly : (h, Ok (doc args)) = (h ++ evs, r) -> False).
  { intros [= E _]. rewrite <- (app_nil_r h) in E at 1.
    apply app_inv_head in E. subst evs. destruct Hu. }
  unfold aiLocalizeCollection in Hrun.
  destruct (strEq (headerOf (req args) HEADER_GUARD) "1") eqn:Hguard;
    [now apply Hearly in Hrun|].
  destruct (localization (req args)) as [localesCfg|] eqn:Hloc;
    [|now apply Hearly in Hrun].
  destruct (detectLocalizedFieldsWithMeta (collection args))
    as [[|firstField others] fieldMeta] eqn:Hdet; [now apply Hearly in Hrun|].
  destruct (gateClosed (guardFlagField config) (doc args)) eqn:Hgate;
    [now apply Hearly in Hrun|].
  assert (Hruns : hookRuns config args localesCfg firstField others fieldMeta)
    by (repeat split; assumption).
  pose proof (@hook_runs JSON_stringify JSON_parse fetch findByID update client config
                args localesCfg firstField others fieldMeta h Hruns) as E.
  unfold aiLocalizeCollection in E. rewrite Hguard, Hloc, Hdet, Hgate in E.
  rewrite E in Hrun. clear E.
  exists localesCfg. cbn [fst snd].
  assert (Hafter : forall h1 stored pre,
             h1 = h ++ pre -> (forall v, ~ In (EUpdate v) pre) ->
             match analyse config localesCfg (firstField :: others) fieldMeta stored with
             | Ok plan =>
                 match plan with
                 | Some p =>
                     fun h0 =>
                       let (h', r0) :=
                         forEach (plan_todo p)
                           (fillLocale JSON_stringify JSON_parse fetch update client
                                       config args fieldMeta (plan_source p)
                                       (plan_sources p)) h0 in
                       match r0 with
                       | Ok _ => (h', Ok (doc args))
                       | Throw e => (h', Throw e)
                       end
                 | None => fun h0 => (h0, Ok (doc args))
                 end h1
             | Throw e => (h1, Throw e)
             end = (h ++ evs, r) ->
             exists stored sc,
               scores stored (firstField :: others) (allLocales localesCfg) fieldMeta
               = Ok sc
               /\ In (u_locale u)
                     (targets (requestedTargets config (allLocales localesCfg))
                              (actualSourceLocale config sc
                                                  (defaultLocale config localesCfg)))).
  { intros h1 stored pre -> Hpre.
    destruct (analyse _ _ _ _ stored) as [[p|]|e] eqn:Eplan.
    - destruct (loop_attempts_all JSON_stringify JSON_parse fetch update client config
                  args fieldMeta (plan_source p) (plan_sources p) (plan_todo p)
                  (h ++ pre)) as (evs' & E' & _ & _ & Hupd).
      rewrite E'. intros [= E _]. rewrite <- app_assoc in E.
      apply app_inv_head in E. subst evs.
      apply in_app_iff in Hu. destruct Hu as [Hu|Hu]; [now apply Hpre in Hu|].
      apply Hupd in Hu. apply in_map_iff in Hu. destruct Hu as (item & Hfst & Hitem).
      destruct (analyse_plan _ _ _ _ _ Eplan) as (sc & Hsc & Htodo).
      exists stored, sc. split; [exact Hsc|]. rewrite <- Hfst. now apply Htodo.
    - intros [= E _]. apply app_inv_head in E. subst evs. now apply Hpre in Hu.
    - intros [= E _]. apply app_inv_head in E. subst evs. now apply Hpre in Hu. }
  assert (Hgoal : exists stored sc,
             scores stored (firstField :: others) (allLocales localesCfg) fieldMeta
             = Ok sc
             /\ In (u_locale u)
                   (targets (requestedTargets config (allLocales localesCfg))
                            (actualSourceLocale config sc
                                                (defaultLocale config localesCfg)))).
  { unfold readStored, bind, liftR, doFindByID, ret in Hrun.
    destruct (localizedView _).
    - destruct (findByID h _ _) as [stored|e].
      + eapply (Hafter _ stored [_]); [reflexivity| |exact Hrun].
        intros v [Hv|[]]. discriminate.
      + injection Hrun as E _. apply app_inv_head in E. subst evs.
        destruct Hu as [Hu|[]]. discriminate.
    - apply (Hafter h (doc args) []); [now rewrite app_nil_r|intros v []|exact Hrun]. }
  destruct Hgoal as (stored & sc & Hsc & Hin).
  exists stored, sc. repeat split; assumption.
Qed.

(** C6 (the plain-text hook): the target list is computed and then left
    aside; with German as the only configured target, the French locale is
    written as well.  The structure-preserving hook writes German only. *)
Lemma legacy_writes_outside_target_list :
  Legacy.targetLocalesOf legacyGermanOnly (allLocales sampleLocalization) (JStr "en")
  = ["de"]
  /\ writtenKeys
       (fst (Legacy.aiLocalizeCollection noStringify parseAnswer fetchAnswer updateOk
               sampleClient legacyGermanOnly
               (mkHookArgs plainRequest docEnglishTitle titleCollection None) []))
     = [("de", Some ["title"]); ("fr", Some ["title"])]
  /\ writtenKeys
       (fst (aiLocalizeCollection noStringify parseAnswer fetchAnswer findNothing
               updateOk sampleClient germanOnly
               (mkHookArgs plainRequest docEnglishTitle titleCollection None) []))
     = [("de", Some ["title"])].
Proof. repeat split. Qed.

(** C7: the option [skipIfSlateTarget] is read (its default is true) and
    never used: the German body, which already looks like Slate, is written
    all the same. *)
Lemma slate_target_is_written :
  cfg_skipIfSlateTarget defaultConfig = None
  /\ looksLikeSlate (targetValue docSlateTarget "body" "de") = true
  /\ writtenKeys
       (fst (aiLocalizeCollection noStringify parseAnswer fetchAnswer findNothing
               updateOk sampleClient defaultConfig
               (mkHookArgs plainRequest docSlateTarget sampleCollection None) []))
     = [("de", Some ["body"])].
Proof. repeat split. Qed.

(** ** Source locale *)

Lemma sort_head_firstMax l :
  hd_error (sort byScoreDesc l) = firstMax l.
Proof.
  induction l as [|x r IH]; [reflexivity|].
  cbn [sort fold_right firstMax]. fold (sort byScoreDesc r).
  rewrite <- IH.
  destruct (sort byScoreDesc r) as [|y s]; [reflexivity|].
  cbn [insertSorted hd_error]. unfold byScoreDesc.
  destruct (snd y <=? snd x)%nat eqn:E.
  - apply Nat.leb_le in E.
    destruct (Z.leb_spec (Z.of_nat (snd y) - Z.of_nat (snd x)) 0); [reflexivity|lia].
  - apply Nat.leb_gt in E.
    destruct (Z.leb_spec (Z.of_nat (snd y) - Z.of_nat (snd x)) 0); [lia|reflexivity].
Qed.

Lemma firstMax_firstBest l b :
  firstMax l = Some b -> firstBest snd l b.
Proof.
  revert b. induction l as [|x r IH]; intros b; [discriminate|].
  cbn [firstMax]. destruct (firstMax r) as [y|] eqn:E.
  - destruct (IH y eq_refl) as (pre & post & -> & Hpre & Hpost).
    destruct (snd y <=? snd x)%nat eqn:Hle.
    + apply Nat.leb_le in Hle. intros [= <-].
      exists [], (pre ++ y :: post). split; [reflexivity|]. split; [intros ? []|].
      intros z Hz. apply in_app_iff in Hz. destruct Hz as [Hz|[<-|Hz]].
      * apply Hpre in Hz. lia.
      * exact Hle.
      * apply Hpost in Hz. lia.
    + apply Nat.leb_gt in Hle. intros [= <-].
      exists (x :: pre), post. split; [reflexivity|]. split; [|exact Hpost].
      intros z [<-|Hz]; [exact Hle|now apply Hpre].
  - intros [= <-]. destruct r as [|y r']; [|simpl in E; destruct (firstMax r'); [destruct (_ <=? _)%nat|]; discriminate].
    exists [], []. repeat split; intros ? [].
Qed.

Lemma firstMax_some l : l <> [] -> exists b, firstMax l = Some b.
Proof.
  destruct l as [|x r]; [congruence|]. intros _. cbn [firstMax].
  destruct (firstMax r) as [y|]; [destruct (_ <=? _)%nat|]; eauto.
Qed.

Lemma plainCode_index l : plainCode l = true -> array_index l = None.
Proof.
  unfold plainCode. intros H. apply andb_prop in H. destruct H as [_ H].
  destruct (array_index l); [discriminate|reflexivity].
Qed.

Lemma Object_entries_plain {A} (kv : list (string * A)) :
  Forall (fun e => plainCode (fst e) = true) kv -> Object_entries kv = kv.
Proof.
  intros H. unfold Object_entries, indexEntries.
  assert (E1 : fold_right (fun (e : string * A) acc =>
                             match array_index (fst e) with
                             | Some i => insertIndex i e acc
                             | None => acc
                             end) [] kv = []).
  { induction H as [|e r He _ IH]; [reflexivity|].
    cbn [fold_right]. rewrite (plainCode_index (fst e) He). exact IH. }
  assert (E2 : filter (fun e : string * A =>
                         match array_index (fst e) with
                         | Some _ => false
                         | None => true
                         end) kv = kv).
  { clear E1. induction H as [|e r He _ IH]; [reflexivity|].
    cbn [filter]. rewrite (plainCode_index (fst e) He). cbv beta iota.
    f_equal. exact IH. }
  now rewrite E1, E2.
Qed.

Lemma firstOccurrences_In l x : In x (firstOccurrences l) <-> In x l.
Proof.
  induction l as [|y r IH]; [reflexivity|].
  cbn [firstOccurrences In]. rewrite filter_In, IH.
  destruct (String.eqb_spec x y) as [->|Hne]; simpl.
  - split; auto.
  - split; [intros [H|[H _]]; auto|intros [H|H]; auto].
Qed.

Lemma filter_split {A} (p : A -> bool) l b A0 B0 :
  filter p l = A0 ++ b :: B0 ->
  exists A1 B1,
    l = A1 ++ b :: B1
    /\ (forall y, In y A1 -> In y A0 \/ p y = false)
    /\ (forall y, In y B1 -> In y B0 \/ p y = false).
Proof.
  intros H. revert A0 H.
  induction l as [|y r IH]; intros A0 H.
  - destruct A0; discriminate.
  - cbn [filter] in H. destruct (p y) eqn:Py.
    + destruct A0 as [|a0 A0'].
      * injection H as -> HB. exists [], r. split; [reflexivity|].
        split; [intros ? []|].
        intros z Hz. destruct (p z) eqn:Pz; [|now right].
        left. rewrite <- HB. apply filter_In. now split.
      * injection H as -> H. destruct (IH _ H) as (A1 & B1 & -> & HA & HB).
        exists (a0 :: A1), B1. split; [reflexivity|]. split; [|exact HB].
        intros z [<-|Hz]; [left; now left|].
        destruct (HA z Hz) as [Hin|Hp]; [left; now right|now right].
    + destruct (IH _ H) as (A1 & B1 & -> & HA & HB).
      exists (y :: A1), B1. split; [reflexivity|]. split; [|exact HB].
      intros z [<-|Hz]; [now right|now apply HA].
Qed.

(** The best among the first occurrences is the best of the list. *)
Lemma firstBest_firstOccurrences (g : string -> nat) l b :
  firstBest g (firstOccurrences l) b -> firstBest g l b.
Proof.
  revert b. induction l as [|x r IH]; intros b (pre & post & E & Hpre & Hpost).
  - destruct pre; discriminate.
  - cbn [firstOccurrences] in E. destruct pre as [|x' pre'].
    + injection E as <- E. exists [], r. split; [reflexivity|].
      split; [intros ? []|]. intros y Hy.
      destruct (String.eqb_spec y x) as [->|Hne]; [lia|].
      apply Hpost. rewrite <- E. apply filter_In. split.
      * now apply firstOccurrences_In.
      * destruct (String.eqb_spec y x); [congruence|reflexivity].
    + injection E as <- E.
      assert (Hx : g x < g b) by (apply Hpre; now left).
      destruct (filter_split _ _ _ _ _ E) as (A1 & B1 & E1 & HA & HB) || destruct (filter_split E) as (A1 & B1 & E1 & HA & HB) || destruct (filter_split _ E) as (A1 & B1 & E1 & HA & HB).
      assert (Hb : firstBest g (firstOccurrences r) b).
      { exists A1, B1. split; [exact E1|]. split.
        - intros y Hy. destruct (HA y Hy) as [Hin|Hp].
          + apply Hpre. now right.
          + destruct (String.eqb_spec y x) as [->|]; [exact Hx|discriminate].
        - intros y Hy. destruct (HB y Hy) as [Hin|Hp].
          + now apply Hpost.
          + destruct (String.eqb_spec y x) as [->|]; [lia|discriminate]. }
      destruct (IH b Hb) as (pre0 & post0 & -> & Hpre0 & Hpost0).
      exists (x :: pre0), post0. split; [reflexivity|]. split; [|exact Hpost0].
      intros y [<-|Hy]; [exact Hx|now apply Hpre0].
Qed.

Lemma memStr_In x l : memStr x l = true <-> In x l.
Proof.
  unfold memStr. rewrite existsb_exists. split.
  - intros (y & Hy & E). apply String.eqb_eq in E. now subst.
  - intros H. exists x. split; [exact H|apply String.eqb_refl].
Qed.

Lemma assign_known (g : string -> nat) ks k :
  In k ks ->
  assign k (g k) (map (fun l => (l, g l)) ks) = map (fun l => (l, g l)) ks.
Proof.
  induction ks as [|a r IH]; [intros []|].
  cbn [map assign].
  destruct (String.eqb_spec a k) as [->|Hne]; [reflexivity|].
  intros [H|H]; [congruence|]. now rewrite IH.
Qed.

Lemma assign_new (g : string -> nat) ks k :
  ~ In k ks ->
  assign k (g k) (map (fun l => (l, g l)) ks) = map (fun l => (l, g l)) (ks ++ [k]).
Proof.
  induction ks as [|a r IH]; [reflexivity|].
  cbn [map assign app]. intros H.
  destruct (String.eqb_spec a k) as [->|Hne]; [exfalso; apply H; now left|].
  rewrite IH by (intros Hin; apply H; now right). reflexivity.
Qed.

Lemma filter_known x ks s :
  memStr x ks = true ->
  filter (fun y => negb (memStr y ks)) s
  = filter (fun y => negb (memStr y ks)) (filter (fun y => negb (String.eqb y x)) s).
Proof.
  intros Hm. induction s as [|y s IHs]; [reflexivity|].
  cbn [filter]. destruct (String.eqb_spec y x) as [->|Hne]; cbn [negb].
  - rewrite Hm. cbn [negb]. exact IHs.
  - cbn [filter]. destruct (memStr y ks); cbn [negb]; [exact IHs|now rewrite IHs].
Qed.

Lemma filter_new x ks s :
  filter (fun y => negb (memStr y (ks ++ [x]))) s
  = filter (fun y => negb (memStr y ks)) (filter (fun y => negb (String.eqb y x)) s).
Proof.
  induction s as [|y s IHs]; [reflexivity|].
  cbn [filter]. unfold memStr at 1. rewrite existsb_app. cbn [existsb].
  rewrite orb_false_r. fold (memStr y ks).
  destruct (String.eqb_spec y x) as [->|Hne]; cbn [negb].
  - rewrite orb_true_r. cbn [negb]. exact IHs.
  - rewrite orb_false_r. cbn [filter].
    destruct (memStr y ks); cbn [negb]; [exact IHs|now rewrite IHs].
Qed.

Lemma fromEntries_from (g : string -> nat) l ks :
  fold_left (fun o e => assign (fst e) (snd e) o)
            (map (fun k => (k, g k)) l) (map (fun k => (k, g k)) ks)
  = map (fun k => (k, g k))
        (ks ++ filter (fun y => negb (memStr y ks)) (firstOccurrences l)).
Proof.
  revert ks. induction l as [|x r IH]; intros ks.
  - simpl. now rewrite app_nil_r.
  - cbn [map fold_left fst snd firstOccurrences filter].
    destruct (memStr x ks) eqn:Hm; cbn [negb].
    + rewrite assign_known by (now apply memStr_In). rewrite IH.
      now rewrite <- filter_known.
    + assert (Hnot : ~ In x ks).
      { intros Hin. apply memStr_In in Hin. congruence. }
      rewrite assign_new by exact Hnot. rewrite IH, <- app_assoc.
      cbn [app]. now rewrite filter_new.
Qed.

Lemma fromEntries_firstOccurrences (g : string -> nat) l :
  Object_fromEntries (map (fun k => (k, g k)) l)
  = map (fun k => (k, g k)) (firstOccurrences l).
Proof.
  unfold Object_fromEntries.
  change (@nil (string * nat)) with (map (fun k => (k, g k)) []).
  rewrite (fromEntries_from g l []). cbn [app]. f_equal.
  induction (firstOccurrences l) as [|y s IH]; [reflexivity|].
  simpl. simpl in IH. now rewrite IH.
Qed.

Lemma lookup_scores (g : string -> nat) ks l :
  lookup l (map (fun k => (k, g k)) ks) = if memStr l ks then Some (g l) else None.
Proof.
  unfold lookup. induction ks as [|k r IH]; [reflexivity|].
  cbn [map lookup_with memStr existsb]. rewrite String.eqb_sym.
  destruct (String.eqb_spec l k) as [->|Hne]; [reflexivity|exact IH].
Qed.

Section SourceLocale.
Variables (stored : json) (fields : list string) (meta : FieldMap).
Variable all : list string.
Variable sc : list (string * nat).
Hypothesis Hsc : scores stored fields all meta = Ok sc.


Lemma scores_by_locale :
  sc = map (fun l => (l, (scoreOf stored fields meta) l)) (firstOccurrences all).
Proof.
  rewrite <- fromEntries_firstOccurrences.
  unfold scores in Hsc.
  destruct (mapR _ all) as [entries|e] eqn:E; [|discriminate].
  injection Hsc as <-. f_equal.
  revert entries E.
  induction all as [|l r IH]; intros entries E.
  - now injection E as <-.
  - cbn [mapR] in E. unfold scoreOf. cbn [map].
    destruct (contentScore stored fields l meta) as [n|e]; [|discriminate].
    cbn [rbind] in E.
    destruct (mapR _ r) as [ys|e]; [|discriminate].
    cbn [rbind] in E. injection E as <-. f_equal. now apply IH.
Qed.

Lemma score_lookup l :
  lookup l sc = if memStr l all then Some ((scoreOf stored fields meta) l) else None.
Proof.
  rewrite scores_by_locale, lookup_scores.
  destruct (memStr l all) eqn:E.
  - apply (proj1 (memStr_In l all)) in E.
    apply (proj2 (firstOccurrences_In all l)) in E.
    apply (proj2 (memStr_In l (firstOccurrences all))) in E. now rewrite E.
  - destruct (memStr l (firstOccurrences all)) eqn:E'; [|reflexivity].
    apply (proj1 (memStr_In l (firstOccurrences all))) in E'.
    apply (proj1 (firstOccurrences_In all l)) in E'.
    apply (proj2 (memStr_In l all)) in E'. congruence.
Qed.

Lemma scorePositive_iff l :
  scorePositive sc (Some l) = true <-> In l all /\ 0 < (scoreOf stored fields meta) l.
Proof.
  unfold scorePositive. rewrite score_lookup.
  destruct (memStr l all) eqn:E.
  - apply memStr_In in E. rewrite Nat.ltb_lt. tauto.
  - split; [discriminate|]. intros [H _]. apply memStr_In in H. congruence.
Qed.

Lemma bestLocale_firstMax :
  bestLocale sc = option_map fst (firstMax (Object_entries sc)).
Proof.
  unfold bestLocale. rewrite <- sort_head_firstMax.
  destruct (sort byScoreDesc (Object_entries sc)); reflexivity.
Qed.

Lemma bestLocale_in b : bestLocale sc = Some b -> In b all.
Proof.
  rewrite bestLocale_firstMax.
  destruct (firstMax (Object_entries sc)) as [[b' n]|] eqn:E; [|discriminate].
  intros [= <-]. apply firstMax_firstBest in E.
  destruct E as (pre & post & E & _).
  assert (Hin : In (b', n) (Object_entries sc)) by (rewrite E; apply in_elt).
  unfold Object_entries in Hin. apply in_app_iff in Hin.
  assert (Hsc' : In (b', n) sc).
  { destruct Hin as [Hin|Hin]; [|now apply filter_In in Hin].
    apply in_map_iff in Hin. destruct Hin as ([i e] & He & Hin). simpl in He. subst e.
    unfold indexEntries in Hin. clear - Hin. revert Hin.
    induction sc as [|e r IH]; [intros []|]. cbn [fold_right].
    destruct (array_index (fst e)) as [j|]; [|intros H; right; now apply IH].
    intros H.
    assert (Hins : forall acc, In (i, (b', n)) (insertIndex j e acc) ->
                               (b', n) = e \/ In (i, (b', n)) acc).
    { induction acc as [|[k e'] acc IHa]; simpl.
      - intros [[= _ <-]|[]]. now left.
      - destruct (j <? k)%N; simpl.
        + intros [[= _ <-]|H']; [now left|now right].
        + intros [H'|H']; [right; now left|].
          destruct (IHa H') as [?|?]; [now left|right; now right]. }
    destruct (Hins _ H) as [<-|H']; [now left|right; now apply IH]. }
  rewrite scores_by_locale in Hsc'. apply in_map_iff in Hsc'.
  destruct Hsc' as (k & [= <- _] & Hk).
  exact (proj1 (firstOccurrences_In all k) Hk).
Qed.

(** With plain locale codes the best locale has the highest (scoreOf stored fields meta) and is
    the first of the configured locales to have it. *)
Lemma bestLocale_firstBest :
  Forall (fun l => plainCode l = true) all -> all <> [] ->
  exists b, bestLocale sc = Some b /\ firstBest (scoreOf stored fields meta) all b.
Proof.
  intros Hplain Hne.
  assert (Hentries : Object_entries sc = sc).
  { apply Object_entries_plain. rewrite scores_by_locale.
    apply Forall_forall. intros e He. apply in_map_iff in He.
    destruct He as (k & <- & Hk).
    apply (proj1 (firstOccurrences_In all k)) in Hk.
    rewrite Forall_forall in Hplain. exact (Hplain k Hk). }
  rewrite bestLocale_firstMax, Hentries.
  destruct (firstMax_some (l := sc)) as ([b n] & E).
  { rewrite scores_by_locale. destruct all; [congruence|discriminate]. }
  rewrite E. exists b. split; [reflexivity|].
  apply firstBest_firstOccurrences.
  apply firstMax_firstBest in E. destruct E as (pre & post & E & Hpre & Hpost).
  rewrite scores_by_locale in E.
  apply map_eq_app in E. destruct E as (pre0 & rest & E & <- & Erest).
  apply map_eq_cons in Erest. destruct Erest as (b0 & post0 & -> & [= -> <-] & <-).
  exists pre0, post0. split; [exact E|]. split.
  - intros x Hx. apply (Hpre (x, (scoreOf stored fields meta) x)). apply in_map_iff. now exists x.
  - intros x Hx. apply (Hpost (x, (scoreOf stored fields meta) x)). apply in_map_iff. now exists x.
Qed.
End SourceLocale.

(** C3 (counterexample): with an explicit source locale that has no content
    and a record that is empty everywhere (best score 0), the selected
    source is the first configured locale, not the default locale of the
    framework. *)
Lemma explicit_source_without_content_counterexample :
  scores docEmpty ["title"] (allLocales frenchDefault) titleMeta
  = Ok [("en", 0); ("de", 0); ("fr", 0)]
  /\ loc_defaultLocale frenchDefault = Some (LocaleCode "fr")
  /\ actualSourceLocale explicitGerman [("en", 0); ("de", 0); ("fr", 0)]
       (defaultLocale explicitGerman frenchDefault) = "en".
Proof. repeat split. Qed.

(** C3 (amended): an explicit source locale whose score is positive is
    selected.  Otherwise the locale with the highest score is selected, the
    first of the configured locales among those that have it (for locale
    codes that are neither empty nor array indices): always when an
    explicit source locale is configured, and when none is configured if
    some score is positive.  When no explicit source locale is configured
    and every score is 0, the default locale of the framework is selected
    ("en" when the framework has none). *)
Theorem source_locale_selection
  (config : LocalizeConfig) (localesCfg : Localization) (stored : json)
  (fields : list string) (meta : FieldMap) (sc : list (string * nat)) :
  scores stored fields (allLocales localesCfg) meta = Ok sc ->
  (forall src,
      orElse (sourceLocale config) None = Some src ->
      In src (allLocales localesCfg) -> 0 < scoreOf stored fields meta src ->
      actualSourceLocale config sc (defaultLocale config localesCfg) = src)
  /\ (Forall (fun l => plainCode l = true) (allLocales localesCfg) ->
      allLocales localesCfg <> [] ->
      (exists src, orElse (sourceLocale config) None = Some src
                   /\ (~ In src (allLocales localesCfg)
                       \/ scoreOf stored fields meta src = 0))
      \/ (orElse (sourceLocale config) None = None
          /\ exists l, In l (allLocales localesCfg)
                       /\ 0 < scoreOf stored fields meta l) ->
      firstBest (scoreOf stored fields meta) (allLocales localesCfg)
                (actualSourceLocale config sc (defaultLocale config localesCfg)))
  /\ (orElse (sourceLocale config) None = None ->
      (forall l, In l (allLocales localesCfg) -> scoreOf stored fields meta l = 0) ->
      actualSourceLocale config sc (defaultLocale config localesCfg)
      = match orElse (option_map localeCodeOf (loc_defaultLocale localesCfg))
                     (Some "en") with
        | Some s => s
        | None => "en"
        end).
Proof.
  intros Hsc. split; [|split].
  - intros src Hsrc Hin Hpos. unfold actualSourceLocale. rewrite Hsrc.
    now rewrite (proj2 (@scorePositive_iff _ _ _ _ _ Hsc src) (conj Hin Hpos)).
  - intros Hplain Hne Hcase.
    destruct (@bestLocale_firstBest _ _ _ _ _ Hsc Hplain Hne) as (b & Hb & Hbest).
    assert (Hbin : In b (allLocales localesCfg)) by (now apply (@bestLocale_in _ _ _ _ _ Hsc)).
    assert (Hbne : b <> EmptyString).
    { rewrite Forall_forall in Hplain. specialize (Hplain b Hbin).
      unfold plainCode in Hplain. apply andb_prop in Hplain.
      destruct Hplain as [Hplain _]. intros ->. discriminate. }
    unfold actualSourceLocale.
    destruct Hcase as [(src & Hsrc & Hno)|(Hnone & l & Hl & Hpos)].
    + rewrite Hsrc.
      assert (Hnp : scorePositive sc (Some src) = false).
      { destruct (scorePositive sc (Some src)) eqn:E; [|reflexivity].
        apply (@scorePositive_iff _ _ _ _ _ Hsc) in E. destruct E as [Hin Hpos].
        destruct Hno as [Hno|Hno]; [contradiction|lia]. }
      rewrite Hnp, Hb. unfold orElse.
      destruct (String.eqb_spec b EmptyString); [contradiction|exact Hbest].
    + rewrite Hnone, Hb.
      assert (Hp : scorePositive sc (Some b) = true).
      { apply (@scorePositive_iff _ _ _ _ _ Hsc). split; [exact Hbin|].
        destruct Hbest as (pre & post & E & Hpre & Hpost).
        rewrite E in Hl. apply in_app_iff in Hl.
        destruct Hl as [Hl|[<-|Hl]].
        - apply Hpre in Hl. lia.
        - exact Hpos.
        - apply Hpost in Hl. lia. }
      rewrite Hp. exact Hbest.
  - intros Hnone Hzero. unfold actualSourceLocale. rewrite Hnone.
    assert (Hnp : scorePositive sc (bestLocale sc) = false).
    { destruct (bestLocale sc) as [b|] eqn:Hb.
      - destruct (scorePositive sc (Some b)) eqn:E; [|reflexivity].
        apply (@scorePositive_iff _ _ _ _ _ Hsc) in E. destruct E as [Hin Hpos].
        rewrite (Hzero b Hin) in Hpos. lia.
      - unfold scorePositive. rewrite (@score_lookup _ _ _ _ _ Hsc).
        destruct (memStr "undefined" (allLocales localesCfg)) eqn:E; [|reflexivity].
        apply memStr_In in E. rewrite (Hzero _ E). reflexivity. }
    rewrite Hnp. unfold defaultLocale.
    destruct (sourceLocale config) as [s|]; [|reflexivity].
    simpl in Hnone.
    destruct (String.eqb s EmptyString) eqn:E; [|discriminate].
    apply String.eqb_eq in E. subst s. reflexivity.
Qed.

Lemma source_locale_selection_witness :
  actualSourceLocale defaultConfig [("en", 1); ("de", 1); ("fr", 1)]
    (defaultLocale defaultConfig sampleLocalization) = "en"
  /\ firstBest (scoreOf docSlateTarget ["title"] titleMeta)
               (allLocales sampleLocalization)
               (actualSourceLocale defaultConfig [("en", 1); ("de", 1); ("fr", 1)]
                  (defaultLocale defaultConfig sampleLocalization))
  /\ actualSourceLocale defaultConfig [("en", 0); ("de", 0); ("fr", 0)]
       (defaultLocale defaultConfig frenchDefault) = "fr".
Proof.
  split; [reflexivity|split].
  - apply (proj1 (proj2 (@source_locale_selection defaultConfig sampleLocalization
                           docSlateTarget ["title"] titleMeta
                           [("en", 1); ("de", 1); ("fr", 1)] eq_refl))).
    + repeat constructor.
    + discriminate.
    + right. split; [reflexivity|]. exists "en". split; [now left|].
      vm_compute. lia.
  - apply (proj2 (proj2 (@source_locale_selection defaultConfig frenchDefault
                           docEmpty ["title"] titleMeta
                           [("en", 0); ("de", 0); ("fr", 0)] eq_refl))).
    + reflexivity.
    + intros l [<-|[<-|[<-|[]]]]; reflexivity.
Defined.

(** ** Patches *)

Lemma split_dot_aux_nonempty cur s : split_dot_aux cur s <> [].
Proof.
  revert cur. induction s as [|c r IH]; intros cur; simpl; [discriminate|].
  destruct (Ascii.eqb c "."%char); [discriminate|apply IH].
Qed.

Lemma split_dot_nonempty s : split_dot s <> [].
Proof. apply split_dot_aux_nonempty. Qed.

Lemma setByParts_cons node k k' rest v :
  setByParts node (k :: k' :: rest) v
  = match lookup k node with
    | Some (JArr _) => None
    | Some (JObj child) =>
        match setByParts child (k' :: rest) v with
        | Some child' => Some (assign k (JObj child') node)
        | None => None
        end
    | _ =>
        match setByParts [] (k' :: rest) v with
        | Some child' => Some (assign k (JObj child') node)
        | None => None
        end
    end.
Proof. reflexivity. Qed.

Lemma reach_cons node k k' rest v :
  reach node (k :: k' :: rest) v
  = exists child, lookup k node = Some (JObj child) /\ reach child (k' :: rest) v.
Proof. reflexivity. Qed.

Lemma setByParts_reach parts :
  parts <> [] ->
  forall node v node', setByParts node parts v = Some node' -> reach node' parts v.
Proof.
  induction parts as [|k rest IH]; [congruence|]. intros _ node v node'.
  destruct rest as [|k' rest'].
  - simpl. intros [= <-]. apply assign_lookup.
  - rewrite setByParts_cons, reach_cons.
    assert (Hne : k' :: rest' <> []) by discriminate.
    destruct (lookup k node) as [[ | | | |l|child]|];
      try (destruct (setByParts [] (k' :: rest') v) as [child'|] eqn:E;
           [|intros H; discriminate H];
           intros [= <-]; exists child'; split;
           [apply assign_lookup|now apply (IH Hne [] v)]).
    + intros H; discriminate H.
    + destruct (setByParts child (k' :: rest') v) as [child'|] eqn:E;
        [|intros H; discriminate H].
      intros [= <-]. exists child'. split; [apply assign_lookup|now apply (IH Hne child v)].
Qed.

Lemma isPrefix_cons k p q : isPrefix p q -> isPrefix (k :: p) (k :: q).
Proof. intros (r & ->). now exists r. Qed.

Lemma isPrefix_nil q : isPrefix [] q.
Proof. now exists q. Qed.

(** An assignment at [p] leaves what sits at [q] alone when neither path
    runs through the other. *)
Lemma setByParts_frame p :
  forall q node v w node',
    setByParts node p v = Some node' ->
    reach node q w ->
    ~ isPrefix p q -> ~ isPrefix q p ->
    reach node' q w.
Proof.
  induction p as [|k rest IH]; intros q node v w node' Hset Hq Hpq Hqp.
  - exfalso. apply Hpq. apply isPrefix_nil.
  - destruct q as [|kq restq]; [destruct Hq|].
    destruct (String.eqb_spec k kq) as [->|Hne].
    + (* same first segment *)
      destruct rest as [|k' rest'].
      { exfalso. apply Hpq. exists restq. reflexivity. }
      destruct restq as [|kq' restq'].
      { exfalso. apply Hqp. exists (k' :: rest'). reflexivity. }
      rewrite reach_cons in Hq. destruct Hq as (child & Hchild & Hreach).
      rewrite setByParts_cons in Hset. rewrite Hchild in Hset.
      destruct (setByParts child (k' :: rest') v) as [child'|] eqn:E; [|discriminate].
      injection Hset as <-. rewrite reach_cons. exists child'.
      split; [apply assign_lookup|].
      apply (IH _ _ _ _ _ E Hreach).
      * intros H. apply Hpq. now apply isPrefix_cons.
      * intros H. apply Hqp. now apply isPrefix_cons.
    + (* the paths part at once: the binding of [kq] is not touched *)
      assert (Hkeep : lookup kq node' = lookup kq node).
      { destruct rest as [|k' rest'].
        - simpl in Hset. injection Hset as <-.
          apply assign_lookup_other. congruence.
        - rewrite setByParts_cons in Hset.
          destruct (lookup k node) as [[ | | | |l|child]|];
            try (destruct (setByParts [] (k' :: rest') v); [|discriminate];
                 injection Hset as <-; apply assign_lookup_other; congruence).
          + discriminate.
          + destruct (setByParts child (k' :: rest') v); [|discriminate].
            injection Hset as <-. apply assign_lookup_other. congruence. }
      destruct restq as [|kq' restq'].
      * cbn [reach] in *. now rewrite Hkeep.
      * rewrite reach_cons in *. destruct Hq as (child & Hc & Hr).
        exists child. split; [now rewrite Hkeep|exact Hr].
Qed.

Lemma reach_fold parts :
  forall node v,
    reach node parts v ->
    fold_left (fun acc k => if nullish acc then acc else optProp acc k)
              parts (Some (JObj node)) = Some v.
Proof.
  induction parts as [|k rest IH]; intros node v H; [destruct H|].
  destruct rest as [|k' rest'].
  - simpl in *. exact H.
  - rewrite reach_cons in H. destruct H as (child & Hc & Hr).
    cbn [fold_left]. simpl nullish. cbv iota. simpl optProp. rewrite Hc.
    apply (IH child v Hr).
Qed.

Lemma reach_getByPath node f v :
  reach node (split_dot f) v -> getByPath (JObj node) f = Some v.
Proof. intros H. unfold getByPath. simpl. now apply reach_fold. Qed.

Lemma buildPatch_lost meta structures llmResult missing patch :
  buildPatch meta structures llmResult None missing <> Ok (Some patch).
Proof.
  induction missing as [|f rest IH]; [discriminate|].
  cbn [buildPatch]. destruct (patchValue _ _ _ f); [exact IH|discriminate].
Qed.

Lemma isPrefix_refl p : isPrefix p p.
Proof. exists []. now rewrite app_nil_r. Qed.

(** Every requested path holds its value in the patch that is built. *)
Lemma buildPatch_reach meta structures llmResult missing :
  forall done patch0 patch,
    buildPatch meta structures llmResult (Some patch0) missing = Ok (Some patch) ->
    prefixFree (done ++ missing) ->
    (forall f, In f done ->
               exists v, patchValue meta structures llmResult f = Ok v
                         /\ reach patch0 (split_dot f) v) ->
    forall f, In f (done ++ missing) ->
              exists v, patchValue meta structures llmResult f = Ok v
                        /\ reach patch (split_dot f) v.
Proof.
  induction missing as [|g rest IH]; intros done patch0 patch Hbuild Hfree Hdone.
  - injection Hbuild as <-. rewrite app_nil_r. exact Hdone.
  - cbn [buildPatch] in Hbuild.
    destruct (patchValue meta structures llmResult g) as [v|e] eqn:Ev; [|discriminate].
    cbn [rbind] in Hbuild.
    destruct (setByPath patch0 g v) as [patch1|] eqn:Eset;
      [|now apply buildPatch_lost in Hbuild].
    replace (done ++ g :: rest) with ((done ++ [g]) ++ rest) in *
      by (now rewrite <- app_assoc).
    apply (IH (done ++ [g]) patch1 patch Hbuild Hfree).
    intros f Hf. apply in_app_iff in Hf. destruct Hf as [Hf|[<-|[]]].
    + destruct (Hdone f Hf) as (w & Hw & Hreach).
      destruct (String.eqb_spec f g) as [->|Hne].
      * exists v. split; [exact Ev|].
        apply (@setByParts_reach _ (split_dot_nonempty g) _ _ _ Eset).
      * exists w. split; [exact Hw|].
        apply (@setByParts_frame _ _ _ _ _ _ Eset Hreach).
        -- intros Hp. apply Hne. symmetry. apply Hfree; [| |exact Hp].
           ++ apply in_app_iff. left. apply in_app_iff. right. now left.
           ++ apply in_app_iff. left. apply in_app_iff. now left.
        -- intros Hp. apply Hne. apply Hfree; [| |exact Hp].
           ++ apply in_app_iff. left. apply in_app_iff. now left.
           ++ apply in_app_iff. left. apply in_app_iff. right. now left.
    + exists v. split; [exact Ev|].
      apply (@setByParts_reach _ (split_dot_nonempty g) _ _ _ Eset).
Qed.

(** The patch depends on the answer of the model through the requested
    keys only. *)
Lemma buildPatch_requested_only meta structures r1 r2 missing patch0 :
  (forall f, In f missing -> optProp (Some r1) f = optProp (Some r2) f) ->
  buildPatch meta structures r1 patch0 missing
  = buildPatch meta structures r2 patch0 missing.
Proof.
  revert patch0. induction missing as [|g rest IH]; intros patch0 H; [reflexivity|].
  cbn [buildPatch].
  assert (E : patchValue meta structures r1 g = patchValue meta structures r2 g).
  { unfold patchValue, proposed. now rewrite (H g (or_introl eq_refl)). }
  rewrite E. destruct (patchValue meta structures r2 g) as [v|e]; [|reflexivity].
  cbn [rbind]. apply IH. intros f Hf. apply H. now right.
Qed.

Lemma reach_nil parts v : ~ reach [] parts v.
Proof.
  destruct parts as [|k [|k' r]]; cbn [reach].
  - tauto.
  - discriminate.
  - intros (c & H & _). discriminate H.
Qed.

Lemma setByParts_keeps k rest kq node v node' :
  setByParts node (k :: rest) v = Some node' -> k <> kq ->
  lookup kq node' = lookup kq node.
Proof.
  intros Hset Hne. destruct rest as [|k' rest'].
  - simpl in Hset. injection Hset as <-. apply assign_lookup_other. congruence.
  - rewrite setByParts_cons in Hset.
    destruct (lookup k node) as [[ | | | |l|child]|];
      try (destruct (setByParts [] (k' :: rest') v); [|discriminate];
           injection Hset as <-; apply assign_lookup_other; congruence).
    + discriminate.
    + destruct (setByParts child (k' :: rest') v); [|discriminate].
      injection Hset as <-. apply assign_lookup_other. congruence.
Qed.

(** What sits in an object after an assignment at [p] was there before, or
    sits on the way to [p], at [p] or inside the value assigned. *)
Lemma setByParts_reach_inv p :
  forall q node v w node',
    setByParts node p v = Some node' -> reach node' q w ->
    isPrefix q p \/ isPrefix p q \/ reach node q w.
Proof.
  induction p as [|k rest IH]; intros q node v w node' Hset Hq.
  - right. left. apply isPrefix_nil.
  - destruct q as [|kq restq]; [destruct Hq|].
    destruct (String.eqb_spec k kq) as [->|Hne].
    + destruct rest as [|k' rest'].
      { right. left. exists restq. reflexivity. }
      destruct restq as [|kq' restq'].
      { left. exists (k' :: rest'). reflexivity. }
      rewrite reach_cons in Hq. destruct Hq as (child' & Hc' & Hr).
      rewrite setByParts_cons in Hset.
      assert (Hstep : forall child,
                 setByParts child (k' :: rest') v = Some child' ->
                 (reach child (kq' :: restq') w -> reach node (kq :: kq' :: restq') w) ->
                 isPrefix (kq :: kq' :: restq') (kq :: k' :: rest')
                 \/ isPrefix (kq :: k' :: rest') (kq :: kq' :: restq')
                 \/ reach node (kq :: kq' :: restq') w).
      { intros child E Hback.
        destruct (IH _ _ _ _ _ E Hr) as [H|[H|H]].
        - left. now apply isPrefix_cons.
        - right. left. now apply isPrefix_cons.
        - right. right. now apply Hback. }
      destruct (lookup kq node) as [[ | | | |l|child]|] eqn:Hnode;
        try (destruct (setByParts [] (k' :: rest') v) as [c|] eqn:E; [|discriminate];
             injection Hset as <-; rewrite assign_lookup in Hc';
             injection Hc' as <-; apply (Hstep [] E);
             intros Habs; now apply reach_nil in Habs).
      * discriminate.
      * destruct (setByParts child (k' :: rest') v) as [c|] eqn:E; [|discriminate].
        injection Hset as <-. rewrite assign_lookup in Hc'. injection Hc' as <-.
        apply (Hstep child E). intros Hchild. rewrite reach_cons.
        exists child. now split.
    + right. right.
      pose proof (@setByParts_keeps k rest kq node v node' Hset Hne) as Hkeep.
      destruct restq as [|kq' restq'].
      * cbn [reach] in *. now rewrite <- Hkeep.
      * rewrite reach_cons in *. destruct Hq as (child & Hc & Hr).
        exists child. split; [now rewrite <- Hkeep|exact Hr].
Qed.

(** Nothing sits in the patch but what the requested paths put there. *)
Lemma buildPatch_exact meta structures llmResult missing :
  forall patch0 patch parts w,
    buildPatch meta structures llmResult (Some patch0) missing = Ok (Some patch) ->
    reach patch parts w ->
    reach patch0 parts w
    \/ exists f, In f missing
                 /\ (isPrefix parts (split_dot f) \/ isPrefix (split_dot f) parts).
Proof.
  induction missing as [|g rest IH]; intros patch0 patch parts w Hbuild Hreach.
  - injection Hbuild as <-. now left.
  - cbn [buildPatch] in Hbuild.
    destruct (patchValue meta structures llmResult g) as [v|e]; [|discriminate].
    cbn [rbind] in Hbuild.
    destruct (setByPath patch0 g v) as [patch1|] eqn:Eset;
      [|now apply buildPatch_lost in Hbuild].
    destruct (IH patch1 patch parts w Hbuild Hreach) as [H1|(f & Hf & Hcmp)].
    + destruct (@setByParts_reach_inv _ _ _ _ _ _ Eset H1) as [H|[H|H]].
      * right. exists g. split; [now left|now left].
      * right. exists g. split; [now left|now right].
      * now left.
    + right. exists f. split; [now right|exact Hcmp].
Qed.

(** A requested key whose answer has no string conversion: no patch is
    made. *)
Lemma buildPatch_throws meta structures llmResult missing f e :
  In f missing -> patchValue meta structures llmResult f = Throw e ->
  forall patch0, exists e', buildPatch meta structures llmResult patch0 missing = Throw e'.
Proof.
  induction missing as [|g rest IH]; intros Hin Hf patch0; [destruct Hin|].
  cbn [buildPatch].
  destruct (patchValue meta structures llmResult g) as [v|e0] eqn:Eg.
  - cbn [rbind]. destruct Hin as [->|Hin]; [congruence|]. now apply IH.
  - now exists e0.
Qed.

Lemma memStr_cons f g rest : memStr f (g :: rest) = String.eqb f g || memStr f rest.
Proof. reflexivity. Qed.

Lemma legacy_buildPatch_from llmResult missing :
  forall patch0 patch f,
    Legacy.buildPatchFrom llmResult patch0 missing = Ok patch ->
    lookup f patch
    = if memStr f missing
      then match proposed llmResult f with
           | Ok text => Some (JStr text)
           | Throw _ => None
           end
      else lookup f patch0.
Proof.
  induction missing as [|g rest IH]; intros patch0 patch f Hbuild.
  - injection Hbuild as <-. reflexivity.
  - cbn [Legacy.buildPatchFrom] in Hbuild.
    destruct (proposed llmResult g) as [text|e] eqn:Eg; [|discriminate].
    cbn [rbind] in Hbuild. rewrite (IH _ _ f Hbuild), memStr_cons.
    destruct (memStr f rest); [now rewrite orb_true_r|]. rewrite orb_false_r.
    destruct (String.eqb_spec f g) as [->|Hne].
    + rewrite Eg. apply assign_lookup.
    + apply assign_lookup_other. congruence.
Qed.

Lemma legacy_buildPatch_requested_only r1 r2 missing :
  (forall f, In f missing -> optProp (Some r1) f = optProp (Some r2) f) ->
  forall patch0,
    Legacy.buildPatchFrom r1 patch0 missing = Legacy.buildPatchFrom r2 patch0 missing.
Proof.
  induction missing as [|g rest IH]; intros H patch0; [reflexivity|].
  cbn [Legacy.buildPatchFrom].
  assert (E : proposed r1 g = proposed r2 g).
  { unfold proposed. now rewrite (H g (or_introl eq_refl)). }
  rewrite E. destruct (proposed r2 g) as [text|e]; [|reflexivity].
  cbn [rbind]. apply IH. intros f Hf. apply H. now right.
Qed.

Lemma legacy_buildPatch_throws llmResult missing f e :
  In f missing -> proposed llmResult f = Throw e ->
  forall patch0, exists e', Legacy.buildPatchFrom llmResult patch0 missing = Throw e'.
Proof.
  induction missing as [|g rest IH]; intros Hin Hf patch0; [destruct Hin|].
  cbn [Legacy.buildPatchFrom].
  destruct (proposed llmResult g) as [text|e0] eqn:Eg.
  - cbn [rbind]. destruct Hin as [->|Hin]; [congruence|]. now apply IH.
  - now exists e0.
Qed.

(** The string conversion that succeeds is the default one. *)
Lemma toStringCall_default v : forall s, toStringCall v = Ok s -> s = toString v.
Proof.
  induction v as [|b|z|s0|l IH|kv _] using json_induction; intros text;
    cbn [toStringCall]; try (intros [= <-]; reflexivity).
  - cbn [toString].
    assert (G : forall parts,
               mapR (fun x => match x with
                              | JNull => Ok EmptyString
                              | _ => toStringCall x
                              end) l = Ok parts ->
               parts = map (fun x => match x with
                                     | JNull => EmptyString
                                     | _ => toString x
                                     end) l).
    { induction IH as [|x r Hx _ IHr]; intros parts; cbn [mapR map].
      - now intros [= <-].
      - destruct (match x with JNull => Ok EmptyString | _ => toStringCall x end)
          as [sx|e] eqn:Ex; [|discriminate]. cbn [rbind].
        destruct (mapR _ r) as [ps|e]; [|discriminate]. cbn [rbind].
        intros [= <-]. f_equal; [|now apply IHr].
        destruct x; try (now apply Hx); now injection Ex as <-. }
    destruct (mapR _ l) as [parts|e]; [|discriminate]. cbn [rbind].
    intros [= <-]. now rewrite (G parts eq_refl).
  - destruct (lookup "toString" kv); [discriminate|]. now intros [= <-].
Qed.

(** C10 (counterexample): a requested key that holds a number in the answer
    of the model is written as the decimal of the number, not as the empty
    string. *)
Lemma number_answer_is_converted :
  proposed numberAnswer "title" = Ok "5"
  /\ buildPatch titleMeta [] numberAnswer (Some []) ["title"]
     = Ok (Some [("title", JStr "5")])
  /\ Legacy.buildPatch numberAnswer ["title"] = Ok [("title", JStr "5")].
Proof. repeat split. Qed.

(** C10 (amended): for requested paths that are plain names (own reads of the
    answer, no segment [__proto__]): the patch of a locale holds, at every
    requested path, the value made for that path, and nothing that is not
    on the way to a requested path, at it or inside its value (requested
    paths that do not run through one another); in the plain-text hook the
    patch binds exactly the requested keys.  The patch depends on the
    answer of the model through the requested keys only.  The text
    proposed for a key is the empty string when the key is absent or null
    in the answer, and the string conversion of the answer otherwise: the
    string itself, the digits of a number, [true] or [false], the
    converted items of an array joined by commas, [[object Object]]; it is
    written as it is for plain fields and for rich text without a retained
    source structure, and reinjected into the structure otherwise.  When
    the conversion throws (an object with a property [toString] of its
    own) no patch is made. *)
Theorem patch_holds_requested_paths
  (meta : FieldMap) (structures : list (string * (Dialect * json)))
  (llmResult : json) (missing : list string) :
  (forall f, In f missing ->
             ownPath (Some llmResult) [f] = true /\ ~ In "__proto__" (split_dot f)) ->
  (forall patch,
      buildPatch meta structures llmResult (Some []) missing = Ok (Some patch) ->
      prefixFree missing ->
      (forall f, In f missing ->
                 exists v, patchValue meta structures llmResult f = Ok v
                           /\ getByPath (JObj patch) f = Some v)
      /\ (forall parts w,
             reach patch parts w ->
             exists f, In f missing
                       /\ (isPrefix parts (split_dot f)
                           \/ isPrefix (split_dot f) parts)))
  /\ (forall patch,
         Legacy.buildPatch llmResult missing = Ok patch ->
         forall f, lookup f patch
                   = if memStr f missing
                     then match proposed llmResult f with
                          | Ok text => Some (JStr text)
                          | Throw _ => None
                          end
                     else None)
  /\ (forall other,
         (forall f, In f missing ->
                    optProp (Some llmResult) f = optProp (Some other) f) ->
         buildPatch meta structures llmResult (Some []) missing
         = buildPatch meta structures other (Some []) missing
         /\ Legacy.buildPatch llmResult missing = Legacy.buildPatch other missing)
  /\ (forall f,
         (nullish (optProp (Some llmResult) f) = true ->
          proposed llmResult f = Ok EmptyString)
         /\ (forall v, optProp (Some llmResult) f = Some v -> v <> JNull ->
                       proposed llmResult f = toStringCall v
                       /\ (forall text, toStringCall v = Ok text -> text = toString v)
                       /\ (defaultString (Some v) = false ->
                           exists e, toStringCall v = Throw e)))
  /\ (forall s z b,
         toStringCall (JStr s) = Ok s
         /\ toStringCall (JNum z) = Ok (Z_to_string z)
         /\ toStringCall (JBool b) = Ok (if b then "true" else "false")
         /\ (forall kv, toStringCall (JObj kv)
                        = match lookup "toString" kv with
                          | Some _ => Throw (TypeError "toString is not a function")
                          | None => Ok "[object Object]"
                          end))
  /\ (forall f text,
         proposed llmResult f = Ok text ->
         (lookup f meta <> Some KRichText \/ lookup f structures = None ->
          patchValue meta structures llmResult f = Ok (JStr text))
         /\ (forall st, lookup f meta = Some KRichText ->
                        lookup f structures = Some (DSlate, st) ->
                        patchValue meta structures llmResult f
                        = translateSlateContent st text)
         /\ (forall st, lookup f meta = Some KRichText ->
                        lookup f structures = Some (DLexical, st) ->
                        patchValue meta structures llmResult f
                        = translateLexicalContent st text))
  /\ (forall f e,
         In f missing -> proposed llmResult f = Throw e ->
         (exists e', buildPatch meta structures llmResult (Some []) missing = Throw e')
         /\ (exists e', Legacy.buildPatch llmResult missing = Throw e')).
Proof.
  intros _.
  split; [|split; [|split; [|split; [|split; [|split]]]]].
  - intros patch Hbuild Hfree. split.
    + intros f Hf.
      destruct (@buildPatch_reach meta structures llmResult missing [] [] patch
                  Hbuild Hfree (fun g (H : In g []) => match H with end) f Hf)
        as (v & Hv & Hreach).
      exists v. split; [exact Hv|now apply reach_getByPath].
    + intros parts w Hreach.
      destruct (@buildPatch_exact meta structures llmResult missing [] patch parts w
                  Hbuild Hreach) as [H|H]; [now apply reach_nil in H|exact H].
  - intros patch Hbuild f. unfold Legacy.buildPatch in Hbuild.
    now rewrite (legacy_buildPatch_from _ _ _ f Hbuild).
  - intros other H. split.
    + now apply buildPatch_requested_only.
    + unfold Legacy.buildPatch. now apply legacy_buildPatch_requested_only.
  - intros f. unfold proposed. split.
    + destruct (optProp (Some llmResult) f) as [[]|]; simpl; try discriminate; reflexivity.
    + intros v -> Hv. split; [destruct v; try reflexivity; now elim Hv|].
      split; [apply toStringCall_default|].
      unfold defaultString. destruct (toStringCall v) as [text|e]; [discriminate|].
      intros _. now exists e.
  - intros s z b. split; [reflexivity|]. split; [reflexivity|].
    split; [now destruct b|]. intros kv. reflexivity.
  - intros f text Htext. unfold patchValue. rewrite Htext. cbn [rbind]. repeat split.
    + intros [H|H].
      * destruct (lookup f meta) as [[]|]; try reflexivity. congruence.
      * rewrite H. destruct (lookup f meta) as [[]|]; reflexivity.
    + intros st -> ->. reflexivity.
    + intros st -> ->. reflexivity.
  - intros f e Hf He. split.
    + apply (@buildPatch_throws meta structures llmResult missing f e Hf).
      unfold patchValue. now rewrite He.
    + unfold Legacy.buildPatch.
      now apply (@legacy_buildPatch_throws llmResult missing f e).
Qed.

(** The answer holds a number for the title, nothing for the body and a key
    that was not asked for; the body has a retained Slate structure. *)
Lemma patch_holds_requested_paths_witness :
  (exists v, patchValue [("title", KText); ("body", KRichText)]
               [("body", (DSlate, sampleSlate))] numberAnswer "body" = Ok v
             /\ getByPath
                  (JObj [("title", JStr "5");
                         ("body",
                          JArr [paragraph [slateText EmptyString;
                                           JObj [("text", JStr EmptyString);
                                                 ("bold", JBool true)]];
                                paragraph [slateText EmptyString]])])
                  "body" = Some v)
  /\ (forall parts w,
         reach [("title", JStr "5");
                ("body",
                 JArr [paragraph [slateText EmptyString;
                                  JObj [("text", JStr EmptyString);
                                        ("bold", JBool true)]];
                       paragraph [slateText EmptyString]])] parts w ->
         exists f, In f ["title"; "body"]
                   /\ (isPrefix parts (split_dot f) \/ isPrefix (split_dot f) parts)).
Proof.
  assert (Hnames : forall f, In f ["title"; "body"] ->
                             ownPath (Some numberAnswer) [f] = true
                             /\ ~ In "__proto__" (split_dot f)).
  { intros f [<-|[<-|[]]]; (split; [reflexivity|]);
      intros [H|[]]; discriminate H. }
  assert (Hfree : prefixFree ["title"; "body"]).
  { intros f g [<-|[<-|[]]] [<-|[<-|[]]] (r & E); try reflexivity;
      vm_compute in E; destruct r; discriminate. }
  pose proof (proj1 (@patch_holds_requested_paths
                       [("title", KText); ("body", KRichText)]
                       [("body", (DSlate, sampleSlate))] numberAnswer
                       ["title"; "body"] Hnames) _ eq_refl Hfree) as [Hat Hexact].
  split.
  - apply (Hat "body"). right. now left.
  - exact Hexact.
Defined.

(** ** Normal form of flattened text *)

Lemma count_nl_replace s :
  count_nl (replace_nl3 false s) = Nat.min 2 (count_nl s)
  /\ count_nl (replace_nl3 true s) = 0.
Proof.
  induction s as [|c r [IHf IHt]]; [split; reflexivity|].
  cbn [replace_nl3 count_nl].
  destruct (is_nl c) eqn:Hc.
  - split; [|exact IHt].
    destruct (2 <=? count_nl r)%nat eqn:H2.
    + apply Nat.leb_le in H2.
      cbn [count_nl]. unfold is_nl at 1 2. rewrite Ascii.eqb_refl, IHt. lia.
    + apply Nat.leb_gt in H2. cbn [count_nl]. rewrite Hc, IHf. lia.
  - cbn [count_nl]. rewrite Hc. split; reflexivity.
Qed.

Lemma tripleFree_replace s :
  tripleFree (replace_nl3 false s) = true /\ tripleFree (replace_nl3 true s) = true.
Proof.
  induction s as [|c r [IHf IHt]]; [split; reflexivity|].
  cbn [replace_nl3].
  destruct (is_nl c) eqn:Hc.
  - split; [|exact IHt].
    destruct (2 <=? count_nl r)%nat eqn:H2.
    + cbn [tripleFree count_nl]. unfold is_nl at 1 2 3. rewrite Ascii.eqb_refl.
      rewrite (proj2 (count_nl_replace r)), IHt. reflexivity.
    + apply Nat.leb_gt in H2. cbn [tripleFree]. rewrite Hc, IHf.
      rewrite (proj1 (count_nl_replace r)).
      replace (2 <=? Nat.min 2 (count_nl r))%nat with false; [reflexivity|].
      symmetry. apply Nat.leb_gt. lia.
  - cbn [tripleFree]. rewrite Hc, IHf. split; reflexivity.
Qed.

Lemma tripleFree_fixed s : tripleFree s = true -> replace_nl3 false s = s.
Proof.
  induction s as [|c r IH]; [reflexivity|].
  cbn [tripleFree replace_nl3]. intros H. apply andb_true_iff in H as [H1 H2].
  rewrite (IH H2).
  destruct (is_nl c); [|reflexivity].
  cbn [andb] in H1. apply negb_true_iff in H1. now rewrite H1.
Qed.

Lemma tripleFree_trimStart s : tripleFree s = true -> tripleFree (trimStart s) = true.
Proof.
  induction s as [|c r IH]; [reflexivity|].
  intros H. cbn [trimStart]. destruct (is_ws c); [|exact H].
  apply IH. cbn [tripleFree] in H. now apply andb_true_iff in H as [_ H].
Qed.

Lemma count_nl_trimEnd s : count_nl (trimEnd s) <= count_nl s.
Proof.
  induction s as [|c r IH]; [reflexivity|].
  cbn [trimEnd count_nl].
  destruct (trimEnd r) as [|c' r'] eqn:E.
  - destruct (is_ws c); cbn [count_nl]; destruct (is_nl c); lia.
  - cbn [count_nl] in *. destruct (is_nl c); lia.
Qed.

Lemma tripleFree_trimEnd s : tripleFree s = true -> tripleFree (trimEnd s) = true.
Proof.
  induction s as [|c r IH]; [reflexivity|].
  cbn [tripleFree trimEnd]. intros H. apply andb_true_iff in H as [H1 H2].
  specialize (IH H2). pose proof (count_nl_trimEnd r) as Hle.
  destruct (trimEnd r) as [|c' r'] eqn:E.
  - destruct (is_ws c); [reflexivity|].
    cbn [tripleFree count_nl]. now rewrite andb_false_r.
  - cbn [tripleFree]. cbn [tripleFree] in IH. rewrite IH, andb_true_r.
    apply negb_true_iff. apply negb_true_iff in H1.
    apply andb_false_iff in H1 as [H1|H1]; [now rewrite H1|].
    apply andb_false_iff. right. apply Nat.leb_gt. apply Nat.leb_gt in H1. lia.
Qed.

Lemma trimEnd_cons c r :
  trimEnd (String c r)
  = match trimEnd r with
    | EmptyString => if is_ws c then EmptyString else String c EmptyString
    | r' => String c r'
    end.
Proof. reflexivity. Qed.

Lemma trimEnd_idem s : trimEnd (trimEnd s) = trimEnd s.
Proof.
  induction s as [|c r IH]; [reflexivity|].
  rewrite trimEnd_cons. destruct (trimEnd r) as [|c' r'] eqn:E.
  - destruct (is_ws c) eqn:Hc; [reflexivity|]. cbn [trimEnd]. now rewrite Hc.
  - rewrite trimEnd_cons, IH. reflexivity.
Qed.

Lemma trimStart_idem s : trimStart (trimStart s) = trimStart s.
Proof.
  induction s as [|c r IH]; [reflexivity|].
  cbn [trimStart]. destruct (is_ws c) eqn:Hc; [exact IH|].
  cbn [trimStart]. now rewrite Hc.
Qed.

Lemma trimStart_trimEnd s : trimStart (trimEnd s) = trimEnd (trimStart s).
Proof.
  induction s as [|c r IH]; [reflexivity|].
  cbn [trimStart trimEnd]. destruct (is_ws c) eqn:Hc.
  - destruct (trimEnd r) as [|c' r'] eqn:E.
    + rewrite <- IH. reflexivity.
    + rewrite <- IH. cbn [trimStart]. now rewrite Hc.
  - cbn [trimEnd]. destruct (trimEnd r); cbn [trimStart]; now rewrite Hc.
Qed.

Lemma trim_idem s : trim (trim s) = trim s.
Proof.
  unfold trim. now rewrite trimStart_trimEnd, trimStart_idem, trimEnd_idem.
Qed.

(** The text that comes out of a flattener. *)
Lemma normalised_text s :
  let t := trim (collapseNewlines s) in
  trim t = t /\ collapseNewlines t = t /\ (blank t = true -> t = EmptyString).
Proof.
  cbv zeta. split; [apply trim_idem|]. split.
  - apply tripleFree_fixed. unfold trim. apply tripleFree_trimEnd, tripleFree_trimStart.
    apply tripleFree_replace.
  - unfold blank. rewrite trim_idem. intros H. apply Nat.eqb_eq in H.
    destruct (trim (collapseNewlines s)); [reflexivity|discriminate].
Qed.
Lemma slate_normalised val :
  blank (slateToPlain val) = true -> slateToPlain val = EmptyString.
Proof.
  unfold slateToPlain. destruct val as [[| | | |l|]|]; try reflexivity.
  apply normalised_text.
Qed.

Lemma lexicalToPlain_normalised val s :
  lexicalToPlain val = Ok s ->
  trim s = s /\ collapseNewlines s = s /\ (blank s = true -> s = EmptyString).
Proof.
  unfold lexicalToPlain.
  destruct (truthy _); cbn [negb].
  - destruct (optProp (optProp val "root") "children") as [[| | | |nodes|]|];
      try discriminate.
    destruct (walk nodes) as [x|e]; [|discriminate]. cbn [rbind].
    intros H. injection H as <-. apply normalised_text.
  - intros H. injection H as <-. repeat split.
Qed.

(** X5: the text that a flattener returns has no whitespace at either end and
    no run of three newlines: flattening never needs to be followed by a
    trim, and an answer that is blank is empty. *)
Theorem flattened_text_is_normalised (val : option json) :
  (trim (slateToPlain val) = slateToPlain val
   /\ tripleFree (slateToPlain val) = true
   /\ (blank (slateToPlain val) = true -> slateToPlain val = EmptyString))
  /\ (forall s, lexicalToPlain val = Ok s ->
                trim s = s /\ tripleFree s = true
                /\ (blank s = true -> s = EmptyString)).
Proof.
  split.
  - unfold slateToPlain. destruct val as [[| | | |l|]|]; try (repeat split; fail).
    destruct (normalised_text (join (String nl EmptyString) (map collect l)))
      as (H1 & H2 & H3).
    repeat split; [exact H1| |exact H3].
    unfold trim. apply tripleFree_trimEnd, tripleFree_trimStart, tripleFree_replace.
  - intros s H. destruct (lexicalToPlain_normalised val H) as (H1 & H2 & H3).
    repeat split; [exact H1| |exact H3].
    unfold lexicalToPlain in H. destruct (truthy _); cbn [negb] in H.
    + destruct (optProp (optProp val "root") "children") as [[| | | |nodes|]|];
        try discriminate.
      destruct (walk nodes) as [x|e]; [|discriminate]. cbn [rbind] in H.
      injection H as <-.
      unfold trim. apply tripleFree_trimEnd, tripleFree_trimStart, tripleFree_replace.
    + injection H as <-. reflexivity.
Qed.

Lemma flattened_text_is_normalised_witness :
  trim "Hello
world again" = "Hello
world again"
  /\ tripleFree "Hello
world again" = true
  /\ (blank "Hello
world again" = true -> "Hello
world again" = EmptyString).
Proof.
  apply (proj2 (flattened_text_is_normalised (Some sampleLexical))).
  reflexivity.
Defined.

(** X6: a value that counts for the content score of a locale is never reported
    missing when the same locale is a target, whatever the kind of the
    field. *)
Theorem counted_content_is_not_missing (kind : option FieldKind) (val : option json) :
  fieldHasContent val = Ok true -> fieldEmpty kind val = Ok false.
Proof.
  unfold fieldHasContent. intros H.
  destruct val as [[|b|z|s|l|kv]|]; try (cbn in H; discriminate H).
  - destruct b; cbn in H; discriminate H.
  - unfold looksLikeLexical in H. cbn in H. destruct (negb (z =? 0)%Z); cbn in H; discriminate H.
  - cbn [isString strOf andb] in H.
    destruct (blank s) eqn:Hb.
    { unfold looksLikeLexical in H. cbn in H.
      destruct (negb (String.eqb s EmptyString)); cbn in H; discriminate H. }
    assert (Hx : looksLikeLexical (Some (JStr s)) = false).
    { unfold looksLikeLexical. cbn. now destruct (negb (String.eqb s EmptyString)). }
    unfold fieldEmpty.
    cbn [nullish isString isArray strOf looksLikeSlate orb andb arrayLength].
    rewrite Hx, trim_empty_iff, Hb.
    destruct kind as [[]|]; reflexivity.
  - cbn [isString andb] in H.
    destruct (looksLikeSlate (Some (JArr l))) eqn:Hs; cbn [andb] in H.
    + destruct (Nat.eqb _ 0) eqn:Hlen; [discriminate H|].
      apply Nat.eqb_neq in Hlen.
      assert (Hb : blank (slateToPlain (Some (JArr l))) = false).
      { destruct (blank _) eqn:Hb; [|reflexivity].
        apply slate_normalised in Hb.
        rewrite Hb in Hlen. now elim Hlen. }
      assert (Hl : l <> []) by (intros ->; now apply Hlen).
      unfold fieldEmpty. cbn [nullish isString isArray arrayLength orb andb].
      rewrite Hs, Hb.
      destruct l; [now elim Hl|]. destruct kind as [[]|]; reflexivity.
    + discriminate H.
  - cbn [isString andb looksLikeSlate] in H.
    destruct (looksLikeLexical (Some (JObj kv))) eqn:Hx; [|discriminate H].
    destruct (lexicalToPlain (Some (JObj kv))) as [s|e] eqn:Hp; [|discriminate H].
    cbn [rbind] in H. injection H as H. apply negb_true_iff, Nat.eqb_neq in H.
    assert (Hb : blank s = false).
    { destruct (blank s) eqn:Hb; [|reflexivity].
      apply (proj2 (proj2 (lexicalToPlain_normalised _ Hp))) in Hb.
      rewrite Hb in H. now elim H. }
    unfold fieldEmpty. cbn [nullish isString isArray looksLikeSlate orb andb].
    rewrite Hx, Hp. cbn [rbind]. rewrite Hb.
    destruct kind as [[]|]; reflexivity.
Qed.

Lemma counted_content_is_not_missing_witness :
  fieldEmpty (Some KRichText) (Some sampleSlate) = Ok false
  /\ fieldEmpty (Some KText) (Some (JStr " a ")) = Ok false.
Proof.
  split; apply counted_content_is_not_missing; reflexivity.
Defined.

(** ** Newlines around a text *)

Lemma is_nl_ws c : is_nl c = true -> is_ws c = true.
Proof. intros H. apply is_nl_eq in H. subst c. reflexivity. Qed.

Lemma dropNl_fixed s : count_nl s = 0 -> dropNl s = s.
Proof.
  destruct s as [|c r]; [reflexivity|]. cbn [count_nl dropNl].
  destruct (is_nl c); [discriminate|reflexivity].
Qed.

Lemma dropNl_replace s : dropNl (replace_nl3 false s) = replace_nl3 true s.
Proof.
  induction s as [|c r IH]; [reflexivity|].
  cbn [replace_nl3]. destruct (is_nl c) eqn:Hc.
  - destruct (2 <=? count_nl r)%nat.
    + cbn [dropNl]. unfold is_nl at 1 2. rewrite Ascii.eqb_refl.
      apply dropNl_fixed, count_nl_replace.
    + cbn [dropNl]. now rewrite Hc.
  - cbn [dropNl]. now rewrite Hc.
Qed.

Lemma replace_dropNl s : replace_nl3 true s = replace_nl3 false (dropNl s).
Proof.
  induction s as [|c r IH]; [reflexivity|].
  cbn [replace_nl3 dropNl]. destruct (is_nl c) eqn:Hc; [exact IH|].
  cbn [replace_nl3]. now rewrite Hc.
Qed.

Lemma trimStart_dropNl s : trimStart (dropNl s) = trimStart s.
Proof.
  induction s as [|c r IH]; [reflexivity|].
  cbn [dropNl trimStart]. destruct (is_nl c) eqn:Hc; [|reflexivity].
  now rewrite (is_nl_ws _ Hc).
Qed.

Lemma dropNl_replicate a s : dropNl (replicate a nl s) = dropNl s.
Proof.
  induction a as [|a IH]; [reflexivity|].
  cbn [replicate dropNl]. unfold is_nl at 1. now rewrite Ascii.eqb_refl.
Qed.

(** Newlines before the text are lost in the normal form. *)
Lemma trimStart_collapse_leading a s :
  trimStart (collapseNewlines (replicate a nl s)) = trimStart (collapseNewlines s).
Proof.
  unfold collapseNewlines.
  rewrite <- trimStart_dropNl, dropNl_replace, replace_dropNl, dropNl_replicate,
    <- replace_dropNl, <- dropNl_replace.
  apply trimStart_dropNl.
Qed.

Lemma whitespaceOnly_replace inside s :
  whitespaceOnly s = true -> whitespaceOnly (replace_nl3 inside s) = true.
Proof.
  revert inside. induction s as [|c r IH]; intros inside; [reflexivity|].
  cbn [whitespaceOnly replace_nl3]. intros H. apply andb_true_iff in H as [Hc Hr].
  destruct (is_nl c); [destruct inside; [|destruct (2 <=? count_nl r)%nat]|];
    cbn [whitespaceOnly]; rewrite ?Hc, ?IH; auto.
Qed.

Lemma trimEnd_whitespaceOnly s : whitespaceOnly s = true -> trimEnd s = EmptyString.
Proof.
  induction s as [|c r IH]; [reflexivity|].
  cbn [whitespaceOnly]. intros H. apply andb_true_iff in H as [Hc Hr].
  rewrite trimEnd_cons, (IH Hr), Hc. reflexivity.
Qed.

Lemma whitespaceOnly_newlines b : whitespaceOnly (replicate b nl EmptyString) = true.
Proof. induction b as [|b IH]; [reflexivity|]. cbn [replicate whitespaceOnly]. now rewrite IH. Qed.

Lemma whitespaceOnly_app s t :
  whitespaceOnly (s ++ t) = whitespaceOnly s && whitespaceOnly t.
Proof.
  induction s as [|c r IH]; [reflexivity|].
  cbn [String.append whitespaceOnly]. now rewrite IH, andb_assoc.
Qed.

Lemma count_nl_app_cases r t :
  count_nl (r ++ t) = count_nl r \/ whitespaceOnly r = true.
Proof.
  induction r as [|c r IH]; [now right|].
  cbn [String.append count_nl whitespaceOnly].
  destruct (is_nl c) eqn:Hc; [|now left].
  rewrite (is_nl_ws _ Hc). destruct IH as [ -> | -> ]; [now left|now right].
Qed.

(** Newlines after the text are lost in the normal form. *)
Lemma trimEnd_collapse_trailing b s inside :
  trimEnd (replace_nl3 inside (s ++ replicate b nl EmptyString))
  = trimEnd (replace_nl3 inside s).
Proof.
  revert inside. induction s as [|c r IH]; intros inside.
  - cbn [String.append replace_nl3 trimEnd].
    apply trimEnd_whitespaceOnly, whitespaceOnly_replace, whitespaceOnly_newlines.
  - destruct (count_nl_app_cases r (replicate b nl EmptyString)) as [Hcount|Hws].
    + cbn [String.append replace_nl3]. rewrite Hcount.
      destruct (is_nl c); [destruct inside; [|destruct (2 <=? count_nl r)%nat]|];
        rewrite ?trimEnd_cons, ?IH; reflexivity.
    + destruct (is_ws c) eqn:Hc.
      * rewrite !trimEnd_whitespaceOnly; [reflexivity| |];
          apply whitespaceOnly_replace; cbn [String.append whitespaceOnly];
          rewrite ?whitespaceOnly_app, Hc, Hws, ?whitespaceOnly_newlines; reflexivity.
      * assert (Hn : is_nl c = false).
        { destruct (is_nl c) eqn:Hn; [|reflexivity].
          apply is_nl_ws in Hn. congruence. }
        cbn [String.append replace_nl3]. rewrite Hn, !trimEnd_cons, IH. reflexivity.
Qed.

Lemma append_assoc (s t u : string) : ((s ++ t) ++ u = s ++ (t ++ u))%string.
Proof. induction s as [|c r IH]; [reflexivity|]. cbn [String.append]. now rewrite IH. Qed.

Lemma append_nil_r (s : string) : (s ++ EmptyString = s)%string.
Proof. induction s as [|c r IH]; [reflexivity|]. cbn [String.append]. now rewrite IH. Qed.

Lemma replicate_append a (s t : string) :
  (replicate a nl s ++ t = replicate a nl (s ++ t))%string.
Proof. induction a as [|a IH]; [reflexivity|]. cbn [replicate String.append]. now rewrite IH. Qed.

Lemma replicate_add a b (s : string) :
  replicate a nl (replicate b nl s) = replicate (a + b) nl s.
Proof. induction a as [|a IH]; [reflexivity|]. cbn [replicate Nat.add]. now rewrite IH. Qed.

(** A text between newlines has the normal form of the text alone. *)
Lemma normalise_padded x z : padded x z -> normalise z = normalise x.
Proof.
  intros (a & b & ->). unfold normalise, pad, trim.
  rewrite trimStart_collapse_leading, <- !trimStart_trimEnd.
  unfold collapseNewlines. now rewrite trimEnd_collapse_trailing.
Qed.

Lemma padded_refl x : padded x x.
Proof. exists 0, 0. unfold pad. cbn [replicate]. now rewrite append_nil_r. Qed.

Lemma padded_newline : padded EmptyString (String nl EmptyString).
Proof. now exists 1, 0. Qed.

Lemma pad_empty a b : pad a EmptyString b = replicate (a + b) nl EmptyString.
Proof. unfold pad. cbn [String.append]. apply replicate_add. Qed.

Lemma padded_before x z1 z2 :
  padded EmptyString z1 -> padded x z2 -> padded x (z1 ++ z2).
Proof.
  intros (a1 & b1 & ->) (a2 & b2 & ->). exists (a1 + b1 + a2), b2.
  rewrite pad_empty. unfold pad.
  rewrite replicate_append. cbn [String.append]. apply replicate_add.
Qed.

Lemma padded_after x z1 z2 :
  padded x z1 -> padded EmptyString z2 -> padded x (z1 ++ z2).
Proof.
  intros (a1 & b1 & ->) (a2 & b2 & ->). exists a1, (b1 + (a2 + b2)).
  rewrite pad_empty. unfold pad.
  rewrite replicate_append, append_assoc, replicate_append. cbn [String.append].
  now rewrite replicate_add.
Qed.
(** ** Flattening a relabelled document *)

Lemma join_cons sep z zs :
  join sep (z :: zs)
  = (z ++ match zs with
          | [] => EmptyString
          | _ :: _ => sep ++ join sep zs
          end)%string.
Proof. destruct zs; [symmetry; apply append_nil_r|reflexivity]. Qed.

Lemma textOf_empty g ps :
  (forall p, In p ps -> g p = EmptyString) -> textOf g ps = EmptyString.
Proof. destruct ps as [|p ps]; [reflexivity|]. intros H. apply H. now left. Qed.

Section Flattening.
Variable isTextNode : list (string * json) -> bool.
Variable flat : json -> string.

(** Siblings: the first labelled text, between newlines, when every node
    gives its own between newlines and the separator is made of newlines. *)
Lemma forest_padded sep l :
  padded EmptyString sep ->
  Forall (fun x => forall g, restEmpty g (pathsOfNode isTextNode x) ->
                             padded (textOf g (pathsOfNode isTextNode x))
                                    (flat (relabelNode isTextNode g x))) l ->
  forall g i, restEmpty g (pathsFrom isTextNode i l) ->
              padded (textOf g (pathsFrom isTextNode i l))
                     (join sep (map flat (relabelFrom isTextNode g i l))).
Proof.
  intros Hsep Hall. induction Hall as [|x r Hx Hr IH]; intros g i Hrest.
  - apply padded_refl.
  - cbn [relabelFrom map pathsFrom] in *. rewrite join_cons.
    assert (Htail : forall z, padded z (join sep (map flat
                                  (relabelFrom isTextNode g (S i) r))) ->
                    padded z match map flat (relabelFrom isTextNode g (S i) r) with
                             | [] => EmptyString
                             | _ :: _ => (sep ++ join sep (map flat
                                            (relabelFrom isTextNode g (S i) r)))%string
                             end).
    { intros z Hz. destruct (map flat _) eqn:E; [exact Hz|].
      now apply padded_before. }
    destruct (pathsOfNode isTextNode x) as [|a0 A] eqn:EA.
    + cbn [map app] in *.
      apply padded_before.
      * specialize (Hx (fun q => g (i :: q))).
        apply Hx. intros p [].
      * apply Htail, IH, Hrest.
    + cbn [map app textOf] in *.
      apply padded_after.
      * specialize (Hx (fun q => g (i :: q))).
        apply Hx. intros p Hp. apply Hrest. cbn [tl] in *.
        apply in_or_app. left. now apply in_map.
      * apply Htail.
        assert (Hempty : forall p, In p (pathsFrom isTextNode (S i) r) ->
                                   g p = EmptyString).
        { intros p Hp. apply Hrest. cbn [tl]. apply in_or_app. now right. }
        rewrite <- (textOf_empty g _ Hempty).
        apply IH. intros p Hp. apply Hempty.
        destruct (pathsFrom isTextNode (S i) r); [destruct Hp|now right].
Qed.
End Flattening.

Lemma collect_eq kv :
  collect (JObj kv)
  = match lookup "text" kv with
    | Some (JStr t) => t
    | _ => match lookup "children" kv with
           | Some (JArr l) => join EmptyString (map collect l)
           | _ => EmptyString
           end
    end.
Proof.
  cbn [collect]. rewrite childrenArray_eq.
  destruct (lookup "text" kv) as [[| | |t| |]|];
    destruct (lookup "children" kv) as [[| | | |l|]|]; reflexivity.
Qed.

Lemma flattenNode_eq kv :
  flattenNode (JObj kv)
  = match strEq (lookup "type" kv) "text", lookup "text" kv with
    | true, Some (JStr t) => t
    | _, _ => match lookup "children" kv with
              | Some (JArr l) => join EmptyString (map flattenNode l)
              | _ => if strEq (lookup "type" kv) "linebreak"
                     then String nl EmptyString else EmptyString
              end
    end.
Proof.
  cbn [flattenNode]. rewrite childrenArray_eq.
  destruct (lookup "children" kv) as [[| | | |l|]|]; try reflexivity.
  rewrite join_empty_fold, fold_flatten. reflexivity.
Qed.

(** What [collect] finds in a relabelled Slate node. *)
Lemma collect_relabel n :
  forall g, restEmpty g (pathsOfNode isSlateText n) ->
            padded (textOf g (pathsOfNode isSlateText n))
                   (collect (relabelNode isSlateText g n)).
Proof.
  induction n as [n IH] using node_induction. intros g Hrest.
  destruct n as [| | | |l|kv]; try apply padded_refl.
  rewrite relabelNode_eq, pathsOfNode_eq in *. cbv zeta.
  destruct (isSlateText kv) eqn:Htext.
  - cbn [setText app textOf]. rewrite collect_eq, assign_lookup. apply padded_refl.
  - cbn [app] in *. rewrite collect_eq.
    rewrite update_first_lookup_other by discriminate.
    unfold isSlateText in Htext.
    destruct (lookup "text" kv) as [v|] eqn:Et; [discriminate|].
    rewrite update_first_lookup.
    destruct (lookup "children" kv) as [[| | | |l|]|] eqn:Ec;
      cbn [option_map]; try apply padded_refl.
    apply forest_padded; [apply padded_refl| |exact Hrest].
    apply (IH kv l eq_refl Ec).
Qed.

(** What the flattening finds in a relabelled Lexical node. *)
Lemma flattenNode_relabel n :
  forall g, restEmpty g (pathsOfNode isLexicalText n) ->
            padded (textOf g (pathsOfNode isLexicalText n))
                   (flattenNode (relabelNode isLexicalText g n)).
Proof.
  induction n as [n IH] using node_induction. intros g Hrest.
  destruct n as [| | | |l|kv]; try apply padded_refl.
  rewrite relabelNode_eq, pathsOfNode_eq in *. cbv zeta.
  destruct (isLexicalText kv) eqn:Htext.
  - cbn [setText app textOf]. rewrite flattenNode_eq, assign_lookup.
    rewrite assign_lookup_other by discriminate.
    rewrite update_first_lookup_other by discriminate.
    unfold isLexicalText in Htext. rewrite Htext. apply padded_refl.
  - cbn [app] in *. rewrite flattenNode_eq.
    rewrite update_first_lookup_other by discriminate.
    unfold isLexicalText in Htext. rewrite Htext.
    rewrite update_first_lookup.
    assert (Hgo : padded (textOf g match lookup "children" kv with
                                   | Some (JArr l) => pathsFrom isLexicalText 0 l
                                   | _ => []
                                   end)
                    match option_map (fun c => match c with
                                               | JArr l => JArr (relabelFrom isLexicalText g 0 l)
                                               | _ => c
                                               end) (lookup "children" kv) with
                    | Some (JArr l) => join EmptyString (map flattenNode l)
                    | _ => if strEq (lookup "type" kv) "linebreak"
                           then String nl EmptyString else EmptyString
                    end).
    { destruct (lookup "children" kv) as [[| | | |l|]|] eqn:Ec; cbn [option_map];
        try (destruct (strEq (lookup "type" kv) "linebreak");
             [apply padded_newline|apply padded_refl]).
      apply forest_padded; [apply padded_refl| |exact Hrest].
      apply (IH kv l eq_refl Ec). }
    exact Hgo.
Qed.
(** ** Reinjection, again *)

Lemma wfNode_eq kv :
  wfNode (JObj kv)
  = match lookup "children" kv with
    | Some (JArr l) => forallb wfNode l
    | Some _ => false
    | None => true
    end.
Proof.
  cbn [wfNode]. rewrite lookup_with_lookup.
  destruct (lookup "children" kv) as [[| | | |l|]|]; reflexivity.
Qed.

Lemma assign_twice {A} k (v w : A) kv : assign k w (assign k v kv) = assign k w kv.
Proof.
  induction kv as [|[k' v'] r IH]; cbn [assign].
  - now rewrite String.eqb_refl.
  - destruct (String.eqb k' k) eqn:E; cbn [assign].
    + now rewrite String.eqb_refl.
    + now rewrite E, IH.
Qed.

Section Reinjected.
Variable isTextNode : list (string * json) -> bool.

Lemma relabelFrom_wf l :
  Forall (fun n => forall g, wfNode (relabelNode isTextNode g n) = wfNode n) l ->
  forall g i, forallb wfNode (relabelFrom isTextNode g i l) = forallb wfNode l.
Proof.
  intros H. induction H as [|x r Hx Hr IH]; intros g i; [reflexivity|].
  cbn [relabelFrom forallb]. now rewrite Hx, IH.
Qed.

Lemma relabelNode_wf n : forall g, wfNode (relabelNode isTextNode g n) = wfNode n.
Proof.
  induction n as [n IH] using node_induction. intros g.
  destruct n as [| | | |l|kv]; try reflexivity.
  rewrite relabelNode_eq. cbv zeta.
  assert (E : wfNode (JObj (update_first "children"
                (fun c => match c with
                          | JArr l => JArr (relabelFrom isTextNode g 0 l)
                          | _ => c
                          end) kv)) = wfNode (JObj kv)).
  { rewrite !wfNode_eq, update_first_lookup.
    destruct (lookup "children" kv) as [[| | | |l|]|] eqn:Ec; try reflexivity.
    cbn [option_map]. apply relabelFrom_wf. apply (IH kv l eq_refl Ec). }
  destruct (isTextNode kv); [|exact E].
  cbn [setText]. rewrite wfNode_eq, assign_lookup_other by discriminate.
  rewrite <- wfNode_eq. exact E.
Qed.

Hypothesis isText_children :
  forall f kv, isTextNode (update_first "children" f kv) = isTextNode kv.
Hypothesis isText_assigned :
  forall v kv, isTextNode kv = true -> isTextNode (assign "text" v kv) = true.

Lemma relabelFrom_paths l :
  Forall (fun n => forall g, pathsOfNode isTextNode (relabelNode isTextNode g n)
                             = pathsOfNode isTextNode n) l ->
  forall g i, pathsFrom isTextNode i (relabelFrom isTextNode g i l)
              = pathsFrom isTextNode i l.
Proof.
  intros H. induction H as [|x r Hx Hr IH]; intros g i; [reflexivity|].
  cbn [relabelFrom pathsFrom]. now rewrite Hx, IH.
Qed.

Lemma relabelNode_paths n :
  forall g, pathsOfNode isTextNode (relabelNode isTextNode g n)
            = pathsOfNode isTextNode n.
Proof.
  induction n as [n IH] using node_induction. intros g.
  destruct n as [| | | |l|kv]; try reflexivity.
  rewrite relabelNode_eq. cbv zeta.
  assert (E : pathsOfNode isTextNode (JObj (update_first "children"
                (fun c => match c with
                          | JArr l => JArr (relabelFrom isTextNode g 0 l)
                          | _ => c
                          end) kv)) = pathsOfNode isTextNode (JObj kv)).
  { rewrite !pathsOfNode_eq, isText_children, update_first_lookup.
    destruct (lookup "children" kv) as [[| | | |l|]|] eqn:Ec; try reflexivity.
    cbn [option_map]. f_equal. apply relabelFrom_paths. apply (IH kv l eq_refl Ec). }
  destruct (isTextNode kv) eqn:Ht; [|exact E].
  cbn [setText]. rewrite pathsOfNode_eq in *.
  rewrite isText_assigned by (now rewrite isText_children).
  rewrite isText_children, Ht in E.
  rewrite assign_lookup_other by discriminate. exact E.
Qed.

Lemma relabelFrom_twice l :
  Forall (fun n => forall g g', relabelNode isTextNode g' (relabelNode isTextNode g n)
                                = relabelNode isTextNode g' n) l ->
  forall g g' i, relabelFrom isTextNode g' i (relabelFrom isTextNode g i l)
                 = relabelFrom isTextNode g' i l.
Proof.
  intros H. induction H as [|x r Hx Hr IH]; intros g g' i; [reflexivity|].
  cbn [relabelFrom]. now rewrite Hx, IH.
Qed.

Lemma relabelNode_twice n :
  forall g g', relabelNode isTextNode g' (relabelNode isTextNode g n)
               = relabelNode isTextNode g' n.
Proof.
  induction n as [n IH] using node_induction. intros g g'.
  destruct n as [| | | |l|kv]; try reflexivity.
  rewrite (relabelNode_eq isTextNode g kv). cbv zeta.
  set (F := fun h c => match c with
                       | JArr l => JArr (relabelFrom isTextNode h 0 l)
                       | _ => c
                       end).
  assert (E : update_first "children" (F g') (update_first "children" (F g) kv)
              = update_first "children" (F g') kv).
  { rewrite update_first_twice. apply update_first_ext. intros v Hv.
    destruct v as [| | | |l|]; try reflexivity. unfold F. f_equal.
    apply relabelFrom_twice. apply (IH kv l eq_refl Hv). }
  destruct (isTextNode kv) eqn:Ht.
  - cbn [setText]. rewrite !relabelNode_eq. cbv zeta. fold (F g').
    rewrite isText_assigned by (now rewrite isText_children).
    rewrite Ht. cbn [setText].
    rewrite update_first_assign by discriminate.
    fold (F g). rewrite E, assign_twice. reflexivity.
  - rewrite !relabelNode_eq. cbv zeta. fold (F g') (F g).
    rewrite isText_children, Ht, E. reflexivity.
Qed.

(** The reinjected nodes are the single pass that labels the first
    reference with the text and the others with the empty string. *)
Lemma reinjected_relabel t nodes first others :
  pathsFrom isTextNode 0 nodes = first :: others ->
  reinjected isTextNode t nodes = relabelFrom isTextNode (textFor t first) 0 nodes
  /\ restEmpty (textFor t first) (first :: others).
Proof.
  intros Eps. unfold reinjected.
  assert (Hnd : NoDup (pathsFrom isTextNode 0 nodes)).
  { apply pathsFrom_NoDup. apply Forall_forall. intros n _. apply pathsOfNode_NoDup. }
  rewrite Eps in *. inversion Hnd as [|? ? Hnot Hnd']; subst.
  split.
  - rewrite (@replaceText_assign t first others nodes Hnot), <- Eps.
    apply assignTexts_relabel.
  - intros p Hp. cbn [tl] in Hp. unfold textFor.
    destruct (path_eqb p first) eqn:E; [|reflexivity].
    apply path_eqb_eq in E. subst p. now elim Hnot.
Qed.

Lemma reinjected_none t nodes :
  pathsFrom isTextNode 0 nodes = [] -> reinjected isTextNode t nodes = nodes.
Proof. unfold reinjected. now intros ->. Qed.

Lemma reinjected_wf t nodes :
  forallb wfNode (reinjected isTextNode t nodes) = forallb wfNode nodes.
Proof.
  destruct (pathsFrom isTextNode 0 nodes) as [|first others] eqn:Eps.
  - now rewrite reinjected_none.
  - rewrite (proj1 (reinjected_relabel t nodes Eps)).
    apply relabelFrom_wf. apply Forall_forall. intros n _. apply relabelNode_wf.
Qed.

Lemma reinjected_paths t nodes :
  pathsFrom isTextNode 0 (reinjected isTextNode t nodes) = pathsFrom isTextNode 0 nodes.
Proof.
  destruct (pathsFrom isTextNode 0 nodes) as [|first others] eqn:Eps.
  - now rewrite reinjected_none.
  - rewrite (proj1 (reinjected_relabel t nodes Eps)), <- Eps.
    apply relabelFrom_paths. apply Forall_forall. intros n _. apply relabelNode_paths.
Qed.

Lemma reinjected_twice s t nodes :
  reinjected isTextNode t (reinjected isTextNode s nodes) = reinjected isTextNode t nodes.
Proof.
  destruct (pathsFrom isTextNode 0 nodes) as [|first others] eqn:Eps.
  - now rewrite !reinjected_none by (rewrite ?reinjected_none; assumption).
  - assert (Eps' := reinjected_paths s nodes). rewrite Eps in Eps'.
    rewrite (proj1 (reinjected_relabel t _ Eps')).
    rewrite (proj1 (reinjected_relabel s nodes Eps)).
    rewrite (proj1 (reinjected_relabel t nodes Eps)).
    apply relabelFrom_twice. apply Forall_forall. intros n _. apply relabelNode_twice.
Qed.

(** The flattening of reinjected nodes, for a flattening of relabelled
    nodes that gives the first labelled text between newlines. *)
Lemma reinjected_padded (flat : json -> string) sep t nodes :
  padded EmptyString sep ->
  (forall n g, restEmpty g (pathsOfNode isTextNode n) ->
               padded (textOf g (pathsOfNode isTextNode n))
                      (flat (relabelNode isTextNode g n))) ->
  pathsFrom isTextNode 0 nodes <> [] ->
  padded t (join sep (map flat (reinjected isTextNode t nodes))).
Proof.
  intros Hsep Hflat Hne.
  destruct (pathsFrom isTextNode 0 nodes) as [|first others] eqn:Eps; [now elim Hne|].
  destruct (reinjected_relabel t nodes Eps) as [-> Hrest].
  assert (Ht : t = textOf (textFor t first) (pathsFrom isTextNode 0 nodes)).
  { rewrite Eps. cbn [textOf]. unfold textFor.
    now rewrite (proj2 (path_eqb_eq first first) eq_refl). }
  rewrite Ht at 1.
  apply forest_padded; [exact Hsep| |now rewrite Eps].
  apply Forall_forall. intros n _. apply Hflat.
Qed.
End Reinjected.
Lemma translateSlate_nodes nodes s :
  forallb wfNode nodes = true ->
  translateSlateContent (JArr nodes) s = Ok (JArr (reinjected isSlateText s nodes)).
Proof.
  intros Hwf. unfold translateSlateContent, deepClone.
  now rewrite (@findTextNodes_paths isSlateText nodes Hwf).
Qed.

Lemma translateLexical_nodes kv rkv nodes s :
  lookup "root" kv = Some (JObj rkv) ->
  lookup "children" rkv = Some (JArr nodes) ->
  forallb wfNode nodes = true ->
  translateLexicalContent (JObj kv) s
  = Ok (JObj (update_first "root"
                (onChildren (fun _ => reinjected isLexicalText s nodes)) kv)).
Proof.
  intros Hroot Hch Hwf. unfold translateLexicalContent, deepClone.
  cbn [optProp prop]. rewrite Hroot. cbn [truthy negb optProp prop]. rewrite Hch.
  rewrite (@findTextNodes_paths isLexicalText nodes Hwf). cbn [rbind].
  do 2 f_equal. apply update_first_ext. intros v Hv.
  rewrite Hroot in Hv. injection Hv as <-. cbn [onChildren]. f_equal.
  apply update_first_ext. intros c Hc. rewrite Hch in Hc. now injection Hc as <-.
Qed.

Lemma rootChildren_reinjected kv rkv nodes (f : list json -> list json) :
  lookup "root" kv = Some (JObj rkv) ->
  lookup "children" rkv = Some (JArr nodes) ->
  exists rkv',
    lookup "root" (update_first "root" (onChildren f) kv) = Some (JObj rkv')
    /\ lookup "children" rkv' = Some (JArr (f nodes)).
Proof.
  intros Hroot Hch. eexists. rewrite update_first_lookup, Hroot. cbn [option_map onChildren].
  split; [reflexivity|]. now rewrite update_first_lookup, Hch.
Qed.

Lemma RootedTree_parts D :
  RootedTree D ->
  exists kv rkv, D = JObj kv /\ lookup "root" kv = Some (JObj rkv)
                 /\ (lookup "children" rkv = None
                     \/ exists nodes, lookup "children" rkv = Some (JArr nodes)
                                      /\ forallb wfNode nodes = true).
Proof.
  intros (Hlex & Hch).
  destruct (looksLikeLexical_root _ Hlex) as (kv & rkv & -> & Hroot).
  exists kv, rkv. repeat split; [exact Hroot|].
  unfold rootChildren in Hch. cbn [optProp prop] in Hch. rewrite Hroot in Hch.
  exact Hch.
Qed.

Lemma translateLexical_childless kv rkv s :
  lookup "root" kv = Some (JObj rkv) -> lookup "children" rkv = None ->
  translateLexicalContent (JObj kv) s = Ok (JObj kv).
Proof.
  intros Hroot Hch. unfold translateLexicalContent, deepClone.
  cbn [optProp prop]. rewrite Hroot. cbn [truthy negb optProp prop]. rewrite Hch.
  cbn [findTextNodes rbind]. do 2 f_equal.
  apply update_first_id. intros v _. apply onChildren_same.
Qed.

Lemma leafTexts_paths isTextNode nodes :
  leafTexts isTextNode nodes <> [] -> pathsFrom isTextNode 0 nodes <> [].
Proof.
  intros H E. apply H. pose proof (leafTexts_count isTextNode nodes 0) as Hlen.
  rewrite E in Hlen. now destruct (leafTexts isTextNode nodes).
Qed.

(** X7: flattening what reinjection gives: the string that was reinjected, in
    normal form (newlines collapsed, ends trimmed), for every recognised
    document that has a text node. *)
Theorem flatten_after_reinjection :
  (forall D s, TreeOfNodes D -> leafTexts isSlateText (nodesOf D) <> [] ->
     exists D', translateSlateContent D s = Ok D'
                /\ slateToPlain (Some D') = trim (collapseNewlines s))
  /\ (forall D s, RootedTree D -> leafTexts isLexicalText (nodesOf D) <> [] ->
        exists D', translateLexicalContent D s = Ok D'
                   /\ lexicalToPlain (Some D') = Ok (trim (collapseNewlines s))).
Proof.
  split.
  - intros D s (_ & nodes & -> & Hwf) Hleaf. cbn [nodesOf] in Hleaf.
    rewrite (@translateSlate_nodes nodes s Hwf). eexists. split; [reflexivity|].
    cbn [slateToPlain]. apply (@normalise_padded s).
    apply reinjected_padded;
      [apply padded_newline|intros n g; apply collect_relabel|
       now apply leafTexts_paths].
  - intros D s HD Hleaf.
    destruct (@RootedTree_parts _ HD) as (kv & rkv & -> & Hroot & Hch).
    unfold nodesOf, rootChildren in Hleaf. cbn [optProp prop] in Hleaf.
    rewrite Hroot in Hleaf. cbn [optProp prop] in Hleaf.
    destruct Hch as [Hnone|(nodes & Hch & Hwf)];
      [rewrite Hnone in Hleaf; now elim Hleaf|].
    rewrite Hch in Hleaf.
    rewrite (@translateLexical_nodes kv rkv nodes s Hroot Hch Hwf). eexists. split; [reflexivity|].
    destruct (@rootChildren_reinjected kv rkv nodes
                (fun _ => reinjected isLexicalText s nodes) Hroot Hch) as (rkv' & Hroot' & Hch').
    unfold lexicalToPlain. cbn [optProp prop]. rewrite Hroot'. cbn [optProp prop].
    rewrite Hch'. cbn [truthy negb].
    rewrite walk_flatten by (now rewrite reinjected_wf). cbn [rbind]. f_equal.
    apply (@normalise_padded s).
    unfold flattenNodes. rewrite <- fold_flatten, <- join_empty_fold.
    apply (@reinjected_padded isLexicalText);
      [apply padded_refl|intros n g; apply flattenNode_relabel|
       now apply leafTexts_paths].
Qed.

Lemma flatten_after_reinjection_witness :
  (exists D', translateSlateContent sampleSlate "  Bonjour  " = Ok D'
              /\ slateToPlain (Some D') = trim (collapseNewlines "  Bonjour  "))
  /\ (exists D', translateLexicalContent sampleLexical "Bonjour" = Ok D'
                 /\ lexicalToPlain (Some D') = Ok (trim (collapseNewlines "Bonjour"))).
Proof.
  split.
  - apply (proj1 flatten_after_reinjection sampleSlate).
    + split; [reflexivity|]. eexists. split; reflexivity.
    + discriminate.
  - apply (proj2 flatten_after_reinjection sampleLexical).
    + split; [reflexivity|]. right. eexists. split; reflexivity.
    + discriminate.
Defined.

(** X8: reinjecting into a document that was itself obtained by reinjection
    gives what reinjecting into the original gives: the last text wins, and
    nothing of the earlier one is left. *)
Theorem reinjection_last_text_wins :
  (forall D s t, TreeOfNodes D ->
     exists D', translateSlateContent D s = Ok D'
                /\ translateSlateContent D' t = translateSlateContent D t)
  /\ (forall D s t, RootedTree D ->
        exists D', translateLexicalContent D s = Ok D'
                   /\ translateLexicalContent D' t = translateLexicalContent D t).
Proof.
  split.
  - intros D s t (_ & nodes & -> & Hwf).
    rewrite (@translateSlate_nodes nodes s Hwf). eexists. split; [reflexivity|].
    rewrite !translateSlate_nodes by (rewrite ?reinjected_wf; assumption).
    now rewrite (@reinjected_twice isSlateText isSlateText_children isSlateText_assigned).
  - intros D s t HD.
    destruct (@RootedTree_parts _ HD) as (kv & rkv & -> & Hroot & [Hnone|(nodes & Hch & Hwf)]).
    + rewrite !(@translateLexical_childless kv rkv _ Hroot Hnone). eexists.
      split; [reflexivity|]. apply (@translateLexical_childless kv rkv _ Hroot Hnone).
    + rewrite (@translateLexical_nodes kv rkv nodes s Hroot Hch Hwf). eexists. split; [reflexivity|].
      destruct (@rootChildren_reinjected kv rkv nodes
                  (fun _ => reinjected isLexicalText s nodes) Hroot Hch) as (rkv' & Hroot' & Hch').
      rewrite (@translateLexical_nodes _ rkv' _ t Hroot' Hch')
        by (now rewrite reinjected_wf).
      rewrite (@translateLexical_nodes kv rkv nodes t Hroot Hch Hwf).
      rewrite (@reinjected_twice isLexicalText isLexicalText_children
                 isLexicalText_assigned).
      do 2 f_equal. rewrite update_first_twice. apply update_first_ext.
      intros v _. now rewrite onChildren_twice.
Qed.

Lemma reinjection_last_text_wins_witness :
  exists D', translateSlateContent sampleSlate "Bonjour" = Ok D'
             /\ translateSlateContent D' "Hallo" = translateSlateContent sampleSlate "Hallo".
Proof.
  apply (proj1 reinjection_last_text_wins sampleSlate).
  split; [reflexivity|]. eexists. split; reflexivity.
Defined.
Lemma leafTexts_none isTextNode nodes :
  leafTexts isTextNode nodes = [] -> pathsFrom isTextNode 0 nodes = [].
Proof.
  intros E. pose proof (leafTexts_count isTextNode nodes 0) as Hlen.
  rewrite E in Hlen. now destruct (pathsFrom isTextNode 0 nodes).
Qed.

(** X9: where reinjection has nowhere to put the text, the text is dropped and
    the value comes back as it was: a value that is not an array (Slate) or
    has no root (Lexical), and a recognised document without any text
    node. *)
Theorem reinjection_without_text_node :
  (forall v s, isArray (Some v) = false -> translateSlateContent v s = Ok v)
  /\ (forall v s, truthy (optProp (Some v) "root") = false ->
                  translateLexicalContent v s = Ok v)
  /\ (forall D s, TreeOfNodes D -> leafTexts isSlateText (nodesOf D) = [] ->
                  translateSlateContent D s = Ok D)
  /\ (forall D s, RootedTree D -> leafTexts isLexicalText (nodesOf D) = [] ->
                  translateLexicalContent D s = Ok D).
Proof.
  split; [|split; [|split]].
  - intros v s H. destruct v; try reflexivity. discriminate H.
  - intros v s H. unfold translateLexicalContent. now rewrite H.
  - intros D s (_ & nodes & -> & Hwf) Hleaf. cbn [nodesOf] in Hleaf.
    rewrite (@translateSlate_nodes nodes s Hwf).
    now rewrite reinjected_none by (now apply leafTexts_none).
  - intros D s HD Hleaf.
    destruct (@RootedTree_parts _ HD)
      as (kv & rkv & -> & Hroot & [Hnone|(nodes & Hch & Hwf)]).
    + apply (@translateLexical_childless kv rkv _ Hroot Hnone).
    + unfold nodesOf, rootChildren in Hleaf. cbn [optProp prop] in Hleaf.
      rewrite Hroot in Hleaf. cbn [optProp prop] in Hleaf. rewrite Hch in Hleaf.
      rewrite (@translateLexical_nodes kv rkv nodes s Hroot Hch Hwf).
      rewrite reinjected_none by (now apply leafTexts_none).
      do 2 f_equal. apply update_first_id. intros v Hv.
      rewrite Hroot in Hv. injection Hv as <-. cbn [onChildren]. f_equal.
      apply update_first_id. intros c Hc. rewrite Hch in Hc. now injection Hc as <-.
Qed.

Lemma reinjection_without_text_node_witness :
  translateSlateContent (JStr "plain") "Bonjour" = Ok (JStr "plain")
  /\ translateLexicalContent (JObj [("type", JStr "doc")]) "Bonjour"
     = Ok (JObj [("type", JStr "doc")])
  /\ translateSlateContent (JArr [JObj [("type", JStr "upload")]]) "Bonjour"
     = Ok (JArr [JObj [("type", JStr "upload")]]).
Proof.
  split; [|split].
  - now apply (proj1 reinjection_without_text_node).
  - now apply (proj1 (proj2 reinjection_without_text_node)).
  - apply (proj1 (proj2 (proj2 reinjection_without_text_node))); [|reflexivity].
    split; [reflexivity|]. eexists. split; reflexivity.
Defined.

(** ** Paths *)

Lemma split_dot_aux_app cur s t :
  split_dot_aux cur (s ++ String "." t) = split_dot_aux cur s ++ split_dot t.
Proof.
  revert cur. induction s as [|c r IH]; intros cur.
  - reflexivity.
  - cbn [String.append split_dot_aux]. destruct (Ascii.eqb c "."); now rewrite IH.
Qed.

Lemma split_dot_app s t : split_dot (s ++ "." ++ t) = split_dot s ++ split_dot t.
Proof. apply split_dot_aux_app. Qed.

Lemma fold_step_none parts :
  fold_left (fun acc k => if nullish acc then acc else optProp acc k) parts None = None.
Proof. induction parts as [|k r IH]; [reflexivity|exact IH]. Qed.

Lemma fold_step_null parts :
  fold_left (fun acc k => if nullish acc then acc else optProp acc k) parts (Some JNull)
  = Some JNull.
Proof. induction parts as [|k r IH]; [reflexivity|exact IH]. Qed.

Lemma getByPath_app obj p q :
  truthy (Some obj) = true ->
  getByPath obj (p ++ "." ++ q)
  = fold_left (fun acc k => if nullish acc then acc else optProp acc k)
              (split_dot q) (getByPath obj p).
Proof.
  intros H. unfold getByPath. rewrite H. cbn [negb].
  now rewrite split_dot_app, fold_left_app.
Qed.

Lemma ownPath_nullish v parts : nullish v = true -> ownPath v parts = true.
Proof. destruct parts; [reflexivity|]. destruct v as [[]|]; now intros. Qed.

Lemma ownPath_app parts1 parts2 :
  forall v,
    ownPath v (parts1 ++ parts2) = true ->
    ownPath (fold_left (fun acc k => if nullish acc then acc else optProp acc k)
                       parts1 v) parts2 = true.
Proof.
  induction parts1 as [|k r IH]; intros v H; [exact H|].
  cbn [fold_left]. destruct (nullish v) eqn:Hv.
  - destruct v as [[]|]; try discriminate Hv.
    + rewrite fold_step_null. now apply ownPath_nullish.
    + rewrite fold_step_none. now apply ownPath_nullish.
  - apply IH. destruct v as [x|]; [|discriminate Hv].
    cbn [app ownPath] in H. destruct x; try discriminate Hv;
      apply andb_true_iff in H; destruct H as [_ H]; exact H.
Qed.

(** X3: reading along a path composes, where the reads are own reads (no
    member of a prototype is met): past an undefined value the result stays
    undefined, past [null] it stays [null], and from a truthy value it is the
    reading of the rest of the path in that value, again by own reads. *)
Theorem getByPath_composes (obj : json) (p q : string) :
  ownPath (Some obj) (split_dot (p ++ "." ++ q)) = true ->
  (getByPath obj p = None -> getByPath obj (p ++ "." ++ q) = None)
  /\ (getByPath obj p = Some JNull -> getByPath obj (p ++ "." ++ q) = Some JNull)
  /\ (forall v, getByPath obj p = Some v -> truthy (Some v) = true ->
                getByPath obj (p ++ "." ++ q) = getByPath v q
                /\ ownPath (Some v) (split_dot q) = true).
Proof.
  intros Hown. destruct (truthy (Some obj)) eqn:Hobj.
  - rewrite (@getByPath_app obj p q Hobj). split; [|split].
    + intros ->. apply fold_step_none.
    + intros ->. apply fold_step_null.
    + intros v Hp Hv. split.
      * rewrite Hp. unfold getByPath. now rewrite Hv.
      * rewrite split_dot_app in Hown. apply ownPath_app in Hown.
        unfold getByPath in Hp. rewrite Hobj in Hp. cbn [negb] in Hp.
        now rewrite Hp in Hown.
  - unfold getByPath. rewrite Hobj. cbn [negb].
    split; [reflexivity|]. split; discriminate.
Qed.

Lemma getByPath_composes_witness :
  getByPath docFilled ("title" ++ "." ++ "de") = getByPath
    (JObj [("en", JStr "Hello"); ("de", JStr "Hallo"); ("fr", JStr "Salut")]) "de"
  /\ getByPath docFilled ("missing" ++ "." ++ "de") = None
  /\ getByPath (JObj [("a", JNull)]) ("a" ++ "." ++ "b") = Some JNull.
Proof.
  split; [|split].
  - apply (proj2 (proj2 (@getByPath_composes docFilled "title" "de" eq_refl))
             (JObj [("en", JStr "Hello"); ("de", JStr "Hallo"); ("fr", JStr "Salut")]));
      reflexivity.
  - now apply (proj1 (@getByPath_composes docFilled "missing" "de" eq_refl)).
  - now apply (proj1 (proj2 (@getByPath_composes (JObj [("a", JNull)]) "a" "b"
                               eq_refl))).
Defined.

Lemma setByParts_other parts :
  forall node v node' k,
    setByParts node parts v = Some node' ->
    k <> hd "undefined" parts ->
    lookup k node' = lookup k node.
Proof.
  intros node v node' k Hset Hk.
  destruct parts as [|p [|p' rest]].
  - injection Hset as <-. now apply assign_lookup_other.
  - injection Hset as <-. now apply assign_lookup_other.
  - rewrite setByParts_cons in Hset. cbn [hd] in Hk.
    destruct (lookup p node) as [[| | | | |child]|];
      try discriminate;
      match type of Hset with
      | context [setByParts ?c ?r ?w] =>
          destruct (setByParts c r w); [|discriminate]
      end; injection Hset as <-; now apply assign_lookup_other.
Qed.

(** X4: what [setByPath] stores, [getByPath] reads back at the same path; the
    other top-level keys of the target keep their values. *)
Theorem setByPath_then_getByPath
  (target : list (string * json)) (path : string) (value : json)
  (target' : list (string * json)) :
  setByPath target path value = Some target' ->
  getByPath (JObj target') path = Some value
  /\ (forall k, k <> firstSegment path -> lookup k target' = lookup k target).
Proof.
  intros Hset. split.
  - apply reach_getByPath.
    apply (@setByParts_reach (split_dot path) (@split_dot_nonempty path) target value
             target' Hset).
  - intros k Hk. now apply (@setByParts_other (split_dot path) target value target' k).
Qed.

Lemma setByPath_then_getByPath_witness :
  getByPath (JObj [("id", JNum 1); ("seo", JObj [("title", JStr "Titel")])]) "seo.title"
  = Some (JStr "Titel")
  /\ (forall k, k <> firstSegment "seo.title" ->
                lookup k [("id", JNum 1); ("seo", JObj [("title", JStr "Titel")])]
                = lookup k [("id", JNum 1)]).
Proof.
  apply (@setByPath_then_getByPath [("id", JNum 1)] "seo.title" (JStr "Titel")).
  reflexivity.
Defined.

(** ** The schema walker *)

Lemma fold_visit {A} (step : A -> list (string * FieldKind))
  (g : A -> list string * FieldMap -> list string * FieldMap) (fs : list A) :
  Forall (fun f => forall acc,
            g f acc = (fst acc ++ map fst (step f), setAll (step f) (snd acc))) fs ->
  forall acc,
    fold_left (fun a f => g f a) fs acc
    = (fst acc ++ map fst (flat_map step fs), setAll (flat_map step fs) (snd acc)).
Proof.
  intros H. induction H as [|f r Hf Hr IH]; intros acc.
  - cbn. rewrite app_nil_r. now destruct acc.
  - cbn [fold_left flat_map]. rewrite Hf, IH. cbn [fst snd].
    unfold setAll. now rewrite map_app, fold_left_app, app_assoc.
Qed.

Lemma visitField_declared f :
  forall prefix acc,
    visitField prefix f acc
    = (fst acc ++ map fst (declared prefix f), setAll (declared prefix f) (snd acc)).
Proof.
  induction f as [name localized type fields blocks Hfields Hblocks]
    using Field_induction.
  intros prefix acc. cbn [visitField declared]. cbv zeta.
  fold (pathBelow prefix name).
  set (path := if hasName name then pathBelow prefix name else prefix).
  set (own := match hasName name && localized, kind_of_type type with
              | true, Some k => [(path, k)]
              | _, _ => []
              end).
  assert (E1 : match hasName name && localized, kind_of_type type with
               | true, Some k => (fst acc ++ [path], assign path k (snd acc))
               | _, _ => acc
               end = (fst acc ++ map fst own, setAll own (snd acc))).
  { unfold own. destruct (hasName name && localized), (kind_of_type type);
      cbn; rewrite ?app_nil_r; try reflexivity; now destruct acc. }
  replace (if hasName name then path else prefix) with path
    by (unfold path; now destruct (hasName name)).
  rewrite E1.
  rewrite (@fold_visit _ (declared path) (visitField path) fields)
    by (eapply Forall_impl; [|exact Hfields]; intros f Hf acc'; apply Hf).
  cbn [fst snd].
  set (blockStep := fun b : string * list Field =>
                      flat_map (declared (if hasName name
                                          then (path ++ "." ++ fst b)%string
                                          else prefix)) (snd b)).
  rewrite (@fold_visit _ blockStep
             (fun b a => fold_left
                           (fun a' f => visitField (if hasName name
                                                    then (path ++ "." ++ fst b)%string
                                                    else prefix) f a')
                           (snd b) a) blocks).
  - cbn [fst snd]. unfold setAll.
    rewrite !map_app, !fold_left_app, <- !app_assoc. reflexivity.
  - eapply Forall_impl; [|exact Hblocks]. intros b Hb acc'. unfold blockStep.
    apply (@fold_visit _ _ (visitField _) (snd b)).
    eapply Forall_impl; [|exact Hb]. intros f Hf acc''. apply Hf.
Qed.
Lemma setAll_bound es :
  forall m p, lookup p (setAll es m) <> None <-> In p (map fst es) \/ lookup p m <> None.
Proof.
  unfold setAll. induction es as [|[q k] r IH]; intros m p; cbn [fold_left map In fst snd].
  - tauto.
  - rewrite IH. destruct (String.eqb_spec p q) as [->|Hne].
    + rewrite assign_lookup. split; [intros _; left; now left|intros _; right; discriminate].
    + rewrite assign_lookup_other by exact Hne.
      split; [intros [H|H]; [left; now right|now right]
             |intros [[H|H]|H]; [congruence|now left|now right]].
Qed.

Lemma setAll_from es :
  forall m p k, lookup p (setAll es m) = Some k -> In (p, k) es \/ lookup p m = Some k.
Proof.
  unfold setAll. induction es as [|[q j] r IH]; intros m p k; cbn [fold_left In fst snd].
  - now right.
  - intros H. destruct (IH _ _ _ H) as [H1|H1]; [left; now right|].
    destruct (String.eqb_spec p q) as [->|Hne].
    + rewrite assign_lookup in H1. injection H1 as ->. left. now left.
    + rewrite assign_lookup_other in H1 by exact Hne. now right.
Qed.

Lemma detect_declared collection :
  detectLocalizedFieldsWithMeta collection
  = (map fst (flat_map (declared EmptyString) (fieldsOf collection)),
     setAll (flat_map (declared EmptyString) (fieldsOf collection)) []).
Proof.
  unfold detectLocalizedFieldsWithMeta, visit. fold (fieldsOf collection).
  rewrite (@fold_visit _ (declared EmptyString) (visitField EmptyString)).
  - reflexivity.
  - apply Forall_forall. intros f _ acc. apply visitField_declared.
Qed.

(** X1: the walker returns the localized content fields that the schema
    declares, in document order (a field before its sub-fields, these before
    the fields of its blocks), and a map built by setting their kinds in
    that order. *)
Theorem walker_lists_declared_fields (collection : Collection) :
  detectLocalizedFieldsWithMeta collection
  = (map fst (flat_map (declared EmptyString) (fieldsOf collection)),
     setAll (flat_map (declared EmptyString) (fieldsOf collection)) [])
  /\ (forall more,
         fst (detectLocalizedFieldsWithMeta
                (mkCollection (slug collection) None
                              (Some (fieldsOf collection ++ more))))
         = fst (detectLocalizedFieldsWithMeta collection)
           ++ fst (detectLocalizedFieldsWithMeta
                     (mkCollection (slug collection) None (Some more)))).
Proof.
  split; [apply detect_declared|].
  intros more. rewrite !detect_declared. cbn [fst fieldsOf config_fields own_fields].
  now rewrite flat_map_app, map_app.
Qed.

(** X2: every path that the walker lists has a kind in the map, every key of the
    map is listed, and the kind is that of a declaration of the path. *)
Theorem detected_fields_have_kinds (collection : Collection) (p : string) :
  (In p (fst (detectLocalizedFieldsWithMeta collection))
   <-> exists k, lookup p (snd (detectLocalizedFieldsWithMeta collection)) = Some k)
  /\ (forall k, lookup p (snd (detectLocalizedFieldsWithMeta collection)) = Some k ->
                In (p, k) (flat_map (declared EmptyString) (fieldsOf collection))).
Proof.
  rewrite detect_declared. cbn [fst snd]. split.
  - pose proof (setAll_bound (flat_map (declared EmptyString) (fieldsOf collection))
                  [] p) as H.
    split.
    + intros Hin. destruct (lookup p (setAll _ [])) as [k|] eqn:E; [now exists k|].
      exfalso. apply (proj2 H); [now left|reflexivity].
    + intros (k & Hk). rewrite Hk in H.
      destruct (proj1 H) as [Hin|Hin]; [discriminate|exact Hin|now elim Hin].
  - intros k Hk. destruct (setAll_from _ _ _ Hk) as [H|H]; [exact H|discriminate H].
Qed.

Lemma detected_fields_have_kinds_witness :
  (In "seo.summary" ["seo.title"; "seo.summary"; "layout.hero.body"]
   <-> exists k, lookup "seo.summary"
                   [("seo.title", KText); ("seo.summary", KTextarea);
                    ("layout.hero.body", KRichText)] = Some k)
  /\ (forall k, lookup "seo.summary"
                  [("seo.title", KText); ("seo.summary", KTextarea);
                   ("layout.hero.body", KRichText)] = Some k ->
                In ("seo.summary", k)
                   [("seo.title", KText); ("seo.summary", KTextarea);
                    ("layout.hero.body", KRichText)]).
Proof. exact (detected_fields_have_kinds nestedCollection "seo.summary"). Defined.

(** ** The work list *)

Lemma fieldsMissing_filter stored meta locale fields ms :
  fieldsMissing stored meta locale fields = Ok ms ->
  ms = filter (emptyAt stored meta locale) fields.
Proof.
  revert ms. induction fields as [|f rest IH]; intros ms H.
  - now injection H as <-.
  - cbn [fieldsMissing] in H. cbn [filter]. unfold emptyAt at 1.
    destruct (fieldEmpty _ _) as [b|e]; [|discriminate H]. cbn [rbind] in H.
    destruct (fieldsMissing stored meta locale rest) as [more|e]; [|discriminate H].
    cbn [rbind] in H. injection H as <-. rewrite <- (IH more eq_refl).
    now destruct b.
Qed.

Lemma toFill_flat stored meta fields tgts todo :
  toFill stored meta fields tgts = Ok todo ->
  todo = flat_map (fun locale =>
                     match filter (emptyAt stored meta locale) fields with
                     | [] => []
                     | ms => [(locale, ms)]
                     end) tgts.
Proof.
  revert todo. induction tgts as [|locale rest IH]; intros todo H.
  - now injection H as <-.
  - cbn [toFill] in H. cbn [flat_map].
    destruct (fieldsMissing stored meta locale fields) as [ms|e] eqn:Em;
      [|discriminate H].
    cbn [rbind] in H.
    destruct (toFill stored meta fields rest) as [more|e]; [|discriminate H].
    cbn [rbind] in H. injection H as <-.
    rewrite <- (IH more eq_refl), <- (fieldsMissing_filter _ _ _ _ Em).
    now destruct ms.
Qed.

(** X11: the work list names, in the order of the targets, every target locale
    in which some field is empty, each with exactly its empty fields in the
    order of the schema: no locale comes with an empty list, and no empty
    field of a target is left out. *)
Theorem toFill_lists_empty_fields
  (stored : json) (meta : FieldMap) (fields tgts : list string)
  (todo : list (string * list string)) :
  toFill stored meta fields tgts = Ok todo ->
  map fst todo
  = filter (fun locale => existsb (emptyAt stored meta locale) fields) tgts
  /\ (forall locale ms,
         In (locale, ms) todo ->
         ms <> [] /\ ms = filter (emptyAt stored meta locale) fields)
  /\ (forall locale f,
         In locale tgts -> In f fields ->
         fieldEmpty (lookup f meta) (targetValue stored f locale) = Ok true ->
         exists ms, In (locale, ms) todo /\ In f ms).
Proof.
  intros H. apply toFill_flat in H. subst todo. split; [|split].
  - induction tgts as [|locale rest IH]; [reflexivity|].
    cbn [flat_map filter]. rewrite map_app, IH.
    assert (E : existsb (emptyAt stored meta locale) fields
                = negb (match filter (emptyAt stored meta locale) fields with
                        | [] => true
                        | _ :: _ => false
                        end)).
    { clear. induction fields as [|f r IH]; [reflexivity|].
      cbn [existsb filter]. destruct (emptyAt stored meta locale f); [reflexivity|].
      exact IH. }
    rewrite E. now destruct (filter (emptyAt stored meta locale) fields).
  - intros locale ms Hin. apply in_flat_map in Hin as (l & _ & Hin).
    destruct (filter (emptyAt stored meta l) fields) as [|m r] eqn:E; [destruct Hin|].
    destruct Hin as [Hin|[]]. injection Hin as <- <-. rewrite E. split; [discriminate|reflexivity].
  - intros locale f Hl Hf He.
    assert (Hin : In f (filter (emptyAt stored meta locale) fields)).
    { apply filter_In. split; [exact Hf|]. unfold emptyAt. now rewrite He. }
    exists (filter (emptyAt stored meta locale) fields). split; [|exact Hin].
    apply in_flat_map. exists locale. split; [exact Hl|].
    destruct (filter (emptyAt stored meta locale) fields); [destruct Hin|now left].
Qed.

Lemma toFill_lists_empty_fields_witness :
  map fst [("de", ["body"]); ("fr", ["title"; "body"])]
  = filter (fun locale => existsb (emptyAt docHalfFilled titleBodyMeta locale)
                                  ["title"; "body"]) ["de"; "fr"]
  /\ (forall locale ms,
         In (locale, ms) [("de", ["body"]); ("fr", ["title"; "body"])] ->
         ms <> [] /\ ms = filter (emptyAt docHalfFilled titleBodyMeta locale)
                                 ["title"; "body"])
  /\ (forall locale f,
         In locale ["de"; "fr"] -> In f ["title"; "body"] ->
         fieldEmpty (lookup f titleBodyMeta) (targetValue docHalfFilled f locale)
         = Ok true ->
         exists ms, In (locale, ms) [("de", ["body"]); ("fr", ["title"; "body"])]
                    /\ In f ms).
Proof.
  apply (@toFill_lists_empty_fields docHalfFilled titleBodyMeta ["title"; "body"]
           ["de"; "fr"]).
  reflexivity.
Defined.

(** ** The content score *)

Lemma contentScoreFrom_counts stored locale fields :
  forall score n,
    contentScoreFrom score stored fields locale = Ok n ->
    n = score + List.length (filter (countedAt stored locale) fields).
Proof.
  induction fields as [|f rest IH]; intros score n H.
  - injection H as <-. cbn. lia.
  - cbn [contentScoreFrom] in H. cbv zeta in H. cbn [filter]. unfold countedAt at 1.
    destruct (fieldHasContent _) as [b|e]; [|discriminate H]. cbn [rbind] in H.
    apply IH in H. destruct b; cbn [List.length]; lia.
Qed.

(** X12: the content score of a locale is the number of fields whose value in
    that locale has content: it never exceeds the number of fields, and the
    kinds of the fields play no part in it. *)
Theorem contentScore_counts_fields
  (stored : json) (fields : list string) (locale : string) (meta : FieldMap) (n : nat) :
  contentScore stored fields locale meta = Ok n ->
  n = List.length (filter (countedAt stored locale) fields)
  /\ n <= List.length fields
  /\ forall meta', contentScore stored fields locale meta' = Ok n.
Proof.
  unfold contentScore. intros H. split; [|split].
  - now apply contentScoreFrom_counts in H.
  - apply contentScoreFrom_counts in H. subst n. cbn [Nat.add]. apply filter_length_le.
  - intros _. exact H.
Qed.

Lemma contentScore_counts_fields_witness :
  1 = List.length (filter (countedAt docHalfFilled "de") ["title"; "body"])
  /\ 1 <= List.length ["title"; "body"]
  /\ forall meta', contentScore docHalfFilled ["title"; "body"] "de" meta' = Ok 1.
Proof.
  apply (@contentScore_counts_fields docHalfFilled ["title"; "body"] "de" titleBodyMeta).
  reflexivity.
Defined.

(** ** What the hooks leave in the trace *)

Ltac events_done :=
  eexists; split;
  [ rewrite <- ?app_assoc; simpl; reflexivity
  | repeat (apply Forall_cons || apply Forall_nil); simpl; try exact I;
    try (split; [reflexivity|do 2 eexists; reflexivity]) ].

Lemma forEach_events {A} (P : event -> Prop) (body : A -> M unit) :
  (forall item h, exists evs, body item h = (h ++ evs, Ok tt) /\ Forall P evs) ->
  forall todo h, exists evs, forEach todo body h = (h ++ evs, Ok tt) /\ Forall P evs.
Proof.
  intros Hbody todo. induction todo as [|item rest IH]; intros h.
  - exists []. cbn [forEach]. unfold ret. now rewrite app_nil_r.
  - destruct (Hbody item h) as (evs1 & E1 & H1).
    destruct (IH (h ++ evs1)) as (evs2 & E2 & H2).
    exists (evs1 ++ evs2). cbn [forEach]. unfold bind. rewrite E1, E2.
    split; [now rewrite app_assoc|]. apply Forall_app. now split.
Qed.

Section Events.
Variable JSON_stringify : json -> string.
Variable JSON_parse : string -> result json.
Variable fetch : trace -> ChatRequest -> result Response.
Variable findByID : trace -> string -> option json -> result json.
Variable update : trace -> UpdateArgs -> result unit.

Lemma fillLocale_events client config args meta src srcs item h :
  exists evs,
    fillLocale JSON_stringify JSON_parse fetch update client config args meta
               src srcs item h = (h ++ evs, Ok tt)
    /\ Forall (turnEvent (dryMode (dryRun config)) args) evs.
Proof.
  cbv beta iota zeta delta
    [fillLocale buildPrompt tryCatch bind callJSONModel
     doFetch doUpdate liftR throw emit ret fst snd].
  fold (guardedUpdate args (fst item)).
  match goal with |- context [fetch h ?r] => destruct (fetch h r) as [res|e] end;
    [|events_done].
  destruct (ok res); cbn [negb]; [|events_done].
  destruct (json_body res) as [body|e]; [|events_done].
  match goal with |- context [truthy ?c] => destruct (truthy c) end;
    cbn [negb]; [|events_done].
  match goal with |- context [JSON_parse ?c] => destruct (JSON_parse c) as [llmResult|e] end;
    [|events_done].
  match goal with
  | |- context [buildPatch ?a ?b ?c ?d ?e] =>
      destruct (buildPatch a b c d e) as [[[|kv patch]|]|e']
  end; [events_done| | |events_done].
  - destruct (dryRun config) as [[]|]; cbn [dryMode]; [events_done| |];
      (match goal with |- context [update ?a ?b] => destruct (update a b) as [[]|?] end;
       events_done).
  - destruct (dryRun config) as [[]|]; cbn [dryMode]; [events_done| |];
      (match goal with |- context [update ?a ?b] => destruct (update a b) as [[]|?] end;
       events_done).
Qed.

Lemma legacy_fillLocale_events client config args src sv item h t :
  Legacy.tag args = Ok t ->
  exists evs,
    Legacy.fillLocale JSON_stringify JSON_parse fetch update client config args
                      src sv item h = (h ++ evs, Ok tt)
    /\ Forall (turnEvent (dryMode (Legacy.dryRun config)) args) evs.
Proof.
  intros Htag.
  cbv beta iota zeta delta
    [Legacy.fillLocale Legacy.buildPrompt Legacy.logTagged tryCatch bind callJSONModel
     doFetch doUpdate liftR throw emit ret fst snd].
  rewrite Htag.
  fold (guardedUpdate args (fst item)).
  match goal with |- context [fetch h ?r] => destruct (fetch h r) as [res|e] end;
    [|events_done].
  destruct (ok res); cbn [negb]; [|events_done].
  destruct (json_body res) as [body|e]; [|events_done].
  match goal with |- context [truthy ?c] => destruct (truthy c) end;
    cbn [negb]; [|events_done].
  match goal with |- context [JSON_parse ?c] => destruct (JSON_parse c) as [llmResult|e] end;
    [|events_done].
  match goal with
  | |- context [Legacy.buildPatch ?a ?b] =>
      destruct (Legacy.buildPatch a b) as [patch|e']
  end; [|events_done].
  destruct (Legacy.dryRun config) as [[]|]; cbn [dryMode]; [events_done| |];
    (match goal with |- context [update ?a ?b] => destruct (update a b) as [[]|?] end;
     events_done).
Qed.
End Events.
Lemma toFill_length stored meta fields tgts todo :
  toFill stored meta fields tgts = Ok todo -> List.length todo <= List.length tgts.
Proof.
  revert todo. induction tgts as [|locale rest IH]; intros todo H.
  - injection H as <-. reflexivity.
  - cbn [toFill] in H.
    destruct (fieldsMissing stored meta locale fields) as [ms|e]; [|discriminate H].
    cbn [rbind] in H.
    destruct (toFill stored meta fields rest) as [more|e]; [|discriminate H].
    cbn [rbind] in H. injection H as <-. specialize (IH more eq_refl).
    destruct ms; cbn [List.length]; lia.
Qed.

Lemma analyse_todo_length config localesCfg fields meta stored p :
  analyse config localesCfg fields meta stored = Ok (Some p) ->
  List.length (plan_todo p)
  <= List.length (requestedTargets config (allLocales localesCfg)).
Proof.
  unfold analyse. intros H.
  destruct (scores _ _ _ _) as [sc|e]; [|discriminate H]. cbn [rbind] in H.
  destruct (sourcesFrom _ _ _ _ _) as [srcs|e]; [|discriminate H]. cbn [rbind] in H.
  destruct (hasSourceText _); cbn [negb] in H; [|discriminate H].
  destruct (toFill _ _ _ _) as [todo|e] eqn:Etodo; [|discriminate H]. cbn [rbind] in H.
  destruct todo as [|item todo]; [discriminate H|]. injection H as <-. cbn [plan_todo].
  apply toFill_length in Etodo. etransitivity; [exact Etodo|].
  unfold targets. apply filter_length_le.
Qed.

Section HookTrace.
Variable JSON_stringify : json -> string.
Variable JSON_parse : string -> result json.
Variable fetch : trace -> ChatRequest -> result Response.
Variable findByID : trace -> string -> option json -> result json.
Variable update : trace -> UpdateArgs -> result unit.

(** The trace of the structure-preserving hook: at most the read of the
    stored record, then the turns of the loop. *)
Lemma hook_trace client config args h :
  exists pre evs r,
    aiLocalizeCollection JSON_stringify JSON_parse fetch findByID update
      client config args h = (h ++ pre ++ evs, r)
    /\ (pre = []
        \/ (pre = [readEvent args]
            /\ exists first,
                 hd_error (fst (detectLocalizedFieldsWithMeta (collection args)))
                 = Some first
                 /\ localizedView (getByPath (doc args) first) = true))
    /\ Forall (turnEvent (dryMode (dryRun config)) args) evs
    /\ (forall localesCfg,
           localization (req args) = Some localesCfg ->
           List.length (llmCalls evs)
           <= List.length (requestedTargets config (allLocales localesCfg))).
Proof.
  assert (Hearly : aiLocalizeCollection JSON_stringify JSON_parse fetch findByID update
                     client config args h = (h, Ok (doc args)) ->
                   exists pre evs r,
                     aiLocalizeCollection JSON_stringify JSON_parse fetch findByID
                       update client config args h = (h ++ pre ++ evs, r)
                     /\ (pre = []
                         \/ (pre = [readEvent args]
                             /\ exists first,
                                  hd_error (fst (detectLocalizedFieldsWithMeta
                                                   (collection args))) = Some first
                                  /\ localizedView (getByPath (doc args) first) = true))
                     /\ Forall (turnEvent (dryMode (dryRun config)) args) evs
                     /\ (forall localesCfg,
                            localization (req args) = Some localesCfg ->
                            List.length (llmCalls evs)
                            <= List.length (requestedTargets config
                                              (allLocales localesCfg)))).
  { intros E. exists [], [], (Ok (doc args)). rewrite E. cbn [app]. rewrite app_nil_r.
    repeat split; [now left|constructor|]. intros localesCfg _. cbn. lia. }
  destruct (strEq (headerOf (req args) HEADER_GUARD) "1") eqn:Hguard.
  { apply Hearly. unfold aiLocalizeCollection. now rewrite Hguard. }
  destruct (localization (req args)) as [localesCfg|] eqn:Hloc.
  2:{ apply Hearly. unfold aiLocalizeCollection. now rewrite Hguard, Hloc. }
  destruct (detectLocalizedFieldsWithMeta (collection args))
    as [[|firstField others] fieldMeta] eqn:Hdet.
  { apply Hearly. unfold aiLocalizeCollection. now rewrite Hguard, Hloc, Hdet. }
  destruct (gateClosed (guardFlagField config) (doc args)) eqn:Hgate.
  { apply Hearly. unfold aiLocalizeCollection. now rewrite Hguard, Hloc, Hdet, Hgate. }
  clear Hearly.
  rewrite (@hook_runs JSON_stringify JSON_parse fetch findByID update client config
             args localesCfg firstField others fieldMeta h)
    by (repeat split; assumption).
  unfold readStored, bind, liftR, doFindByID, ret. fold (readEvent args).
  assert (Hafter : forall stored pre,
             exists evs r,
               match analyse config localesCfg (firstField :: others) fieldMeta stored with
               | Ok plan =>
                   match plan with
                   | Some p =>
                       fun h0 =>
                         let (h', r0) :=
                           forEach (plan_todo p)
                             (fillLocale JSON_stringify JSON_parse fetch update client
                                         config args fieldMeta (plan_source p)
                                         (plan_sources p)) h0 in
                         match r0 with
                         | Ok _ => (h', Ok (doc args))
                         | Throw e => (h', Throw e)
                         end
                   | None => fun h0 => (h0, Ok (doc args))
                   end (h ++ pre)
               | Throw e => (h ++ pre, Throw e)
               end = (h ++ pre ++ evs, r)
               /\ Forall (turnEvent (dryMode (dryRun config)) args) evs
               /\ (forall localesCfg0,
                      Some localesCfg = Some localesCfg0 ->
                      List.length (llmCalls evs)
                      <= List.length (requestedTargets config (allLocales localesCfg0)))).
  { intros stored pre.
    destruct (analyse _ _ _ _ stored) as [[p|]|e] eqn:Eplan.
    - destruct (@forEach_events _ (turnEvent (dryMode (dryRun config)) args)
                  (fillLocale JSON_stringify JSON_parse fetch update client config
                              args fieldMeta (plan_source p) (plan_sources p))
                  (fun item h' => fillLocale_events JSON_stringify JSON_parse fetch
                                    update client config args fieldMeta
                                    (plan_source p) (plan_sources p) item h')
                  (plan_todo p) (h ++ pre)) as (evs & E & Hall).
      destruct (loop_attempts_all JSON_stringify JSON_parse fetch update client config
                  args fieldMeta (plan_source p) (plan_sources p) (plan_todo p)
                  (h ++ pre)) as (evs' & E' & Hcalls & _).
      assert (evs' = evs).
      { rewrite E in E'. injection E' as E'. now apply app_inv_head in E'. }
      subst evs'. rewrite E. exists evs, (Ok (doc args)).
      split; [now rewrite app_assoc|]. split; [exact Hall|].
      intros localesCfg0 [= <-]. rewrite Hcalls, length_map.
      now apply (@analyse_todo_length config localesCfg (firstField :: others)
                   fieldMeta stored p).
    - exists [], (Ok (doc args)). rewrite app_nil_r.
      repeat split; [constructor|]. intros; cbn; lia.
    - exists [], (Throw e). rewrite app_nil_r.
      repeat split; [constructor|]. intros; cbn; lia. }
  destruct (localizedView (getByPath (doc args) firstField)) eqn:Hview.
  - destruct (findByID h _ _) as [stored|e].
    + destruct (Hafter stored [readEvent args]) as (evs & r & E & Hall & Hlen).
      exists [readEvent args], evs, r. split; [exact E|].
      split; [right; split; [reflexivity|]; exists firstField; now split|].
      split; [exact Hall|exact Hlen].
    + exists [readEvent args], [], (Throw e). rewrite app_nil_r.
      split; [reflexivity|].
      split; [right; split; [reflexivity|]; exists firstField; now split|].
      split; [constructor|]. intros; cbn; lia.
  - destruct (Hafter (doc args) []) as (evs & r & E & Hall & Hlen).
    rewrite app_nil_r in E. exists [], evs, r. split; [exact E|].
    split; [now left|]. split; [exact Hall|exact Hlen].
Qed.
End HookTrace.
Lemma legacy_toFill_length doc fs ls :
  List.length (Legacy.toFill doc fs ls) <= List.length ls.
Proof.
  unfold Legacy.toFill. induction ls as [|l r IH]; [reflexivity|].
  cbn [flat_map]. rewrite length_app.
  destruct (filter (Legacy.fieldMissing doc l) fs); cbn [List.length]; lia.
Qed.

Lemma legacy_toFill_locales doc fs ls item :
  In item (Legacy.toFill doc fs ls) -> In (fst item) ls.
Proof.
  unfold Legacy.toFill. intros H. apply in_flat_map in H as (l & Hl & H).
  destruct (filter (Legacy.fieldMissing doc l) fs); [destruct H|].
  destruct H as [<-|[]]. exact Hl.
Qed.

Section LegacyTrace.
Variable JSON_stringify : json -> string.
Variable JSON_parse : string -> result json.
Variable fetch : trace -> ChatRequest -> result Response.
Variable update : trace -> UpdateArgs -> result unit.

Lemma legacyLogs_quiet t config args localesCfg dry :
  Forall (turnEvent dry args) (legacyLogs t config args localesCfg)
  /\ llmCalls (legacyLogs t config args localesCfg) = []
  /\ forall u, ~ In (EUpdate u) (legacyLogs t config args localesCfg).
Proof.
  unfold legacyLogs.
  destruct (fst (legacyDetected config args localesCfg));
    destruct (hasSourceText _); cbn [app];
    (split; [repeat constructor|]; split; [reflexivity|]);
    intros u Hin; cbn [In] in Hin;
    repeat (destruct Hin as [Hin|Hin]; [discriminate Hin|]); exact Hin.
Qed.

(** The trace of the plain-text hook: console messages, then the turns of
    the loop. *)
Lemma legacy_hook_trace client config args h :
  exists evs r,
    Legacy.aiLocalizeCollection JSON_stringify JSON_parse fetch update
      client config args h = (h ++ evs, r)
    /\ Forall (turnEvent (dryMode (Legacy.dryRun config)) args) evs
    /\ (forall localesCfg,
           localization (req args) = Some localesCfg ->
           List.length (llmCalls evs) <= List.length (allLocales localesCfg)
           /\ forall u, In (EUpdate u) evs -> In (u_locale u) (allLocales localesCfg)).
Proof.
  assert (Hnil : forall r : result json,
             exists evs r0,
               (h, r) = (h ++ evs, r0)
               /\ Forall (turnEvent (dryMode (Legacy.dryRun config)) args) evs
               /\ (forall localesCfg,
                      localization (req args) = Some localesCfg ->
                      List.length (llmCalls evs) <= List.length (allLocales localesCfg)
                      /\ forall u, In (EUpdate u) evs ->
                                   In (u_locale u) (allLocales localesCfg))).
  { intros r. exists [], r. rewrite app_nil_r.
    repeat split; [constructor|cbn; lia|intros u []]. }
  destruct (strEq (headerOf (req args) HEADER_GUARD) "1") eqn:Hguard.
  { unfold Legacy.aiLocalizeCollection. rewrite Hguard. apply Hnil. }
  destruct (localization (req args)) as [localesCfg|] eqn:Hloc.
  2:{ unfold Legacy.aiLocalizeCollection. rewrite Hguard, Hloc. apply Hnil. }
  destruct (gateClosed (Legacy.guardFlagField config) (doc args)) eqn:Hgate.
  { unfold Legacy.aiLocalizeCollection. rewrite Hguard, Hloc, Hgate. apply Hnil. }
  assert (Hruns : legacyRuns config args localesCfg) by (repeat split; assumption).
  rewrite (@legacy_hook_runs JSON_stringify JSON_parse fetch update client config args
             localesCfg h Hruns).
  destruct (Legacy.tag args) as [t|e] eqn:Htag; [|apply Hnil].
  destruct (@legacyLogs_quiet t config args localesCfg (dryMode (Legacy.dryRun config)))
    as (Hlogs & Hquiet & Hnow).
  assert (Hdone : exists evs r,
             (h ++ legacyLogs t config args localesCfg, Ok (doc args)) = (h ++ evs, r)
             /\ Forall (turnEvent (dryMode (Legacy.dryRun config)) args) evs
             /\ (forall localesCfg0,
                    Some localesCfg = Some localesCfg0 ->
                    List.length (llmCalls evs) <= List.length (allLocales localesCfg0)
                    /\ forall u, In (EUpdate u) evs ->
                                 In (u_locale u) (allLocales localesCfg0))).
  { exists (legacyLogs t config args localesCfg), (Ok (doc args)).
    split; [reflexivity|]. split; [exact Hlogs|].
    intros localesCfg0 _. rewrite Hquiet. split; [cbn; lia|].
    intros u Hin. now apply Hnow in Hin. }
  destruct (hasSourceText _); [|exact Hdone].
  destruct (legacyTodo config args localesCfg) as [|item todo] eqn:Etodo; [exact Hdone|].
  clear Hdone.
  destruct (@legacy_loop_attempts_all JSON_stringify JSON_parse fetch update
              client config args (legacySource config args localesCfg)
              (legacySourceValues config args localesCfg) (item :: todo)
              (h ++ legacyLogs t config args localesCfg) t Htag)
    as (evs & E & Hc & _ & Hupd).
  destruct (@forEach_events _ (turnEvent (dryMode (Legacy.dryRun config)) args)
              (Legacy.fillLocale JSON_stringify JSON_parse fetch update client config
                 args (legacySource config args localesCfg)
                 (legacySourceValues config args localesCfg))
              (fun it h' => @legacy_fillLocale_events JSON_stringify JSON_parse fetch
                              update client config args
                              (legacySource config args localesCfg)
                              (legacySourceValues config args localesCfg) it h' t Htag)
              (item :: todo) (h ++ legacyLogs t config args localesCfg))
    as (evs' & E' & Hall).
  assert (evs' = evs).
  { rewrite E in E'. injection E' as E'. now apply app_inv_head in E'. }
  subst evs'. unfold bind, ret. rewrite E.
  exists (legacyLogs t config args localesCfg ++ evs), (Ok (doc args)).
  split; [now rewrite app_assoc|].
  split; [apply Forall_app; now split|].
  intros localesCfg0 [= <-]. split.
  - unfold llmCalls in *. rewrite filter_app, Hquiet, Hc. cbn [app].
    rewrite length_map, <- Etodo. unfold legacyTodo.
    etransitivity; [apply legacy_toFill_length|apply filter_length_le].
  - intros u Hin. apply in_app_iff in Hin. destruct Hin as [Hin|Hin].
    + now apply Hnow in Hin.
    + apply Hupd in Hin. apply in_map_iff in Hin as (it & <- & Hit).
      rewrite <- Etodo in Hit. unfold legacyTodo in Hit.
      apply legacy_toFill_locales in Hit. now apply filter_In in Hit.
Qed.
End LegacyTrace.
Lemma turnEvents_no_read dry args evs :
  Forall (turnEvent dry args) evs -> reads evs = [].
Proof.
  induction 1 as [|e r He Hr IH]; [reflexivity|].
  unfold reads in *. cbn [filter]. destruct e; cbn [isFindByID]; try exact IH.
  destruct He.
Qed.

Lemma turnEvents_dry args evs :
  Forall (turnEvent true args) evs -> writes evs = [].
Proof.
  induction 1 as [|e r He Hr IH]; [reflexivity|].
  unfold writes in *. cbn [filter]. destruct e; cbn [isUpdate]; try exact IH.
  destruct He as [He _]. discriminate He.
Qed.

Lemma turnEvents_update dry args evs u :
  Forall (turnEvent dry args) evs -> In (EUpdate u) evs ->
  u = guardedUpdate args (u_locale u) (u_data u).
Proof.
  intros Hall Hin. apply (proj1 (Forall_forall _ _) Hall) in Hin.
  destruct Hin as (_ & locale & data & ->). reflexivity.
Qed.

Lemma same_events {A} (h evs evs' : trace) (r r' : result A) :
  (h ++ evs, r) = (h ++ evs', r') -> evs = evs'.
Proof. intros [= E _]. now apply app_inv_head in E. Qed.

(** X14: with [dryRun] set no write is made, by either hook, whatever the model
    answers. *)
Theorem dry_run_never_writes
  (JSON_stringify : json -> string) (JSON_parse : string -> result json)
  (fetch : trace -> ChatRequest -> result Response)
  (findByID : trace -> string -> option json -> result json)
  (update : trace -> UpdateArgs -> result unit)
  (client : ClientOpts) (config : LocalizeConfig)
  (legacy : Legacy.LocalizeConfig) (args : HookArgs) (h : trace) :
  (dryRun config = Some true ->
   exists evs r,
     aiLocalizeCollection JSON_stringify JSON_parse fetch findByID update
       client config args h = (h ++ evs, r)
     /\ writes evs = [])
  /\ (Legacy.dryRun legacy = Some true ->
      exists evs r,
        Legacy.aiLocalizeCollection JSON_stringify JSON_parse fetch update
          client legacy args h = (h ++ evs, r)
        /\ writes evs = []).
Proof.
  split; intros Hdry.
  - destruct (hook_trace JSON_stringify JSON_parse fetch findByID update client config
                args h) as (pre & evs & r & E & Hpre & Hall & _).
    exists (pre ++ evs), r. split; [exact E|].
    rewrite Hdry in Hall. cbn [dryMode] in Hall.
    unfold writes. rewrite filter_app. fold (writes evs).
    rewrite (turnEvents_dry Hall).
    destruct Hpre as [->|[-> _]]; reflexivity.
  - destruct (legacy_hook_trace JSON_stringify JSON_parse fetch update client legacy
                args h) as (evs & r & E & Hall & _).
    exists evs, r. split; [exact E|].
    rewrite Hdry in Hall. now apply turnEvents_dry in Hall.
Qed.
Lemma dry_run_never_writes_witness :
  (exists evs r,
      aiLocalizeCollection noStringify parseAnswer fetchAnswer findNothing updateOk
        sampleClient dryConfig
        (mkHookArgs plainRequest docEnglishTitle titleCollection None) []
      = ([] ++ evs, r)
      /\ writes evs = [])
  /\ (exists evs r,
         Legacy.aiLocalizeCollection noStringify parseAnswer fetchAnswer updateOk
           sampleClient legacyDryConfig
           (mkHookArgs plainRequest docEnglishTitle titleCollection None) []
         = ([] ++ evs, r)
         /\ writes evs = []).
Proof.
  split.
  - apply (proj1 (@dry_run_never_writes noStringify parseAnswer fetchAnswer findNothing
                    updateOk sampleClient dryConfig legacyDryConfig
                    (mkHookArgs plainRequest docEnglishTitle titleCollection None) [])).
    reflexivity.
  - apply (proj2 (@dry_run_never_writes noStringify parseAnswer fetchAnswer findNothing
                    updateOk sampleClient dryConfig legacyDryConfig
                    (mkHookArgs plainRequest docEnglishTitle titleCollection None) [])).
    reflexivity.
Defined.

Lemma spread_guard o v : lookup HEADER_GUARD (spreadWith o HEADER_GUARD v) = Some v.
Proof. unfold spreadWith. apply assign_lookup. Qed.

Lemma guarded_request_returns
  (JSON_stringify : json -> string) (JSON_parse : string -> result json)
  (fetch : trace -> ChatRequest -> result Response)
  (findByID : trace -> string -> option json -> result json)
  (update : trace -> UpdateArgs -> result unit)
  client config legacy args h :
  headerOf (req args) HEADER_GUARD = Some (JStr "1") ->
  aiLocalizeCollection JSON_stringify JSON_parse fetch findByID update
    client config args h = (h, Ok (doc args))
  /\ Legacy.aiLocalizeCollection JSON_stringify JSON_parse fetch update
       client legacy args h = (h, Ok (doc args)).
Proof.
  intros H. unfold aiLocalizeCollection, Legacy.aiLocalizeCollection.
  rewrite H. split; reflexivity.
Qed.

(** X15: every write of either hook is the write of the document's own record
    (its collection and id, depth 0, access control overridden) and carries
    the marker in its context and in the headers of the request it passes
    on: a hook that is run on that request returns at once. *)
Theorem writes_carry_the_guard
  (JSON_stringify : json -> string) (JSON_parse : string -> result json)
  (fetch : trace -> ChatRequest -> result Response)
  (findByID : trace -> string -> option json -> result json)
  (update : trace -> UpdateArgs -> result unit)
  (client : ClientOpts) (config : LocalizeConfig)
  (legacy : Legacy.LocalizeConfig) (args : HookArgs) (h : trace)
  (evs : list event) (r : result json) (u : UpdateArgs) :
  aiLocalizeCollection JSON_stringify JSON_parse fetch findByID update
    client config args h = (h ++ evs, r)
  \/ Legacy.aiLocalizeCollection JSON_stringify JSON_parse fetch update
       client legacy args h = (h ++ evs, r) ->
  In (EUpdate u) evs ->
  u = guardedUpdate args (u_locale u) (u_data u)
  /\ headerOf (u_req u) HEADER_GUARD = Some (JStr "1")
  /\ lookup HEADER_GUARD (u_context u) = Some (JStr "1")
  /\ forall client' config' legacy' args' h',
       req args' = u_req u ->
       aiLocalizeCollection JSON_stringify JSON_parse fetch findByID update
         client' config' args' h' = (h', Ok (doc args'))
       /\ Legacy.aiLocalizeCollection JSON_stringify JSON_parse fetch update
            client' legacy' args' h' = (h', Ok (doc args')).
Proof.
  intros Hrun Hin.
  assert (Hu : u = guardedUpdate args (u_locale u) (u_data u)).
  { destruct Hrun as [Hrun|Hrun].
    - destruct (hook_trace JSON_stringify JSON_parse fetch findByID update client config
                  args h) as (pre & evs' & r' & E & Hpre & Hall & _).
      rewrite Hrun in E. apply same_events in E. subst evs.
      apply in_app_iff in Hin. destruct Hin as [Hin|Hin].
      + destruct Hpre as [->|[-> _]]; [destruct Hin|].
        destruct Hin as [Hin|[]]. discriminate Hin.
      + apply (@turnEvents_update _ _ _ u Hall Hin).
    - destruct (legacy_hook_trace JSON_stringify JSON_parse fetch update client legacy
                  args h) as (evs' & r' & E & Hall & _).
      rewrite Hrun in E. apply same_events in E. subst evs.
      apply (@turnEvents_update _ _ _ u Hall Hin). }
  split; [exact Hu|].
  assert (Hh : headerOf (u_req u) HEADER_GUARD = Some (JStr "1")).
  { rewrite Hu. unfold guardedUpdate, headerOf. cbn [u_req headers]. apply spread_guard. }
  split; [exact Hh|].
  split; [rewrite Hu; unfold guardedUpdate; cbn [u_context]; apply spread_guard|].
  intros client' config' legacy' args' h' Hreq.
  apply guarded_request_returns. now rewrite Hreq.
Qed.

Lemma writes_carry_the_guard_witness :
  guardedUpdate (mkHookArgs plainRequest docEnglishTitle titleCollection None) "de"
    (Some [("title", JStr "Titel")])
  = guardedUpdate (mkHookArgs plainRequest docEnglishTitle titleCollection None)
      (u_locale (guardedUpdate
                   (mkHookArgs plainRequest docEnglishTitle titleCollection None) "de"
                   (Some [("title", JStr "Titel")])))
      (u_data (guardedUpdate
                 (mkHookArgs plainRequest docEnglishTitle titleCollection None) "de"
                 (Some [("title", JStr "Titel")])))
  /\ headerOf (u_req (guardedUpdate
                        (mkHookArgs plainRequest docEnglishTitle titleCollection None)
                        "de" (Some [("title", JStr "Titel")]))) HEADER_GUARD
     = Some (JStr "1")
  /\ lookup HEADER_GUARD
       (u_context (guardedUpdate
                     (mkHookArgs plainRequest docEnglishTitle titleCollection None)
                     "de" (Some [("title", JStr "Titel")])))
     = Some (JStr "1")
  /\ forall client' config' legacy' args' h',
       req args'
       = u_req (guardedUpdate
                  (mkHookArgs plainRequest docEnglishTitle titleCollection None)
                  "de" (Some [("title", JStr "Titel")])) ->
       aiLocalizeCollection noStringify parseAnswer fetchAnswer findNothing updateOk
         client' config' args' h' = (h', Ok (doc args'))
       /\ Legacy.aiLocalizeCollection noStringify parseAnswer fetchAnswer updateOk
            client' legacy' args' h' = (h', Ok (doc args')).
Proof.
  eapply (@writes_carry_the_guard noStringify parseAnswer fetchAnswer findNothing
            updateOk sampleClient germanOnly legacyGermanOnly
            (mkHookArgs plainRequest docEnglishTitle titleCollection None) []).
  - left. cbv. reflexivity.
  - right. left. reflexivity.
Defined.
(** X16: the stored record is read at most once, before anything else, and only
    when the document that the hook is given is locale-scoped (its first
    localized field holds a string, an array or a Lexical document); the
    plain-text hook never reads. *)
Theorem record_is_read_at_most_once
  (JSON_stringify : json -> string) (JSON_parse : string -> result json)
  (fetch : trace -> ChatRequest -> result Response)
  (findByID : trace -> string -> option json -> result json)
  (update : trace -> UpdateArgs -> result unit)
  (client : ClientOpts) (config : LocalizeConfig)
  (legacy : Legacy.LocalizeConfig) (args : HookArgs) (h : trace) :
  (exists evs r,
      aiLocalizeCollection JSON_stringify JSON_parse fetch findByID update
        client config args h = (h ++ evs, r)
      /\ (reads evs = []
          \/ exists rest first,
               evs = readEvent args :: rest /\ reads rest = []
               /\ hd_error (fst (detectLocalizedFieldsWithMeta (collection args)))
                  = Some first
               /\ localizedView (getByPath (doc args) first) = true))
  /\ (exists evs r,
         Legacy.aiLocalizeCollection JSON_stringify JSON_parse fetch update
           client legacy args h = (h ++ evs, r)
         /\ reads evs = []).
Proof.
  split.
  - destruct (hook_trace JSON_stringify JSON_parse fetch findByID update client config
                args h) as (pre & evs & r & E & Hpre & Hall & _).
    exists (pre ++ evs), r. split; [exact E|].
    apply turnEvents_no_read in Hall.
    destruct Hpre as [->|(-> & first & Hfirst & Hview)]; [now left|].
    right. exists evs, first. repeat split; assumption.
  - destruct (legacy_hook_trace JSON_stringify JSON_parse fetch update client legacy
                args h) as (evs & r & E & Hall & _).
    exists evs, r. split; [exact E|]. now apply turnEvents_no_read in Hall.
Qed.



Lemma gateClosed_iff guardFlag doc :
  gateClosed guardFlag doc = true
  <-> exists name, guardFlag = Some name /\ name <> EmptyString
                   /\ optProp (Some doc) name = Some (JBool false).
Proof.
  unfold gateClosed, orElse. split.
  - destruct guardFlag as [name|]; [|discriminate].
    destruct (String.eqb_spec name EmptyString) as [->|Hne]; [discriminate|].
    intros H. exists name. repeat split; [exact Hne|].
    destruct (optProp (Some doc) name) as [[|[]| | | |]|]; try discriminate H.
    reflexivity.
  - intros (name & -> & Hne & Hv).
    destruct (String.eqb_spec name EmptyString) as [->|_]; [now elim Hne|].
    now rewrite Hv.
Qed.

(** X13: the hooks leave the document alone, without a read, a call or a write,
    when localization is not configured, when the collection declares no
    localized content field (structure-preserving hook), and when the
    document holds the literal [false] in the configured guard flag. *)
Theorem hook_leaves_document_alone
  (JSON_stringify : json -> string) (JSON_parse : string -> result json)
  (fetch : trace -> ChatRequest -> result Response)
  (findByID : trace -> string -> option json -> result json)
  (update : trace -> UpdateArgs -> result unit)
  (client : ClientOpts) (config : LocalizeConfig)
  (legacy : Legacy.LocalizeConfig) (args : HookArgs) (h : trace) :
  (localization (req args) = None
   \/ fst (detectLocalizedFieldsWithMeta (collection args)) = []
   \/ (exists name, guardFlagField config = Some name /\ name <> EmptyString
                    /\ optProp (Some (doc args)) name = Some (JBool false)) ->
   aiLocalizeCollection JSON_stringify JSON_parse fetch findByID update
     client config args h = (h, Ok (doc args)))
  /\ (localization (req args) = None
      \/ (exists name, Legacy.guardFlagField legacy = Some name /\ name <> EmptyString
                       /\ optProp (Some (doc args)) name = Some (JBool false)) ->
      Legacy.aiLocalizeCollection JSON_stringify JSON_parse fetch update
        client legacy args h = (h, Ok (doc args))).
Proof.
  split.
  - intros H. apply hook_returns_early.
    intros localesCfg firstField others fieldMeta (_ & Hloc & Hdet & Hgate).
    destruct H as [H|[H|H]].
    + congruence.
    + rewrite Hdet in H. discriminate H.
    + apply gateClosed_iff in H. congruence.
  - intros H. unfold Legacy.aiLocalizeCollection.
    destruct (strEq _ "1"); [reflexivity|].
    destruct (localization (req args)) as [localesCfg|] eqn:Hloc; [|reflexivity].
    destruct H as [H|H]; [discriminate H|].
    apply gateClosed_iff in H. now rewrite H.
Qed.

Lemma hook_leaves_document_alone_witness :
  aiLocalizeCollection noStringify parseAnswer fetchAnswer findNothing updateOk
    sampleClient flagConfig
    (mkHookArgs plainRequest docSwitchedOff titleCollection None) []
  = ([], Ok docSwitchedOff)
  /\ Legacy.aiLocalizeCollection noStringify parseAnswer fetchAnswer updateOk
       sampleClient legacyConfig
       (mkHookArgs (mkRequest None None None) docSwitchedOff titleCollection None) []
     = ([], Ok docSwitchedOff).
Proof.
  split.
  - apply (proj1 (@hook_leaves_document_alone noStringify parseAnswer fetchAnswer
                    findNothing updateOk sampleClient flagConfig legacyConfig
                    (mkHookArgs plainRequest docSwitchedOff titleCollection None) [])).
    right. right. exists "autoLocalize". repeat split. discriminate.
  - apply (proj2 (@hook_leaves_document_alone noStringify parseAnswer fetchAnswer
                    findNothing updateOk sampleClient flagConfig legacyConfig
                    (mkHookArgs (mkRequest None None None) docSwitchedOff
                                titleCollection None) [])).
    now left.
Defined.
(** X18: no hook writes to a locale outside the configuration: the
    structure-preserving hook writes to requested target locales only, the
    plain-text hook to configured locales only. *)
Theorem writes_stay_within_locales
  (JSON_stringify : json -> string) (JSON_parse : string -> result json)
  (fetch : trace -> ChatRequest -> result Response)
  (findByID : trace -> string -> option json -> result json)
  (update : trace -> UpdateArgs -> result unit)
  (client : ClientOpts) (config : LocalizeConfig)
  (legacy : Legacy.LocalizeConfig) (args : HookArgs) (h : trace)
  (localesCfg : Localization) (evs : list event) (r : result json) (u : UpdateArgs) :
  localization (req args) = Some localesCfg ->
  In (EUpdate u) evs ->
  (aiLocalizeCollection JSON_stringify JSON_parse fetch findByID update
     client config args h = (h ++ evs, r) ->
   In (u_locale u) (requestedTargets config (allLocales localesCfg)))
  /\ (Legacy.aiLocalizeCollection JSON_stringify JSON_parse fetch update
        client legacy args h = (h ++ evs, r) ->
      In (u_locale u) (allLocales localesCfg)).
Proof.
  intros Hloc Hin. split; intros Hrun.
  - destruct (@updates_within_targets JSON_stringify JSON_parse fetch findByID update
                client config args h evs r u Hrun Hin)
      as (localesCfg' & stored & sc & Hloc' & _ & Ht).
    rewrite Hloc in Hloc'. injection Hloc' as <-.
    unfold targets in Ht. now apply filter_In in Ht.
  - destruct (legacy_hook_trace JSON_stringify JSON_parse fetch update client legacy
                args h) as (evs' & r' & E & _ & Hlen).
    rewrite Hrun in E. apply same_events in E. subst evs'.
    now apply (proj2 (Hlen localesCfg Hloc)).
Qed.

Lemma writes_stay_within_locales_witness :
  In (u_locale (guardedUpdate
                  (mkHookArgs plainRequest docEnglishTitle titleCollection None)
                  "de" (Some [("title", JStr "Titel")])))
     (requestedTargets germanOnly (allLocales sampleLocalization)).
Proof.
  eapply (proj1 (@writes_stay_within_locales noStringify parseAnswer fetchAnswer
                   findNothing updateOk sampleClient germanOnly legacyGermanOnly
                   (mkHookArgs plainRequest docEnglishTitle titleCollection None) []
                   sampleLocalization _ _ _ eq_refl _)).
  cbv. reflexivity.
  Unshelve. right. left. reflexivity.
Defined.

(** ** The plain-text hook *)

Lemma assign_In {A} k (v : A) kv e :
  In e (assign k v kv) -> e = (k, v) \/ In e kv.
Proof.
  induction kv as [|[k' v'] r IH]; cbn [assign].
  - intros [<-|[]]. now left.
  - destruct (String.eqb k' k).
    + intros [<-|H]; [now left|right; now right].
    + intros [<-|H]; [right; now left|].
      destruct (IH H) as [->|H']; [now left|right; now right].
Qed.

Lemma insertIndex_In {A} i (e : string * A) l x :
  In x (insertIndex i e l) -> x = (i, e) \/ In x l.
Proof.
  induction l as [|[j e'] r IH]; cbn [insertIndex].
  - intros [<-|[]]. now left.
  - destruct (i <? j)%N.
    + intros [<-|H]; [now left|now right].
    + intros [<-|H]; [right; now left|].
      destruct (IH H) as [->|H']; [now left|right; now right].
Qed.

Lemma indexEntries_In {A} (kv : list (string * A)) x :
  In x (indexEntries kv) -> In (snd x) kv.
Proof.
  unfold indexEntries. induction kv as [|e r IH]; cbn [fold_right]; [intros []|].
  destruct (array_index (fst e)).
  - intros H. apply insertIndex_In in H as [->|H]; [now left|right; now apply IH].
  - intros H. right. now apply IH.
Qed.

Lemma Object_entries_In {A} (kv : list (string * A)) e :
  In e (Object_entries kv) -> In e kv.
Proof.
  unfold Object_entries. intros H. apply in_app_iff in H as [H|H].
  - apply in_map_iff in H as (x & <- & Hx). now apply indexEntries_In.
  - now apply filter_In in H.
Qed.

Lemma hasSourceText_blank sv :
  (forall e, In e sv -> snd e = EmptyString) -> hasSourceText sv = false.
Proof.
  intros H. unfold hasSourceText.
  destruct (existsb _ _) eqn:E; [|reflexivity].
  apply existsb_exists in E as (e & He & Hb).
  apply Object_entries_In in He. rewrite (H e He) in Hb. discriminate Hb.
Qed.

Lemma valuesIn_blank doc locale fs :
  (forall f, In f fs -> isObject (optProp (Some doc) f) = false) ->
  forall e, In e (Legacy.valuesIn doc locale fs) -> snd e = EmptyString.
Proof.
  intros H. unfold Legacy.valuesIn.
  assert (G : forall acc,
             (forall e, In e acc -> snd e = EmptyString) ->
             forall e,
               In e (fold_left
                       (fun acc f =>
                          let v := optProp (Some doc) f in
                          assign f (if isObject v
                                    then Legacy.orEmptyString (optProp v locale)
                                    else EmptyString) acc) fs acc) ->
               snd e = EmptyString).
  { induction fs as [|f r IH]; intros acc Hacc e He; [now apply Hacc|].
    cbn [fold_left] in He. apply (IH (fun g Hg => H g (or_intror Hg))) in He;
      [exact He|].
    intros e' He'. cbv zeta in He'. rewrite (H f (or_introl eq_refl)) in He'.
    apply assign_In in He' as [->|He']; [reflexivity|now apply Hacc]. }
  apply G. intros e [].
Qed.

Lemma firstLocaleWithContent_none doc fs sv cands :
  (forall l, In l cands -> hasSourceText (Legacy.valuesIn doc l fs) = false) ->
  Legacy.firstLocaleWithContent doc fs sv cands = (None, sv).
Proof.
  induction cands as [|l r IH]; intros H; [reflexivity|].
  cbn [Legacy.firstLocaleWithContent]. cbv zeta.
  rewrite (H l (or_introl eq_refl)). apply IH. intros l' Hl'. apply H. now right.
Qed.

Lemma writes_nil l : (forall u, ~ In (EUpdate u) l) -> writes l = [].
Proof.
  intros H. unfold writes. induction l as [|e r IH]; [reflexivity|].
  cbn [filter]. destruct e as [| |u| |]; cbn [isUpdate];
    try (apply IH; intros v Hv; apply (H v); now right).
  exfalso. apply (H u). now left.
Qed.

Lemma legacy_no_source_text config args localesCfg :
  (forall f, In f (Legacy.fields config) ->
             isObject (optProp (Some (doc args)) f) = false
             /\ isString (optProp (Some (doc args)) f) = false) ->
  hasSourceText (legacySourceValues config args localesCfg) = false.
Proof.
  intros H. unfold legacySourceValues, legacyDetected.
  assert (Hvalues : forall l, hasSourceText (Legacy.valuesIn (doc args) l
                                               (Legacy.fields config)) = false).
  { intros l. apply hasSourceText_blank. apply valuesIn_blank.
    intros f Hf. apply (H f Hf). }
  destruct (Legacy.fields config) as [|first others] eqn:Efields.
  - destruct (isString _); [reflexivity|].
    rewrite Hvalues, firstLocaleWithContent_none by (intros; apply Hvalues).
    reflexivity.
  - rewrite (proj2 (H first (or_introl eq_refl))).
    rewrite Hvalues, firstLocaleWithContent_none by (intros; apply Hvalues).
    cbn [fst snd]. apply Hvalues.
Qed.

(** X19: the plain-text hook asks nothing of the model and writes nothing for a
    document in which none of the configured fields holds a string or an
    object: this is so for every document of a collection that does not
    have the configured fields.  The hook returns the document, or throws
    at its log line when the start of the line cannot be made (a document
    that is [null]). *)
Theorem legacy_hook_without_its_fields
  (JSON_stringify : json -> string) (JSON_parse : string -> result json)
  (fetch : trace -> ChatRequest -> result Response)
  (update : trace -> UpdateArgs -> result unit)
  (client : ClientOpts) (config : Legacy.LocalizeConfig) (args : HookArgs)
  (h : trace) :
  (forall f, In f (Legacy.fields config) ->
             ownPath (Some (doc args)) [f] = true
             /\ isObject (optProp (Some (doc args)) f) = false
             /\ isString (optProp (Some (doc args)) f) = false) ->
  exists evs r,
    Legacy.aiLocalizeCollection JSON_stringify JSON_parse fetch update
      client config args h = (h ++ evs, r)
    /\ llmCalls evs = [] /\ writes evs = []
    /\ (r = Ok (doc args) \/ exists e, Legacy.tag args = Throw e /\ r = Throw e).
Proof.
  intros H.
  assert (Hnil : exists evs r,
             (h, Ok (doc args)) = (h ++ evs, r)
             /\ llmCalls evs = [] /\ writes evs = []
             /\ (r = Ok (doc args) \/ exists e, Legacy.tag args = Throw e /\ r = Throw e)).
  { exists [], (Ok (doc args)). rewrite app_nil_r. repeat split. now left. }
  destruct (strEq (headerOf (req args) HEADER_GUARD) "1") eqn:Hguard.
  { unfold Legacy.aiLocalizeCollection. now rewrite Hguard. }
  destruct (localization (req args)) as [localesCfg|] eqn:Hloc.
  2:{ unfold Legacy.aiLocalizeCollection. now rewrite Hguard, Hloc. }
  destruct (gateClosed (Legacy.guardFlagField config) (doc args)) eqn:Hgate.
  { unfold Legacy.aiLocalizeCollection. now rewrite Hguard, Hloc, Hgate. }
  clear Hnil.
  assert (Hruns : legacyRuns config args localesCfg) by (repeat split; assumption).
  pose proof (@legacy_hook_outcome JSON_stringify JSON_parse fetch update client
                config args localesCfg h Hruns) as Hout.
  destruct (Legacy.tag args) as [t|e] eqn:Htag.
  - destruct Hout as (evs & E & Hc & _ & Hu).
    rewrite legacy_no_source_text in Hc, Hu by (intros f Hf; apply (H f Hf)).
    destruct (@legacyLogs_quiet t config args localesCfg false) as (_ & Hquiet & Hnow).
    exists (legacyLogs t config args localesCfg ++ evs), (Ok (doc args)).
    split; [exact E|]. split; [|split; [|now left]].
    + unfold llmCalls in *. now rewrite filter_app, Hquiet, Hc.
    + apply writes_nil. intros u Hin. apply in_app_iff in Hin.
      destruct Hin as [Hin|Hin]; [now apply Hnow in Hin|].
      apply Hu in Hin. destruct Hin as [Hin _]. discriminate Hin.
  - exists [], (Throw e). rewrite app_nil_r. split; [exact Hout|].
    repeat split. right. now exists e.
Qed.

Lemma legacy_hook_without_its_fields_witness :
  exists evs r,
    Legacy.aiLocalizeCollection noStringify parseAnswer fetchAnswer updateOk
      articlesClient articlesHookConfig
      (mkHookArgs plainRequest sampleArticle Articles None) []
    = ([] ++ evs, r)
    /\ llmCalls evs = [] /\ writes evs = []
    /\ (r = Ok sampleArticle
        \/ exists e,
             Legacy.tag (mkHookArgs plainRequest sampleArticle Articles None) = Throw e
             /\ r = Throw e).
Proof.
  apply (@legacy_hook_without_its_fields noStringify parseAnswer fetchAnswer updateOk
           articlesClient articlesHookConfig
           (mkHookArgs plainRequest sampleArticle Articles None) []).
  intros f [<-|[<-|[]]]; repeat split; reflexivity.
Defined.
Lemma legacy_fieldMissing_plain doc locale f :
  isObject (optProp (Some doc) f) = false -> Legacy.fieldMissing doc locale f = true.
Proof. unfold Legacy.fieldMissing. now intros ->. Qed.

Lemma filter_all {A} (p : A -> bool) l :
  (forall x, In x l -> p x = true) -> filter p l = l.
Proof.
  induction l as [|x r IH]; intros H; [reflexivity|].
  cbn [filter]. rewrite (H x (or_introl eq_refl)), IH; [reflexivity|].
  intros y Hy. apply H. now right.
Qed.

Lemma legacy_toFill_all doc fs ls :
  fs <> [] ->
  (forall f, In f fs -> isObject (optProp (Some doc) f) = false) ->
  Legacy.toFill doc fs ls = map (fun l => (l, fs)) ls.
Proof.
  intros Hne H. unfold Legacy.toFill.
  induction ls as [|l r IH]; [reflexivity|].
  cbn [flat_map map]. rewrite IH.
  rewrite filter_all by (intros f Hf; apply legacy_fieldMissing_plain, H, Hf).
  destruct fs; [now elim Hne|reflexivity].
Qed.

(** X20: given a locale-scoped document (its fields hold plain values, the first
    a string, and some text), the plain-text hook takes the locale of the
    request as the source (the configured source locale when the request
    has none) and asks the model for every configured field in every other
    configured locale: what those locales already hold is not looked
    at. *)
Theorem legacy_locale_view_asks_for_every_field
  (JSON_stringify : json -> string) (JSON_parse : string -> result json)
  (fetch : trace -> ChatRequest -> result Response)
  (update : trace -> UpdateArgs -> result unit)
  (client : ClientOpts) (config : Legacy.LocalizeConfig) (args : HookArgs)
  (h : trace) (localesCfg : Localization) (first : string) (others : list string)
  (t : string) :
  legacyRuns config args localesCfg ->
  Legacy.tag args = Ok t ->
  Legacy.fields config = first :: others ->
  isString (optProp (Some (doc args)) first) = true ->
  (forall f, In f (Legacy.fields config) ->
             ownPath (Some (doc args)) [f] = true
             /\ isObject (optProp (Some (doc args)) f) = false) ->
  hasSourceText (Legacy.plainValues (doc args) (Legacy.fields config)) = true ->
  exists evs,
    Legacy.aiLocalizeCollection JSON_stringify JSON_parse fetch update
      client config args h = (h ++ evs, Ok (doc args))
    /\ llmCalls evs
       = map (fun l =>
                EFetch (legacyRequestFor JSON_stringify client config args
                          (localeContext config (req args) localesCfg)
                          (Legacy.plainValues (doc args) (Legacy.fields config))
                          (l, Legacy.fields config)))
             (filter (Legacy.otherThan (localeContext config (req args) localesCfg))
                     (allLocales localesCfg)).
Proof.
  intros Hruns Htag Hfields Hstr Hplain Htext.
  pose proof (@legacy_hook_outcome JSON_stringify JSON_parse fetch update client
                config args localesCfg h Hruns) as Hout.
  rewrite Htag in Hout. destruct Hout as (evs & E & Hc & _).
  assert (Hdet : legacyDetected config args localesCfg
                 = (Some (" - detected locale context: "
                          ++ toString (localeContext config (req args) localesCfg))%string,
                    (localeContext config (req args) localesCfg,
                     Legacy.plainValues (doc args) (Legacy.fields config)))).
  { unfold legacyDetected. rewrite Hfields. rewrite Hstr. reflexivity. }
  unfold legacySourceValues, legacySource, legacyTodo, legacySource in Hc.
  rewrite Hdet in Hc. cbn [fst snd] in Hc. rewrite Htext in Hc.
  rewrite legacy_toFill_all in Hc;
    [|rewrite Hfields; discriminate|intros f Hf; apply (Hplain f Hf)].
  rewrite map_map in Hc. cbn [fst snd] in Hc.
  destruct (@legacyLogs_quiet t config args localesCfg false) as (_ & Hquiet & _).
  exists (legacyLogs t config args localesCfg ++ evs). split; [exact E|].
  unfold llmCalls in *. now rewrite filter_app, Hquiet, Hc.
Qed.

Lemma legacy_locale_view_asks_for_every_field_witness :
  exists evs,
    Legacy.aiLocalizeCollection noStringify parseAnswer fetchAnswer updateOk
      sampleClient legacyConfig
      (mkHookArgs germanRequest docGermanScoped titleCollection None) []
    = ([] ++ evs, Ok docGermanScoped)
    /\ llmCalls evs
       = map (fun l =>
                EFetch (legacyRequestFor noStringify sampleClient legacyConfig
                          (mkHookArgs germanRequest docGermanScoped titleCollection None)
                          (localeContext legacyConfig germanRequest sampleLocalization)
                          (Legacy.plainValues docGermanScoped (Legacy.fields legacyConfig))
                          (l, Legacy.fields legacyConfig)))
             (filter (Legacy.otherThan
                        (localeContext legacyConfig germanRequest sampleLocalization))
                     (allLocales sampleLocalization)).
Proof.
  apply (@legacy_locale_view_asks_for_every_field noStringify parseAnswer fetchAnswer
           updateOk sampleClient legacyConfig
           (mkHookArgs germanRequest docGermanScoped titleCollection None) []
           sampleLocalization "title" [] "[aiLocalize] articles#10");
    try reflexivity.
  - repeat split.
  - intros f [<-|[]]. split; reflexivity.
Defined.


(** ** The call to the model *)

(** X22: [callJSONModel] posts one request.  It returns a value only when the
    response is ok, its body is JSON with a truthy
    [choices[0].message.content], and that content parses: the value is the
    parsed content.  A response that is not ok is an error that carries the
    status and the text of the response (no text when it cannot be
    read). *)
Theorem callJSONModel_answers
  (JSON_parse : string -> result json)
  (fetch : trace -> ChatRequest -> result Response)
  (opts : ClientOpts) (sys user : string) (h : trace) :
  exists r,
    callJSONModel JSON_parse fetch opts sys user h
    = (h ++ [EFetch (chatRequest opts sys user)], r)
    /\ (forall v,
           r = Ok v <->
           exists res body,
             fetch h (chatRequest opts sys user) = Ok res
             /\ ok res = true
             /\ json_body res = Ok body
             /\ truthy (optProp (optProp (optProp (optProp (Some body) "choices") "0")
                                         "message") "content") = true
             /\ JSON_parse
                  (interpolate
                     (optProp (optProp (optProp (optProp (Some body) "choices") "0")
                                       "message") "content")) = Ok v)
    /\ (forall res,
           fetch h (chatRequest opts sys user) = Ok res -> ok res = false ->
           r = Throw (Failure ("LLM error " ++ Z_to_string (status res) ++ ": "
                               ++ match text res with
                                  | Ok t => t
                                  | Throw _ => EmptyString
                                  end)))
    /\ (forall e, fetch h (chatRequest opts sys user) = Throw e -> r = Throw e).
Proof.
  cbv beta iota zeta delta [callJSONModel bind doFetch liftR throw].
  destruct (fetch h (chatRequest opts sys user)) as [res|e] eqn:Ef.
  - destruct (ok res) eqn:Hok; cbn [negb].
    + destruct (json_body res) as [body|e] eqn:Hb.
      * destruct (truthy (optProp (optProp (optProp (optProp (Some body) "choices") "0")
                                           "message") "content")) eqn:Ht; cbn [negb].
        -- eexists. split; [reflexivity|]. split; [|split].
           ++ intros v. split.
              ** intros Hv. exists res, body. repeat split; assumption.
              ** intros (res' & body' & [= <-] & _ & Hb' & _ & Hp).
                 rewrite Hb in Hb'. injection Hb' as <-. exact Hp.
           ++ intros res' [= <-] Hok'. congruence.
           ++ discriminate.
        -- eexists. split; [reflexivity|]. split; [|split].
           ++ intros v. split; [discriminate|].
              intros (res' & body' & [= <-] & _ & Hb' & Ht' & _).
              rewrite Hb in Hb'. injection Hb' as <-. congruence.
           ++ intros res' [= <-] Hok'. congruence.
           ++ discriminate.
      * eexists. split; [reflexivity|]. split; [|split].
        -- intros v. split; [discriminate|].
           intros (res' & body' & [= <-] & _ & Hb' & _). congruence.
        -- intros res' [= <-] Hok'. congruence.
        -- discriminate.
    + eexists. split; [reflexivity|]. split; [|split].
      * intros v. split; [discriminate|].
        intros (res' & body' & [= <-] & Hok' & _). congruence.
      * intros res' [= <-] _. reflexivity.
      * discriminate.
  - eexists. split; [reflexivity|]. split; [|split].
    + intros v. split; [discriminate|]. intros (res' & body' & Hf & _). discriminate Hf.
    + discriminate.
    + intros e' [= <-]. reflexivity.
Qed.

Lemma callJSONModel_answers_witness :
  callJSONModel parseAnswer fetchAnswer sampleClient "system" "user" []
  = ([EFetch (chatRequest sampleClient "system" "user")],
     Ok (JObj [("title", JStr "Titel"); ("body", JStr "Text")])).
Proof.
  destruct (callJSONModel_answers parseAnswer fetchAnswer sampleClient "system" "user" [])
    as (r & E & Hv & _).
  rewrite E. cbn [app]. f_equal. apply Hv.
  do 2 eexists. repeat split; reflexivity.
Defined.

(** ** Slugs *)

Ltac nbool :=
  repeat match goal with
         | H : _ && _ = true |- _ => apply andb_true_iff in H; destruct H
         | H : _ || _ = true |- _ => apply orb_true_iff in H
         | H : _ && _ = false |- _ => apply andb_false_iff in H
         | H : _ || _ = false |- _ => apply orb_false_iff in H; destruct H
         | H : negb _ = true |- _ => apply negb_true_iff in H
         | H : negb _ = false |- _ => apply negb_false_iff in H
         | H : (_ <=? _)%N = true |- _ => apply N.leb_le in H
         | H : (_ <=? _)%N = false |- _ => apply N.leb_gt in H
         | H : (_ <? _)%N = true |- _ => apply N.ltb_lt in H
         | H : (_ <? _)%N = false |- _ => apply N.ltb_ge in H
         | H : (_ =? _)%N = true |- _ => apply N.eqb_eq in H
         | H : (_ =? _)%N = false |- _ => apply N.eqb_neq in H
         | H : _ \/ _ |- _ => destruct H
         end.

Lemma slugUnit_small c : slugUnit c = true -> (c < 128)%N.
Proof. unfold slugUnit, isAlnum, between, dash. intros H. nbool; lia. Qed.

Lemma dashRuns_units inRun l : forallb slugUnit (dashRuns inRun l) = true.
Proof.
  revert inRun. induction l as [|c r IH]; intros inRun; [reflexivity|].
  cbn [dashRuns]. destruct (isAlnum c) eqn:Hc.
  - cbn [forallb]. unfold slugUnit at 1. now rewrite Hc, IH.
  - destruct inRun; [apply IH|]. cbn [forallb]. now rewrite IH.
Qed.

Lemma isAlnum_not_dash c : isAlnum c = true -> (c =? dash)%N = false.
Proof.
  unfold isAlnum, between, dash. intros H. apply N.eqb_neq. nbool; lia.
Qed.

Lemma noDoubleDash_cons c l :
  noDoubleDash (c :: l)
  = negb ((c =? dash)%N && startsWithDash l) && noDoubleDash l.
Proof.
  destruct l as [|d r]; [|reflexivity].
  cbn [noDoubleDash startsWithDash]. now rewrite andb_false_r.
Qed.

Lemma dashRuns_single inRun l :
  noDoubleDash (dashRuns inRun l) = true
  /\ (inRun = true -> startsWithDash (dashRuns inRun l) = false).
Proof.
  revert inRun. induction l as [|c r IH]; intros inRun; [split; reflexivity|].
  cbn [dashRuns]. destruct (isAlnum c) eqn:Hc.
  - rewrite noDoubleDash_cons, (isAlnum_not_dash _ Hc).
    cbn [andb negb startsWithDash]. split; [apply IH|intros _; now apply isAlnum_not_dash].
  - destruct inRun; [apply IH|].
    rewrite noDoubleDash_cons, (proj2 (IH true) eq_refl), andb_false_r.
    cbn [negb andb]. split; [apply IH|discriminate].
Qed.

Lemma dropLastDash_cons c d r :
  dropLastDash (c :: d :: r) = c :: dropLastDash (d :: r).
Proof. reflexivity. Qed.

Lemma dropLastDash_units l :
  forallb slugUnit l = true -> forallb slugUnit (dropLastDash l) = true.
Proof.
  induction l as [|c [|d r] IH]; [reflexivity| |].
  - cbn [dropLastDash]. intros H. now destruct (c =? dash)%N.
  - rewrite dropLastDash_cons. cbn [forallb] in *. intros H.
    apply andb_true_iff in H as [H1 H2]. now rewrite H1, IH.
Qed.

Lemma dropLastDash_start l :
  startsWithDash l = false -> startsWithDash (dropLastDash l) = false.
Proof.
  destruct l as [|c [|d r]]; [reflexivity| |].
  - cbn [dropLastDash startsWithDash]. intros H. now rewrite H.
  - rewrite dropLastDash_cons. now cbn [startsWithDash].
Qed.

Lemma dropLastDash_single l :
  noDoubleDash l = true ->
  noDoubleDash (dropLastDash l) = true /\ endsWithDash (dropLastDash l) = false.
Proof.
  induction l as [|c [|d r] IH]; [split; reflexivity| |].
  - cbn [dropLastDash]. intros _. destruct (c =? dash)%N eqn:E; [split; reflexivity|].
    split; [reflexivity|]. cbn [endsWithDash]. exact E.
  - rewrite dropLastDash_cons. intros H.
    rewrite noDoubleDash_cons in H. apply andb_true_iff in H as [H1 H2].
    destruct (IH H2) as [IH1 IH2].
    rewrite noDoubleDash_cons, IH1, andb_true_r. split.
    + apply negb_true_iff. apply negb_true_iff in H1.
      apply andb_false_iff in H1 as [H1|H1]; [now rewrite H1|].
      rewrite (dropLastDash_start _ H1). apply andb_false_r.
    + destruct (dropLastDash (d :: r)) as [|x y] eqn:E.
      * cbn [endsWithDash]. apply negb_true_iff in H1.
        apply andb_false_iff in H1 as [H1|H1]; [exact H1|].
        exfalso. destruct r as [|e r']; cbn [dropLastDash] in E.
        -- cbn [startsWithDash] in H1. rewrite H1 in E. discriminate E.
        -- discriminate E.
      * exact IH2.
Qed.

Lemma stripEdgeDashes_shape l :
  forallb slugUnit l = true -> noDoubleDash l = true ->
  forallb slugUnit (stripEdgeDashes l) = true
  /\ noDoubleDash (stripEdgeDashes l) = true
  /\ startsWithDash (stripEdgeDashes l) = false
  /\ endsWithDash (stripEdgeDashes l) = false.
Proof.
  intros Hu Hd. destruct l as [|c r]; [repeat split|].
  cbn [stripEdgeDashes]. destruct (c =? dash)%N eqn:Hc.
  - rewrite noDoubleDash_cons, Hc in Hd. cbn [andb] in Hd.
    apply andb_true_iff in Hd as [Hs Hd]. apply negb_true_iff in Hs.
    cbn [forallb] in Hu. apply andb_true_iff in Hu as [_ Hu].
    destruct (dropLastDash_single _ Hd) as [H1 H2].
    repeat split; [now apply dropLastDash_units|exact H1|
                   now apply dropLastDash_start|exact H2].
  - destruct (dropLastDash_single _ Hd) as [H1 H2].
    repeat split; [now apply dropLastDash_units|exact H1| |exact H2].
    apply dropLastDash_start. exact Hc.
Qed.

Lemma firstn_units n l :
  forallb slugUnit l = true -> forallb slugUnit (firstn n l) = true.
Proof.
  revert l. induction n as [|n IH]; intros [|c r] H; try reflexivity.
  cbn [firstn forallb] in *. apply andb_true_iff in H as [H1 H2].
  now rewrite H1, IH.
Qed.

Lemma firstn_start n l :
  startsWithDash l = false -> startsWithDash (firstn n l) = false.
Proof. destruct n, l; auto. Qed.

Lemma firstn_single n l :
  noDoubleDash l = true -> noDoubleDash (firstn n l) = true.
Proof.
  revert l. induction n as [|n IH]; intros [|c r] H; try reflexivity.
  cbn [firstn]. rewrite noDoubleDash_cons in *. apply andb_true_iff in H as [H1 H2].
  rewrite (IH r H2), andb_true_r.
  apply negb_true_iff. apply negb_true_iff in H1.
  apply andb_false_iff in H1 as [H1|H1]; [now rewrite H1|].
  rewrite (firstn_start n r H1). apply andb_false_r.
Qed.

Lemma firstn_shape n l :
  forallb slugUnit l = true -> noDoubleDash l = true -> startsWithDash l = false ->
  forallb slugUnit (firstn n l) = true
  /\ noDoubleDash (firstn n l) = true
  /\ startsWithDash (firstn n l) = false.
Proof.
  intros Hu Hd Hs. repeat split;
    [now apply firstn_units|now apply firstn_single|now apply firstn_start].
Qed.

Lemma codeUnits_fromCodeUnits l :
  forallb slugUnit l = true -> codeUnits (fromCodeUnits l) = l.
Proof.
  unfold codeUnits, fromCodeUnits. rewrite list_ascii_of_string_of_list_ascii, map_map.
  induction l as [|c r IH]; [reflexivity|].
  cbn [forallb map]. intros H. apply andb_true_iff in H as [Hc Hr].
  rewrite (IH Hr). f_equal. apply N_ascii_embedding.
  apply slugUnit_small in Hc. lia.
Qed.

Lemma length_fromCodeUnits l : String.length (fromCodeUnits l) = List.length l.
Proof.
  unfold fromCodeUnits. induction l as [|c r IH]; [reflexivity|].
  cbn [map string_of_list_ascii String.length List.length]. now rewrite IH.
Qed.

(** The code units of [slugify s]. *)
Lemma slugify_units s :
  exists l,
    slugify s = fromCodeUnits (firstn 120 l)
    /\ forallb slugUnit l = true /\ noDoubleDash l = true
    /\ startsWithDash l = false /\ endsWithDash l = false.
Proof.
  unfold slugify. eexists. split; [reflexivity|].
  apply stripEdgeDashes_shape; [apply dashRuns_units|apply dashRuns_single].
Qed.

(** The shape of a slug, for the proofs that follow. *)
Lemma slug_wellformed (s : string) :
  slugShaped (slugify s) = true
  /\ String.length (slugify s) <= 120
  /\ (String.length (slugify s) < 120 ->
      endsWithDash (codeUnits (slugify s)) = false).
Proof.
  destruct (slugify_units s) as (l & -> & Hu & Hd & Hs & He).
  destruct (firstn_shape 120 l Hu Hd Hs) as (Fu & Fd & Fs).
  rewrite length_fromCodeUnits. unfold slugShaped. cbv zeta.
  rewrite (codeUnits_fromCodeUnits _ Fu), Fu, Fd, Fs.
  split; [reflexivity|]. split; [apply firstn_le_length|].
  intros Hlt. rewrite firstn_all2; [exact He|].
  destruct (Nat.le_gt_cases (List.length l) 120) as [H|H]; [exact H|].
  rewrite firstn_length_le in Hlt by lia. lia.
Qed.

(** X23: a slug is made of lower-case letters, digits and single dashes, does
    not start with a dash and has at most 120 characters; it does not end
    with a dash either unless it was cut at 120 characters. *)
Theorem slugify_shape (s : string) :
  slugShaped (slugify s) = true
  /\ String.length (slugify s) <= 120
  /\ (String.length (slugify s) < 120 ->
      endsWithDash (codeUnits (slugify s)) = false).
Proof.
  destruct (slugify_units s) as (l & -> & Hu & Hd & Hs & He).
  destruct (firstn_shape 120 l Hu Hd Hs) as (Fu & Fd & Fs).
  rewrite length_fromCodeUnits. unfold slugShaped. cbv zeta.
  rewrite (codeUnits_fromCodeUnits _ Fu), Fu, Fd, Fs.
  split; [reflexivity|]. split; [apply firstn_le_length|].
  intros Hlt. rewrite firstn_all2; [exact He|].
  destruct (Nat.le_gt_cases (List.length l) 120) as [H|H]; [exact H|].
  rewrite firstn_length_le in Hlt by lia. lia.
Qed.

Lemma slugify_shape_witness :
  slugShaped (slugify "Hello, World!") = true
  /\ String.length (slugify "Hello, World!") <= 120
  /\ endsWithDash (codeUnits (slugify "Hello, World!")) = false.
Proof.
  destruct (slugify_shape "Hello, World!") as (H1 & H2 & H3).
  split; [exact H1|]. split; [exact H2|].
  apply H3. apply Nat.ltb_lt. reflexivity.
Defined.

Lemma lowerUnit_slug c : slugUnit c = true -> lowerUnit c = c.
Proof.
  unfold lowerUnit, slugUnit, isAlnum, between, dash. intros H.
  destruct (((65 <=? c)%N && (c <=? 90)%N
             || (192 <=? c)%N && (c <=? 222)%N && negb (c =? 215)%N)) eqn:E;
    [|reflexivity].
  exfalso. nbool; lia.
Qed.

Lemma decomposeNFKD_slug c : slugUnit c = true -> decomposeNFKD c = [c].
Proof.
  intros H. apply slugUnit_small in H. unfold decomposeNFKD.
  destruct (c <? 160)%N eqn:E; [reflexivity|]. apply N.ltb_ge in E. lia.
Qed.

Lemma isMark_slug c : slugUnit c = true -> isMark c = false.
Proof.
  intros H. apply slugUnit_small in H. unfold isMark, between.
  apply andb_false_iff. left. apply N.leb_gt. lia.
Qed.

Lemma fold_slug l :
  forallb slugUnit l = true ->
  filter (fun c => negb (isMark c)) (flat_map decomposeNFKD (map lowerUnit l)) = l.
Proof.
  induction l as [|c r IH]; [reflexivity|].
  cbn [forallb map flat_map]. intros H. apply andb_true_iff in H as [Hc Hr].
  rewrite (lowerUnit_slug _ Hc), (decomposeNFKD_slug _ Hc).
  cbn [app filter]. now rewrite (isMark_slug _ Hc), (IH Hr).
Qed.

Lemma dashRuns_slug l :
  forallb slugUnit l = true -> noDoubleDash l = true ->
  forall inRun, (inRun = true -> startsWithDash l = false) ->
                dashRuns inRun l = l.
Proof.
  induction l as [|c r IH]; intros Hu Hd inRun Hs; [reflexivity|].
  cbn [forallb] in Hu. apply andb_true_iff in Hu as [Hc Hr].
  rewrite noDoubleDash_cons in Hd. apply andb_true_iff in Hd as [Hd1 Hd2].
  cbn [dashRuns]. destruct (isAlnum c) eqn:Ha.
  - f_equal. apply (IH Hr Hd2). discriminate.
  - unfold slugUnit in Hc. rewrite Ha in Hc. cbn [orb] in Hc.
    destruct inRun.
    + specialize (Hs eq_refl). cbn [startsWithDash] in Hs. congruence.
    + apply N.eqb_eq in Hc as Hc'. rewrite Hc'. f_equal.
      apply (IH Hr Hd2). intros _.
      rewrite Hc in Hd1. cbn [andb] in Hd1. now apply negb_true_iff in Hd1.
Qed.

Lemma dropLastDash_slug l : endsWithDash l = false -> dropLastDash l = l.
Proof.
  induction l as [|c [|d r] IH]; [reflexivity| |].
  - cbn [endsWithDash dropLastDash]. now intros ->.
  - intros H. rewrite dropLastDash_cons. f_equal. apply IH. exact H.
Qed.

Lemma stripEdgeDashes_slug l :
  startsWithDash l = false -> endsWithDash l = false -> stripEdgeDashes l = l.
Proof.
  destruct l as [|c r]; [reflexivity|].
  cbn [startsWithDash stripEdgeDashes]. intros -> H. now apply dropLastDash_slug.
Qed.

Lemma fromCodeUnits_codeUnits t : fromCodeUnits (codeUnits t) = t.
Proof.
  unfold fromCodeUnits, codeUnits. rewrite map_map.
  rewrite <- (string_of_list_ascii_of_string t) at 2. f_equal.
  induction (list_ascii_of_string t) as [|c r IH]; [reflexivity|].
  cbn [map]. now rewrite ascii_N_embedding, IH.
Qed.

Lemma length_codeUnits t : List.length (codeUnits t) = String.length t.
Proof.
  unfold codeUnits. rewrite length_map.
  induction t as [|c r IH]; [reflexivity|]. cbn. now rewrite IH.
Qed.

Lemma slugify_fixed t :
  slugShaped t = true -> endsWithDash (codeUnits t) = false ->
  String.length t <= 120 ->
  slugify t = t.
Proof.
  unfold slugShaped. cbv zeta. intros H He Hlen.
  apply andb_true_iff in H as [H Hs]. apply andb_true_iff in H as [Hu Hd].
  apply negb_true_iff in Hs.
  unfold slugify.
  rewrite (fold_slug _ Hu).
  rewrite (@dashRuns_slug _ Hu Hd false) by discriminate.
  rewrite (stripEdgeDashes_slug _ Hs He).
  rewrite firstn_all2 by (now rewrite length_codeUnits).
  apply fromCodeUnits_codeUnits.
Qed.

(** X24: making a slug of a slug changes nothing, unless the slug was cut at a
    dash: the dash at the end then goes.  So a title that is cut at a dash
    gets one slug when the record is created and a shorter one when it is
    saved again. *)
Theorem slugify_idempotent_unless_cut :
  (forall t, slugShaped t = true -> endsWithDash (codeUnits t) = false ->
             String.length t <= 120 -> slugify t = t)
  /\ (forall s, endsWithDash (codeUnits (slugify s)) = false ->
                slugify (slugify s) = slugify s)
  /\ (forall s, String.length (slugify s) < 120 ->
                slugify (slugify s) = slugify s)
  /\ slugify (slugify longTitle) <> slugify longTitle.
Proof.
  split; [exact slugify_fixed|].
  assert (G : forall s, endsWithDash (codeUnits (slugify s)) = false ->
                        slugify (slugify s) = slugify s).
  { intros s He. destruct (slug_wellformed s) as (Hshape & Hlen & _).
    now apply slugify_fixed. }
  split; [exact G|]. split.
  - intros s Hlt. apply G. now apply slug_wellformed.
  - intros E. apply (f_equal String.length) in E. vm_compute in E. discriminate E.
Qed.

Lemma slugify_idempotent_unless_cut_witness :
  slugify "hello-world-9" = "hello-world-9"
  /\ slugify (slugify "Hello, World!") = slugify "Hello, World!".
Proof.
  split.
  - apply (proj1 slugify_idempotent_unless_cut);
      [reflexivity|reflexivity|apply Nat.leb_le; reflexivity].
  - apply (proj1 (proj2 slugify_idempotent_unless_cut)). reflexivity.
Defined.

(** ** The slug of an article *)

Lemma assign_slug_other k (v : json) d :
  k <> "slug" -> lookup k (assign "slug" v d) = lookup k d.
Proof. intros H. now apply assign_lookup_other. Qed.


(** ** Source values *)

Lemma sourceOfField_retained stored meta src acc f acc' :
  sourceOfField stored meta src acc f = Ok acc' ->
  (forall g e, lookup g (sourceRichTextStructures acc) = Some e ->
               retained stored meta src (sourceValues acc) g e) ->
  forall g e, lookup g (sourceRichTextStructures acc') = Some e ->
              (g = f \/ lookup g (sourceRichTextStructures acc) = Some e)
              /\ retained stored meta src (sourceValues acc') g e.
Proof.
  intros Hstep Hinv g e Hg.
  unfold sourceOfField in Hstep. cbv zeta in Hstep. fold (sourceAt stored src f) in Hstep.
  assert (Hother : forall s,
             g <> f -> lookup g (sourceRichTextStructures acc) = Some e ->
             retained stored meta src (assign f s (sourceValues acc)) g e).
  { intros s Hne Hold. destruct (Hinv g e Hold) as (H1 & H2 & H3).
    unfold retained. rewrite assign_lookup_other by exact Hne. tauto. }
  assert (Hplain : forall s,
             (lookup f meta <> Some KRichText
              \/ (looksLikeSlate (sourceAt stored src f) = false
                  /\ looksLikeLexical (sourceAt stored src f) = false)) ->
             lookup g (sourceRichTextStructures acc) = Some e ->
             (g = f \/ lookup g (sourceRichTextStructures acc) = Some e)
             /\ retained stored meta src (assign f s (sourceValues acc)) g e).
  { intros s Hno Hold. split; [now right|].
    destruct (String.eqb_spec g f) as [->|Hne]; [|now apply Hother].
    exfalso. destruct (Hinv f e Hold) as (H1 & H2 & H3).
    destruct Hno as [Hno|[Hs Hl]]; [now apply Hno|].
    rewrite H2 in Hs, Hl. destruct (fst e).
    - destruct H3 as [H3 _]. congruence.
    - destruct H3 as (_ & H3 & _). congruence. }
  destruct (lookup f meta) as [[| |]|] eqn:Hmeta;
    try (injection Hstep as <-; cbn [sourceRichTextStructures sourceValues] in *;
         apply Hplain; [left; discriminate|exact Hg]).
  destruct (sourceAt stored src f) as [structure|] eqn:Hval.
  2:{ injection Hstep as <-. cbn [sourceRichTextStructures sourceValues] in *.
      apply Hplain; [right; split; reflexivity|exact Hg]. }
  destruct (looksLikeSlate (Some structure)) eqn:Hslate.
  - injection Hstep as <-. cbn [sourceRichTextStructures sourceValues] in *.
    destruct (String.eqb_spec g f) as [->|Hne].
    + rewrite assign_lookup in Hg. injection Hg as <-. split; [now left|].
      unfold retained. cbn [fst snd]. rewrite assign_lookup.
      repeat split; first [assumption|reflexivity].
    + rewrite assign_lookup_other in Hg by exact Hne. split; [now right|].
      now apply Hother.
  - destruct (looksLikeLexical (Some structure)) eqn:Hlex.
    + destruct (lexicalToPlain (Some structure)) as [s|err] eqn:Hp; [|discriminate Hstep].
      cbn [rbind] in Hstep. injection Hstep as <-.
      cbn [sourceRichTextStructures sourceValues] in *.
      destruct (String.eqb_spec g f) as [->|Hne].
      * rewrite assign_lookup in Hg. injection Hg as <-. split; [now left|].
        unfold retained. cbn [fst snd]. repeat split; try assumption.
        exists s. split; [exact Hp|apply assign_lookup].
      * rewrite assign_lookup_other in Hg by exact Hne. split; [now right|].
        now apply Hother.
    + injection Hstep as <-. cbn [sourceRichTextStructures sourceValues] in *.
      apply Hplain; [right; split; first [assumption|reflexivity]|exact Hg].
Qed.

Lemma sourcesFrom_retained stored meta src fields :
  forall acc srcs,
    sourcesFrom stored meta src acc fields = Ok srcs ->
    (forall g e, lookup g (sourceRichTextStructures acc) = Some e ->
                 retained stored meta src (sourceValues acc) g e) ->
    forall g e, lookup g (sourceRichTextStructures srcs) = Some e ->
                (In g fields \/ lookup g (sourceRichTextStructures acc) = Some e)
                /\ retained stored meta src (sourceValues srcs) g e.
Proof.
  induction fields as [|f rest IH]; intros acc srcs H Hinv g e Hg.
  - injection H as <-. split; [now right|now apply Hinv].
  - cbn [sourcesFrom] in H.
    destruct (sourceOfField stored meta src acc f) as [acc'|err] eqn:Hstep;
      [|discriminate H].
    cbn [rbind] in H.
    assert (Hinv' : forall g e,
               lookup g (sourceRichTextStructures acc') = Some e ->
               retained stored meta src (sourceValues acc') g e).
    { intros g' e' Hg'.
      apply (@sourceOfField_retained stored meta src acc f acc' Hstep Hinv g' e' Hg'). }
    destruct (IH acc' srcs H Hinv' g e Hg) as [[Hin|Hold] Hret].
    + split; [left; now right|exact Hret].
    + split; [|exact Hret].
      destruct (@sourceOfField_retained stored meta src acc f acc' Hstep Hinv g e Hold)
        as [[->|Hacc] _]; [left; now left|now right].
Qed.

(** X10: a source structure is retained for a rich-text field of the schema
    only: it is the value of the field in the source locale, it is
    recognised in the dialect that is recorded with it (Slate first), and
    the text sent to the model for the field is its flattening. *)
Theorem retained_structures_are_recognised
  (stored : json) (meta : FieldMap) (src : string) (fields : list string)
  (srcs : Sources) (f : string) (dialect : Dialect) (structure : json) :
  sourcesFrom stored meta src (mkSources [] []) fields = Ok srcs ->
  lookup f (sourceRichTextStructures srcs) = Some (dialect, structure) ->
  In f fields
  /\ lookup f meta = Some KRichText
  /\ sourceAt stored src f = Some structure
  /\ match dialect with
     | DSlate =>
         looksLikeSlate (Some structure) = true
         /\ lookup f (sourceValues srcs) = Some (slateToPlain (Some structure))
     | DLexical =>
         looksLikeSlate (Some structure) = false
         /\ looksLikeLexical (Some structure) = true
         /\ exists s, lexicalToPlain (Some structure) = Ok s
                      /\ lookup f (sourceValues srcs) = Some s
     end.
Proof.
  intros H Hf.
  destruct (@sourcesFrom_retained stored meta src fields (mkSources [] []) srcs H
              (fun g e (Hg : lookup g [] = Some e) =>
                 match Hg in (_ = r) return match r with None => True | Some _ => _ end
                 with eq_refl => I end)
              f (dialect, structure) Hf) as [[Hin|Hold] (H1 & H2 & H3)];
    [|discriminate Hold].
  repeat split; assumption.
Qed.

Lemma retained_structures_are_recognised_witness :
  In "body" ["title"; "body"]
  /\ lookup "body" titleBodyMeta = Some KRichText
  /\ sourceAt docLexicalBody "en" "body" = Some sampleLexical
  /\ looksLikeSlate (Some sampleLexical) = false
     /\ looksLikeLexical (Some sampleLexical) = true
     /\ exists s, lexicalToPlain (Some sampleLexical) = Ok s
                  /\ lookup "body"
                       [("title", "Hello"); ("body", "Hello
world again")] = Some s.
Proof.
  apply (@retained_structures_are_recognised docLexicalBody titleBodyMeta "en"
           ["title"; "body"]
           (mkSources [("title", "Hello"); ("body", "Hello
world again")] [("body", (DLexical, sampleLexical))]) "body" DLexical sampleLexical);
    reflexivity.
Defined.
(** The localized content fields of the collections of the repository, and
    of a nested schema. *)
Lemma repository_collections :
  fst (detectLocalizedFieldsWithMeta Articles) = ["title"]
  /\ fst (detectLocalizedFieldsWithMeta PushNotifications) = ["name"]
  /\ detectLocalizedFieldsWithMeta nestedCollection
     = (["seo.title"; "seo.summary"; "layout.hero.body"],
        [("seo.title", KText); ("seo.summary", KTextarea);
         ("layout.hero.body", KRichText)]).
Proof. repeat split. Qed.
